(** * Woodpecker chess trainer: PGN move-tree parser and variation traversal

    A shallow embedding of [PGNParser] (tokenizer, tree builder, game
    splitting) and of [WoodpeckerTrainer] (the variation-traversal state
    machine), with the properties of the specification stated over them.

    JavaScript strings are sequences of UTF-16 code units; a code unit is
    modelled as a number in [N] and a string as a list of them.  The
    numbers of the parser are doubles: a natural number that a double
    holds, or [Infinity]; [parseInt] and the increment round to the
    nearest double, and [NaN] is [None]. *)

From Stdlib Require Import NArith ZArith String Ascii.
From stdpp Require Import base tactics option list gmap.

Set Warnings "-register-all".

Local Open Scope N_scope.

(** ** Strings *)

Definition char := N.
Definition jsstring := list char.

Definition ch (a : ascii) : char := N_of_ascii a.
Arguments ch : simpl never.
Definition str (s : string) : jsstring := map N_of_ascii (list_ascii_of_string s).

Definition quote_char : char := 34.
Definition newline_char : char := 10.

Definition char_in (set : jsstring) (c : char) : bool := existsb (N.eqb c) set.
Definition in_range (lo hi c : char) : bool := (lo <=? c) && (c <=? hi).

(** [\s]: the WhiteSpace and LineTerminator code units. *)
Definition is_space (c : char) : bool :=
  in_range 9 13 c || char_in [32; 160; 5760; 8232; 8233; 8239; 8287; 12288; 65279] c
  || in_range 8192 8202 c.

(** [\d] and [\w]. *)
Definition is_digit (c : char) : bool := in_range 48 57 c.
Definition is_word (c : char) : bool :=
  in_range 97 122 c || in_range 65 90 c || is_digit c || (c =? 95).

Definition jsstring_eqb (a b : jsstring) : bool := bool_decide (a = b).

Fixpoint take_while (p : char -> bool) (s : jsstring) : jsstring :=
  match s with
  | c :: s' => if p c then c :: take_while p s' else []
  | [] => []
  end.

(** [String.prototype.trim], [startsWith], [endsWith], [split], [join]. *)
Fixpoint trim_start (s : jsstring) : jsstring :=
  match s with
  | c :: s' => if is_space c then trim_start s' else s
  | [] => []
  end.

Definition trim_end (s : jsstring) : jsstring := reverse (trim_start (reverse s)).
Definition trim (s : jsstring) : jsstring := trim_end (trim_start s).

Definition starts_with (c : char) (s : jsstring) : bool :=
  match s with c' :: _ => c' =? c | [] => false end.
Definition ends_with (c : char) (s : jsstring) : bool := starts_with c (reverse s).

(** [s.split(sep)] for a one-character separator: never empty. *)
Fixpoint split_on (sep : char) (s : jsstring) : list jsstring :=
  match s with
  | [] => [[]]
  | c :: s' =>
      if c =? sep then [] :: split_on sep s'
      else match split_on sep s' with
           | w :: ws => (c :: w) :: ws
           | [] => [[c]]
           end
  end.

Fixpoint join (sep : jsstring) (l : list jsstring) : jsstring :=
  match l with
  | [] => []
  | [x] => x
  | x :: l' => x ++ sep ++ join sep l'
  end.

(** ** Regular expressions

    The patterns of the source are matched by a small backtracking matcher
    that lists every way to match a prefix in the priority order of
    JavaScript (leftmost alternative first, quantifiers greedy); the match
    JavaScript reports is the first. *)

Inductive regex :=
| REps
| RSet (p : char -> bool)
| RSeq (r1 r2 : regex)
| RAlt (r1 r2 : regex)
| ROpt (r : regex)
| RStar (p : char -> bool)
| RGroup (r : regex).

Record rmatch_result := RMatch {
  matched : jsstring;          (* match[0] *)
  groups : list jsstring;      (* match[1], match[2], ... *)
  remainder : jsstring }.

Fixpoint star_matches (p : char -> bool) (s : jsstring) : list rmatch_result :=
  match s with
  | c :: s' =>
      if p c
      then ((fun m => RMatch (c :: matched m) (groups m) (remainder m)) <$> star_matches p s')
             ++ [RMatch [] [] s]
      else [RMatch [] [] s]
  | [] => [RMatch [] [] s]
  end.

Fixpoint rmatch (r : regex) (s : jsstring) : list rmatch_result :=
  match r with
  | REps => [RMatch [] [] s]
  | RSet p =>
      match s with
      | c :: s' => if p c then [RMatch [c] [] s'] else []
      | [] => []
      end
  | RSeq r1 r2 =>
      m1 ← rmatch r1 s;
      m2 ← rmatch r2 (remainder m1);
      [RMatch (matched m1 ++ matched m2) (groups m1 ++ groups m2) (remainder m2)]
  | RAlt r1 r2 => rmatch r1 s ++ rmatch r2 s
  | ROpt r' => rmatch r' s ++ [RMatch [] [] s]
  | RStar p => star_matches p s
  | RGroup r' =>
      (fun m => RMatch (matched m) (matched m :: groups m) (remainder m)) <$> rmatch r' s
  end.

(** [s.match(/^r/)]. *)
Definition match_prefix (r : regex) (s : jsstring) : option rmatch_result :=
  head (rmatch r s).

Definition RChar (c : char) : regex := RSet (N.eqb c).
Definition RPlus (p : char -> bool) : regex := RSeq (RSet p) (RStar p).
Fixpoint RLit (s : jsstring) : regex :=
  match s with
  | [] => REps
  | [c] => RChar c
  | c :: s' => RSeq (RChar c) (RLit s')
  end.

(** A lower bound on the length of every match. *)
Fixpoint min_len (r : regex) : nat :=
  match r with
  | REps => 0
  | RSet _ => 1
  | RSeq r1 r2 => min_len r1 + min_len r2
  | RAlt r1 r2 => min_len r1 `min` min_len r2
  | ROpt _ => 0
  | RStar _ => 0
  | RGroup r' => min_len r'
  end%nat.

(** ** Numbers

    The numbers the parser computes with are the doubles of JavaScript
    that [parseInt] of decimal digits and [++] give: a natural number that
    a double holds exactly, or [Infinity].  [to_number] is the rounding of
    a natural number to the nearest double: 53 binary digits are kept, a
    tie goes to the even significand, and the result is [Infinity] from
    2^1024 on. *)
Inductive number := Finite (n : N) | Infinity.

Global Instance number_eq_dec : EqDecision number.
Proof. solve_decision. Defined.

Definition to_number (n : N) : number :=
  let bits := N.size n in
  if bits <=? 53 then Finite n
  else
    let shift := bits - 53 in
    let q := N.shiftr n shift in
    let r := N.land n (N.ones shift) in
    let half := N.shiftl 1 (shift - 1) in
    let q' := if (half <? r) || ((r =? half) && N.odd q) then q + 1 else q in
    let rounded := N.shiftl q' shift in
    if 1024 <? N.size rounded then Infinity else Finite rounded.

(** [x + 1] on such a number, as [++] computes it. *)
Definition increment (x : number) : number :=
  match x with
  | Finite n => to_number (n + 1)
  | Infinity => Infinity
  end.

(** [parseInt] of a string of decimal digits: [parse_digits] is the
    natural number the digits spell, [parseInt] the double nearest to it
    (the standard leaves the digits after the twentieth to the engine; the
    engines round the number as it is written), and [NaN], here [None],
    when there is no digit.  The digits of a move number are matched by
    [\d+] and never empty: its value is [to_number (parse_digits _)]. *)
Definition digit_value (c : char) : N := c - 48.
Definition parse_digits (s : jsstring) : N :=
  fold_left (fun acc c => 10 * acc + digit_value c) s 0.
Definition parseInt (s : jsstring) : option number :=
  match s with
  | [] => None
  | _ => Some (to_number (parse_digits s))
  end.

(** ** Data model of the move tree *)

Record Arrow := mkArrow { arrow_color : jsstring; arrow_from : jsstring; arrow_to : jsstring }.
Record Highlight := mkHighlight { hl_color : jsstring; hl_square : jsstring }.

(** A move node; [nags] holds the values pushed by the tree builder, where
    [None] is the [NaN] that [parseInt] gives for a [$] without digits. *)
Inductive MoveNode := mkMoveNode {
  san : jsstring;
  moveNumber : number;
  isWhite : bool;
  comment : jsstring;
  nags : list (option number);
  arrows : list Arrow;
  highlights : list Highlight;
  variations : list (list MoveNode) }.

Record Game := mkGame {
  headers : gmap jsstring jsstring;
  white : jsstring;
  black : jsstring;
  result : jsstring;
  eco : jsstring;
  fen : option jsstring;
  gameComment : jsstring;
  moves : list MoveNode }.

Module PGNParser.

(** *** Tokenizer *)

Inductive token :=
| TComment (value : jsstring)
| TVariationStart
| TVariationEnd
| TNag (value : option number)
| TResult (value : jsstring)
| TMoveNumber (value : number) (isBlack : bool)
| TMove (value : jsstring).

(** The result pattern: [1-0], [0-1], [1/2-1/2] or an asterisk. *)
Definition result_re : regex :=
  RGroup (RAlt (RLit (str "1-0")) (RAlt (RLit (str "0-1"))
         (RAlt (RLit (str "1/2-1/2")) (RLit (str "*"))))).

(** [/^(\d+)(\.{1,3})\s*/] *)
Definition move_number_re : regex :=
  let dot := RChar (ch ".") in
  RSeq (RGroup (RPlus is_digit))
       (RSeq (RGroup (RSeq dot (ROpt (RSeq dot (ROpt dot))))) (RStar is_space)).

(** [/^(O-O-O|O-O|[KQRBN]?[a-h]?[1-8]?x?[a-h][1-8](?:=[QRBN])?[+#]?|[a-h][1-8](?:=[QRBN])?[+#]?)/] *)
Definition san_re : regex :=
  let piece := RSet (char_in (str "KQRBN")) in
  let file := RSet (in_range (ch "a") (ch "h")) in
  let rank := RSet (in_range (ch "1") (ch "8")) in
  let promo := ROpt (RSeq (RChar (ch "=")) (RSet (char_in (str "QRBN")))) in
  let check := ROpt (RSet (char_in (str "+#"))) in
  let target := RSeq file (RSeq rank (RSeq promo check)) in
  RGroup (RAlt (RLit (str "O-O-O")) (RAlt (RLit (str "O-O"))
         (RAlt (RSeq (ROpt piece) (RSeq (ROpt file) (RSeq (ROpt rank)
                  (RSeq (ROpt (RChar (ch "x"))) target))))
               target))).

(** [/^(\?\?|\?\!|\!\?|\!\!|\?|\!)/] *)
Definition annotation_re : regex :=
  RGroup (RAlt (RLit (str "??")) (RAlt (RLit (str "?!")) (RAlt (RLit (str "!?"))
         (RAlt (RLit (str "!!")) (RAlt (RLit (str "?")) (RLit (str "!"))))))).

(** [nagMap]: [{ '!': 1, '?': 2, '!!': 3, '??': 4, '!?': 5, '?!': 6 }]. *)
Definition nagMap : list (jsstring * N) :=
  [(str "!", 1); (str "?", 2); (str "!!", 3); (str "??", 4); (str "!?", 5); (str "?!", 6)].

Definition nagMap_lookup (k : jsstring) : option number :=
  (fun kv => Finite (snd kv)) <$> find (fun kv => jsstring_eqb (fst kv) k) nagMap.

(** The inner loop of a comment: [j] runs from after the opening brace
    until the nesting depth is zero or the text ends.  Returns the
    characters passed over and the text from [j] on. *)
Definition comment_depth (depth : nat) (c : char) : nat :=
  let depth := if c =? ch "{" then S depth else depth in
  if c =? ch "}" then pred depth else depth.

Fixpoint scan_comment (depth : nat) (s : jsstring) : jsstring * jsstring :=
  match s with
  | [] => ([], [])
  | c :: s' =>
      let depth := comment_depth depth c in
      match depth with
      | O => ([c], s')
      | S _ => let '(body, rest) := scan_comment depth s' in (c :: body, rest)
      end
  end.

(** [text.slice(i + 1, j - 1)]: the characters passed over but the last. *)
Definition comment_value (body : jsstring) : jsstring := take (pred (length body)) body.

(** The first group of a match, [match[1]]. *)
Definition group1 (m : rmatch_result) : jsstring := default [] (head (groups m)).
Definition group2 (m : rmatch_result) : jsstring := default [] (groups m !! 1%nat).

(** One iteration of the [while (i < text.length)] loop on the text from
    [i] on (not empty): the token pushed, if any, and the text from the
    new [i] on. *)
Definition scan_token (c : char) (s' : jsstring) : option token * jsstring :=
  let s := c :: s' in
  if is_space c then (None, s')
  else if c =? ch "{" then
    let '(body, rest) := scan_comment 1 s' in (Some (TComment (comment_value body)), rest)
  else if c =? ch "(" then (Some TVariationStart, s')
  else if c =? ch ")" then (Some TVariationEnd, s')
  else if c =? ch "$" then
    let digits := take_while is_digit s' in
    (Some (TNag (parseInt digits)), drop (length digits) s')
  else match match_prefix result_re s with
  | Some m => (Some (TResult (group1 m)), drop (length (group1 m)) s)
  | None =>
  match match_prefix move_number_re s with
  | Some m =>
      (Some (TMoveNumber (to_number (parse_digits (group1 m)))
               (bool_decide (length (group2 m) = 3%nat))),
       drop (length (matched m)) s)
  | None =>
  match match_prefix san_re s with
  | Some m => (Some (TMove (group1 m)), drop (length (group1 m)) s)
  | None =>
  match match_prefix annotation_re s with
  | Some m => (Some (TNag (nagMap_lookup (group1 m))), drop (length (group1 m)) s)
  | None => (None, s')
  end end end end.

(** The loop; [fuel] bounds the number of iterations and [None] means it
    ran out. *)
Fixpoint tokenize_loop (fuel : nat) (s : jsstring) : option (list token) :=
  match s with
  | [] => Some []
  | c :: s' =>
      match fuel with
      | O => None
      | S fuel' =>
          let '(tok, rest) := scan_token c s' in
          tokens ← tokenize_loop fuel' rest;
          Some (match tok with Some t => t :: tokens | None => tokens end)
      end
  end.

Definition _tokenize (text : jsstring) : option (list token) :=
  tokenize_loop (length text) text.

(** A character none of the rules of the scanner applies to, given the
    text after it. *)
Definition unrecognized (c : char) (s' : jsstring) : bool :=
  negb (is_space c) && negb (char_in (str "{()$") c)
  && bool_decide (match_prefix result_re (c :: s') = None)
  && bool_decide (match_prefix move_number_re (c :: s') = None)
  && bool_decide (match_prefix san_re (c :: s') = None)
  && bool_decide (match_prefix annotation_re (c :: s') = None).

(** *** Annotation decoder *)

(** [s.replace(/re/g, ...)] for a pattern that matches no empty string:
    every match, scanning left to right, is replaced by [rep], and [cb]
    collects what the callback of the source pushes.  [skip] counts the
    characters of the current match still to pass over. *)
Fixpoint replace_all {A} (re : regex) (rep : jsstring) (cb : rmatch_result -> list A)
    (skip : nat) (s : jsstring) : jsstring * list A :=
  match s with
  | [] => ([], [])
  | c :: s' =>
      match skip with
      | S k => replace_all re rep cb k s'
      | O =>
          match match_prefix re s with
          | Some m =>
              let '(out, xs) := replace_all re rep cb (pred (length (matched m))) s' in
              (rep ++ out, cb m ++ xs)
          | None =>
              let '(out, xs) := replace_all re rep cb 0 s' in (c :: out, xs)
          end
      end
  end.

Definition to_upper (c : char) : char :=
  if in_range (ch "a") (ch "z") c then c - 32 else c.

(** [_mapColor]: the colour table, with blue as the fallback. *)
Definition _mapColor (code : char) : jsstring :=
  let u := to_upper code in
  if u =? ch "R" then str "#e74c3c"
  else if u =? ch "G" then str "#2ecc71"
  else if u =? ch "B" then str "#3498db"
  else if u =? ch "Y" then str "#f1c40f"
  else if u =? ch "C" then str "#1abc9c"
  else if u =? ch "M" then str "#9b59b6"
  else str "#3498db".

Definition slice (a b : nat) (s : jsstring) : jsstring := take (b - a) (drop a s).

Definition not_char (c : char) (x : char) : bool := negb (x =? c).

(** [\[%cal\s+([^\]]+)\]] and its [%csl] twin. *)
Definition directive_re (name : jsstring) : regex :=
  RSeq (RLit (str "[%" ++ name))
       (RSeq (RPlus is_space) (RSeq (RGroup (RPlus (not_char (ch "]")))) (RChar (ch "]")))).

(** The engine directives: a bracket, a percent sign, word characters,
    white space, anything but a closing bracket, a closing bracket. *)
Definition engine_directive_re : regex :=
  RSeq (RLit (str "[%"))
       (RSeq (RPlus is_word) (RSeq (RPlus is_space)
             (RSeq (RStar (not_char (ch "]"))) (RChar (ch "]"))))).

Definition decode_arrows (m : rmatch_result) : list Arrow :=
  a ← split_on (ch ",") (group1 m);
  let trimmed := trim a in
  if bool_decide (5 ≤ length trimmed)%nat
  then match trimmed with
       | color :: _ => [mkArrow (_mapColor color) (slice 1 3 trimmed) (slice 3 5 trimmed)]
       | [] => []
       end
  else [].

Definition decode_highlights (m : rmatch_result) : list Highlight :=
  h ← split_on (ch ",") (group1 m);
  let trimmed := trim h in
  if bool_decide (3 ≤ length trimmed)%nat
  then match trimmed with
       | color :: _ => [mkHighlight (_mapColor color) (slice 1 3 trimmed)]
       | [] => []
       end
  else [].

Definition _cleanComment (text : jsstring) : jsstring :=
  trim (fst (replace_all (A:=unit) (RPlus is_space) (str " ") (fun _ => []) 0 text)).

Record ParsedComment := mkParsedComment {
  pc_text : jsstring; pc_arrows : list Arrow; pc_highlights : list Highlight }.

Definition _parseComment (raw : jsstring) : ParsedComment :=
  let '(text, arrows) := replace_all (directive_re (str "cal")) [] decode_arrows 0 raw in
  let '(text, highlights) := replace_all (directive_re (str "csl")) [] decode_highlights 0 text in
  let text := fst (replace_all (A:=unit) engine_directive_re [] (fun _ => []) 0 text) in
  mkParsedComment (_cleanComment text) arrows highlights.

(** *** Tree builder *)

(** The comment merge written three times in [parseSequence]: a non-empty
    decoded text is appended to the comment, space-joined; arrows and
    highlights are pushed. *)
Definition merge_comment (node : MoveNode) (value : jsstring) : MoveNode :=
  let parsed := _parseComment value in
  let comment' :=
    match pc_text parsed, comment node with
    | [], _ => comment node
    | t, [] => t
    | t, c => c ++ str " " ++ t
    end in
  mkMoveNode (san node) (moveNumber node) (isWhite node) comment' (nags node)
    (arrows node ++ pc_arrows parsed) (highlights node ++ pc_highlights parsed)
    (variations node).

Definition push_nag (node : MoveNode) (value : option number) : MoveNode :=
  mkMoveNode (san node) (moveNumber node) (isWhite node) (comment node)
    (nags node ++ [value]) (arrows node) (highlights node) (variations node).

Definition push_variation (node : MoveNode) (variation : list MoveNode) : MoveNode :=
  mkMoveNode (san node) (moveNumber node) (isWhite node) (comment node)
    (nags node) (arrows node) (highlights node) (variations node ++ [variation]).

Definition new_node (value : jsstring) (currentMoveNumber : number) (expectWhite : bool)
    : MoveNode :=
  mkMoveNode value currentMoveNumber expectWhite [] [] [] [] [].

(** "Collect NAGs and comments after the move". *)
Fixpoint collect_annotations (node : MoveNode) (tokens : list token) : MoveNode * list token :=
  match tokens with
  | TNag v :: rest => collect_annotations (push_nag node v) rest
  | TComment v :: rest => collect_annotations (merge_comment node v) rest
  | _ => (node, tokens)
  end.

(** "Skip comments between variations". *)
Fixpoint collect_comments (node : MoveNode) (tokens : list token) : MoveNode * list token :=
  match tokens with
  | TComment v :: rest => collect_comments (merge_comment node v) rest
  | _ => (node, tokens)
  end.

(** A comment with no move before it in the loop goes to the last move. *)
Definition attach_to_last (moves : list MoveNode) (value : jsstring) : list MoveNode :=
  match reverse moves with
  | lastMove :: before => reverse before ++ [merge_comment lastMove value]
  | [] => []
  end.

(** The closing parenthesis of a variation is passed over, if it is there. *)
Definition after_variation (rest : list token) : list token :=
  match rest with TVariationEnd :: rest' => rest' | _ => rest end.

(** The state the loop of [parseSequence] advances after a move. *)
Definition next_number (currentMoveNumber : number) (expectWhite : bool) : number :=
  if expectWhite then currentMoveNumber else increment currentMoveNumber.

(** [sequence_loop] is the [while (pos < tokens.length)] loop of
    [parseSequence] with its locals [moves], [currentMoveNumber] and
    [expectWhite]; the cursor [pos] is the list of tokens still to read,
    returned with the moves.  [variation_loop] is the loop that collects
    the variations of a node. *)
Fixpoint sequence_loop (fuel : nat) (moves : list MoveNode) (currentMoveNumber : number)
    (expectWhite : bool) (tokens : list token) : option (list MoveNode * list token) :=
  match tokens with
  | [] => Some (moves, [])
  | token :: rest =>
      match fuel with
      | O => None
      | S fuel' =>
          match token with
          | TVariationEnd => Some (moves, tokens)
          | TResult _ => sequence_loop fuel' moves currentMoveNumber expectWhite rest
          | TMoveNumber value isBlack => sequence_loop fuel' moves value (negb isBlack) rest
          | TMove value =>
              let node := new_node value currentMoveNumber expectWhite in
              let '(node, rest) := collect_annotations node rest in
              '(node, rest) ← variation_loop fuel' node rest;
              sequence_loop fuel' (moves ++ [node])
                (next_number currentMoveNumber expectWhite) (negb expectWhite) rest
          | TComment value =>
              sequence_loop fuel' (attach_to_last moves value) currentMoveNumber expectWhite rest
          | TNag _ | TVariationStart =>
              sequence_loop fuel' moves currentMoveNumber expectWhite rest
          end
      end
  end
with variation_loop (fuel : nat) (node : MoveNode) (tokens : list token)
    : option (MoveNode * list token) :=
  match tokens with
  | TVariationStart :: rest =>
      match fuel with
      | O => None
      | S fuel' =>
          '(variation, rest) ← sequence_loop fuel' [] (Finite 1) true rest;
          let node := push_variation node variation in
          let rest := after_variation rest in
          let '(node, rest) := collect_comments node rest in
          variation_loop fuel' node rest
      end
  | _ => Some (node, tokens)
  end.

Definition parseSequence (fuel : nat) (tokens : list token)
    : option (list MoveNode * list token) :=
  sequence_loop fuel [] (Finite 1) true tokens.

Definition parse_tokens (tokens : list token) : option (list MoveNode) :=
  fst <$> parseSequence (S (length tokens)) tokens.

Definition _parseMoves (text : jsstring) : list MoveNode :=
  default [] (_tokenize text ≫= parse_tokens).

(** The numbering rule of the specification, as a relation on natural
    numbers, written from its words and not from the code: read from
    [tokens] with [number] and [white] as the current move number and side,
    a sequence has the [nodes] and leaves [rest].  A move-number token sets
    the number and side; a move takes them as they are and advances them:
    after a move of White the number stays and Black follows, after a move
    of Black the number is one more and White follows
    ([number_after_move]); every variation is a sequence of its own that
    starts at move 1, White.  [branches] reads the annotations and
    variations that follow a move.  Which tokens are grouped into which
    sequence is left to the builder. *)
Definition number_after_move (number : N) (white : bool) : N :=
  match white with
  | true => number
  | false => number + 1
  end.

Definition skipped (t : token) : Prop :=
  match t with
  | TResult _ | TNag _ | TComment _ | TVariationStart => True
  | _ => False
  end.

Definition annotation (t : token) : Prop :=
  match t with
  | TNag _ | TComment _ => True
  | _ => False
  end.

Inductive numbered : N → bool → list token → list MoveNode → list token → Prop :=
| numbered_end number white :
    numbered number white [] [] []
| numbered_close number white rest :
    numbered number white (TVariationEnd :: rest) [] (TVariationEnd :: rest)
| numbered_number number white value isBlack tokens nodes rest :
    numbered value (negb isBlack) tokens nodes rest →
    numbered number white (TMoveNumber (Finite value) isBlack :: tokens) nodes rest
| numbered_skip number white t tokens nodes rest :
    skipped t →
    numbered number white tokens nodes rest →
    numbered number white (t :: tokens) nodes rest
| numbered_move number white value tokens tokens' node nodes rest :
    san node = value → moveNumber node = Finite number → isWhite node = white →
    branches tokens (variations node) tokens' →
    numbered (number_after_move number white) (negb white) tokens' nodes rest →
    numbered number white (TMove value :: tokens) (node :: nodes) rest
with branches : list token → list (list MoveNode) → list token → Prop :=
| branches_done tokens :
    branches tokens [] tokens
| branches_skip t tokens vars tokens' :
    annotation t →
    branches tokens vars tokens' →
    branches (t :: tokens) vars tokens'
| branches_variation tokens variation rest vars tokens' :
    numbered 1 true tokens variation rest →
    branches (after_variation rest) vars tokens' →
    branches (TVariationStart :: tokens) (variation :: vars) tokens'.




(** What the comment merges leave alone in a node. *)
Definition skeleton (node : MoveNode)
    : jsstring * number * bool * list (option number) * list (list MoveNode) :=
  (san node, moveNumber node, isWhite node, nags node, variations node).

(** *** Games *)

Definition is_header_line (trimmed : jsstring) : bool :=
  starts_with (ch "[") trimmed && ends_with (ch "]") trimmed.

Definition is_empty (s : jsstring) : bool := bool_decide (s = []).

(** The header pattern: a bracket, a word (the tag), white space and a
    quoted value without quotes in it, a bracket. *)
Definition header_re : regex :=
  RSeq (RChar (ch "["))
       (RSeq (RGroup (RPlus is_word)) (RSeq (RPlus is_space)
             (RSeq (RChar quote_char) (RSeq (RGroup (RStar (not_char quote_char)))
                   (RSeq (RChar quote_char) (RChar (ch "]"))))))).

(** [headers[tag] = value] on the plain object: the assignment stores the
    value under the tag, but for the tag [__proto__], which is the
    accessor of the prototype and stores nothing when it is given a
    string. *)
Definition set_header (headers : gmap jsstring jsstring) (kv : jsstring * jsstring)
    : gmap jsstring jsstring :=
  if bool_decide (fst kv = str "__proto__") then headers
  else <[fst kv := snd kv]> headers.

(** [_parseHeaders]: every match assigns [headers[match[1]] = match[2]]. *)
Definition _parseHeaders (text : jsstring) : gmap jsstring jsstring :=
  let found := snd (replace_all header_re [] (fun m => [(group1 m, group2 m)]) 0 text) in
  fold_left set_header found ∅.

(** The loop of [_extractMoveText] over the lines, with its locals
    [pastHeaders] and [moveLines]. *)
Definition extract_step (st : bool * list jsstring) (line : jsstring) : bool * list jsstring :=
  let '(pastHeaders, moveLines) := st in
  let trimmed := trim line in
  if is_header_line trimmed then (false, moveLines)
  else if is_empty trimmed && negb pastHeaders then (true, moveLines)
  else if pastHeaders || (negb (starts_with (ch "[") trimmed) && negb (is_empty trimmed))
  then (true, moveLines ++ [trimmed])
  else (pastHeaders, moveLines).

Definition _extractMoveText (text : jsstring) : jsstring :=
  join (str " ") (snd (fold_left extract_step (split_on newline_char text) (false, []))).

(** The loop of [_splitGames] with its locals. *)
Record split_state := mkSplit {
  sp_games : list jsstring;
  sp_currentGame : list jsstring;
  sp_hasHeaders : bool;
  sp_hasMoves : bool }.

Definition split_step (st : split_state) (line : jsstring) : split_state :=
  let trimmed := trim line in
  if is_header_line trimmed then
    if sp_hasMoves st && sp_hasHeaders st
    then mkSplit (sp_games st ++ [join [newline_char] (sp_currentGame st)]) [trimmed] true false
    else mkSplit (sp_games st) (sp_currentGame st ++ [trimmed]) true (sp_hasMoves st)
  else if is_empty trimmed then
    mkSplit (sp_games st) (sp_currentGame st ++ [trimmed]) (sp_hasHeaders st) (sp_hasMoves st)
  else
    mkSplit (sp_games st) (sp_currentGame st ++ [trimmed]) (sp_hasHeaders st) true.

Definition _splitGames (pgnText : jsstring) : list jsstring :=
  let st := fold_left split_step (split_on newline_char pgnText) (mkSplit [] [] false false) in
  if bool_decide (0 < length (sp_currentGame st))%nat && sp_hasHeaders st
  then sp_games st ++ [join [newline_char] (sp_currentGame st)]
  else sp_games st.

(** The leading comment: white space, a brace, anything but a closing
    brace, the closing brace, white space. *)
Definition leading_comment_re : regex :=
  RSeq (RStar is_space)
       (RSeq (RChar (ch "{")) (RSeq (RGroup (RStar (not_char (ch "}"))))
             (RSeq (RChar (ch "}")) (RStar is_space)))).

(** [headers[k] || d]. *)
Definition header_or (headers : gmap jsstring jsstring) (k d : jsstring) : jsstring :=
  match headers !! k with
  | Some (c :: v) => c :: v
  | _ => d
  end.

(** [parseSingleGame]; [None] is [null]. *)
Definition parseSingleGame (gameText : jsstring) : option Game :=
  let headers := _parseHeaders gameText in
  let moveText := _extractMoveText gameText in
  if is_empty (trim moveText) then None
  else
    let '(gameComment, movesStr) :=
      match match_prefix leading_comment_re moveText with
      | Some m => (pc_text (_parseComment (group1 m)), drop (length (matched m)) moveText)
      | None => ([], moveText)
      end in
    Some (mkGame headers
            (header_or headers (str "White") (str "White"))
            (header_or headers (str "Black") (str "Black"))
            (header_or headers (str "Result") (str "*"))
            (header_or headers (str "ECO") [])
            (match headers !! str "FEN" with Some (c :: v) => Some (c :: v) | _ => None end)
            gameComment
            (_parseMoves movesStr)).

(** The first line that is a header or blank, where the text starts. *)
Fixpoint start_index (lines : list jsstring) : option nat :=
  match lines with
  | [] => None
  | line :: lines' =>
      let trimmed := trim line in
      if starts_with (ch "[") trimmed || is_empty trimmed then Some O
      else S <$> start_index lines'
  end.

Definition strip_description (pgnText : jsstring) : jsstring :=
  let lines := split_on newline_char pgnText in
  join [newline_char] (drop (default O (start_index lines)) lines).

(** [parseMultipleGames]: the games of the blocks for which
    [parseSingleGame] gives one. *)
Definition parseMultipleGames (pgnText : jsstring) : list Game :=
  omap parseSingleGame (_splitGames (strip_description pgnText)).

(** [getMainline]: a copy of the sequence. *)
Definition getMainline (moves : list MoveNode) : list MoveNode :=
  fold_left (fun line move => line ++ [move]) moves [].

(** [getMoveAtIndex]; [None] is [null]. *)
Definition getMoveAtIndex (moves : list MoveNode) (index : Z) : option MoveNode :=
  if bool_decide (0 ≤ index)%Z && bool_decide (index < Z.of_nat (length moves))%Z
  then moves !! Z.to_nat index
  else None.

(** [nagToSymbol]: the table of display symbols by code, the symbols
    outside ASCII by their code unit; a code that is not in the table, and
    [NaN], give the empty string. *)
Definition nagSymbols : list (N * jsstring) :=
  [(1, str "!"); (2, str "?"); (3, str "!!"); (4, str "??"); (5, str "!?"); (6, str "?!");
   (7, [9633]); (10, str "="); (13, [8734]); (14, [10866]); (15, [10865]); (16, [177]);
   (17, [8723]); (18, str "+-"); (19, str "-+"); (22, [10752]); (32, [10227]);
   (36, [8594]); (40, [8593]); (132, [8646]); (138, [8853])].

Definition nagToSymbol (nag : option number) : jsstring :=
  match nag with
  | Some (Finite n) => default [] (snd <$> find (fun kv => fst kv =? n) nagSymbols)
  | _ => []
  end.

(** The values of the move tokens of a token list, in order, and the moves
    of a node with those of its variations, in the order of the text: the
    move, then each variation in turn. *)
Definition move_values (tokens : list token) : list jsstring :=
  omap (fun t => match t with TMove value => Some value | _ => None end) tokens.

Fixpoint played (node : MoveNode) : list jsstring :=
  san node :: concat (map (fun variation => concat (map played variation)) (variations node)).

Definition played_all (nodes : list MoveNode) : list jsstring := concat (map played nodes).

(** White space squeezed: every run of white space becomes one space;
    [inRun] tells that the character before was white space.  [tidy] is
    the shape of the result. *)
Fixpoint squeeze (inRun : bool) (s : jsstring) : jsstring :=
  match s with
  | [] => []
  | c :: s' =>
      if is_space c then (if inRun then squeeze true s' else 32 :: squeeze true s')
      else c :: squeeze false s'
  end.

Fixpoint tidy (inRun : bool) (s : jsstring) : Prop :=
  match s with
  | [] => True
  | c :: s' =>
      if is_space c then c = 32 ∧ inRun = false ∧ tidy true s'
      else tidy false s'
  end.

(** A pattern that starts with an opening bracket: it matches nowhere in
    a text without one. *)
Definition needs_bracket (re : regex) : Prop :=
  ∀ c s', c ≠ ch "[" → match_prefix re (c :: s') = None.

(** A header line as it is written: the tag, a space, the value in
    quotes, all in brackets. *)
Definition header_line (tag value : jsstring) : jsstring :=
  ch "[" :: tag ++ ch " " :: quote_char :: value ++ [quote_char; ch "]"].

(** The colours of [_mapColor]. *)
Definition palette : list jsstring :=
  [str "#e74c3c"; str "#2ecc71"; str "#3498db"; str "#f1c40f"; str "#1abc9c"; str "#9b59b6"].

End PGNParser.

(** ** The rules engine

    The chess rules engine (chess.js) is an external collaborator.  It is a
    parameter of the trainer: a type of positions, the start position, the
    reading of a position string given in a game header, and the two ways
    to attempt a move, by SAN and by squares, each giving the move made and
    the position after it, or nothing when the engine rejects the move (the
    [null] of chess.js).  A snapshot taken with [fen()] is kept as the
    position it describes, and [load] of a snapshot puts that position
    back: the round trip through the text of the snapshot is the identity
    of the engine and is not modelled. *)

Set Implicit Arguments.

Record MoveResult (Position : Type) := mkMoveResult {
  mr_san : jsstring;
  mr_from : jsstring;
  mr_to : jsstring;
  mr_captured : bool;
  mr_after : Position }.

Record RulesEngine (Position : Type) := mkRulesEngine {
  start_position : Position;
  read_fen : jsstring -> option Position;
  move_san : Position -> jsstring -> option (MoveResult Position);
  move_squares : Position -> jsstring -> jsstring -> jsstring -> option (MoveResult Position) }.

(** ** The trainer *)

Section Trainer.

Variable Position : Type.
Variable engine : RulesEngine Position.

(** The [Chess] object: the current position and the positions before the
    moves made since the last load, which [undo] goes back through. *)
Record Chess := mkChess { position : Position; history : list Position }.

Definition chess_reset : Chess := mkChess (start_position engine) [].

(** [chess.load(fen)] of a header string: a rejected string leaves the
    object as it is. *)
Definition chess_load_header (fen : jsstring) (c : Chess) : Chess :=
  match read_fen engine fen with
  | Some p => mkChess p []
  | None => c
  end.

(** [chess.fen()] and [chess.load] of such a snapshot. *)
Definition chess_fen (c : Chess) : Position := position c.
Definition chess_load (snapshot : Position) : Chess := mkChess snapshot [].

Definition chess_apply (r : option (MoveResult Position)) (c : Chess) : Chess :=
  match r with
  | Some m => mkChess (mr_after m) (position c :: history c)
  | None => c
  end.

Definition chess_undo (c : Chess) : Chess :=
  match history c with
  | p :: h => mkChess p h
  | [] => c
  end.

(** A saved context of [moveStack]. *)
Record Frame := mkFrame {
  fr_moves : list MoveNode;
  fr_moveIndex : nat;
  fr_chessFen : Position;
  fr_pendingVariations : list (list MoveNode);
  fr_variationsDone : bool;
  fr_playerVariation : bool }.

(** [_playerVariationRestore]. *)
Record Restore := mkRestore {
  rs_chessFen : Position;
  rs_moves : list MoveNode;
  rs_moveIndex : nat }.

Record Attempt := mkAttempt {
  at_puzzleIndex : Z;
  at_correct : bool;
  at_timeMs : Z;
  at_mistakes : nat }.

(** The callbacks handed to [setTimeout], one constructor per closure of
    the source. *)
Inductive Task :=
| TkProcessNext
| TkOpponentMove (moveNode : MoveNode)
| TkNextVariation (saved : Frame)
| TkRestoreMainline (saved : Frame)
| TkYourTurn
| TkAutoPlayStep (variationMoves : list MoveNode) (index : nat)
| TkRestorePlayerVariation.

Inductive Status :=
| your_turn (moveIndex : nat) (isVariation : bool)
| entering_variation (totalVariations : nat) (variationNumber : Z)
| exiting_variation
| return_to_mainline
| incorrect (mistakes : nat)
| player_bad_variation
| player_good_variation.

(** What the trainer reports through its callbacks, taken as installed.
    [correct] is set in the report of a move of the player.  Drawing on
    the board, the sounds and the feedback flash have no part in the
    traversal and are left out. *)
Inductive Event :=
| PuzzleStart (puzzleIndex : Z) (totalPuzzles : nat) (playerColor : jsstring)
| StatusChange (status : Status)
| MoveCompleted (san from to : jsstring) (moveIndex : nat) (correct : bool)
| PuzzleComplete (attempt : Attempt) (totalAttempts totalSolved : nat) (isPartial : bool)
| SessionComplete (reason : jsstring) (duration : Z) (attempts : list Attempt).

(** The trainer's fields, the [interactive] flag of its board, and its
    environment: the clock [now] ([Date.now()]), the pending [timers]
    (delay and callback, in the order they were set) and the [events]
    reported so far. *)
Record Trainer := mkTrainer {
  chess : Chess;
  puzzles : list Game;
  currentPuzzleIndex : Z;
  currentMoves : list MoveNode;
  moveIndex : nat;
  playerColor : jsstring;
  mistakes : nat;
  puzzleStartTime : Z;
  isActive : bool;
  isPaused : bool;
  moveStack : list Frame;
  _variationsDone : bool;
  isInVariation : bool;
  _playerVariationRestore : option Restore;
  _isAutoPlaying : bool;
  sessionAttempts : list Attempt;
  sessionStartTime : Z;
  interactive : bool;
  now : Z;
  timers : list (nat * Task);
  events : list Event }.

(** Assignments to the fields, one function per field. *)
Definition set_chess (v : Chess) (t : Trainer) : Trainer :=
  mkTrainer v (puzzles t) (currentPuzzleIndex t) (currentMoves t) (moveIndex t)
    (playerColor t) (mistakes t) (puzzleStartTime t) (isActive t) (isPaused t)
    (moveStack t) (_variationsDone t) (isInVariation t) (_playerVariationRestore t)
    (_isAutoPlaying t) (sessionAttempts t) (sessionStartTime t) (interactive t) (now t)
    (timers t) (events t).
Definition set_puzzles (v : list Game) (t : Trainer) : Trainer :=
  mkTrainer (chess t) v (currentPuzzleIndex t) (currentMoves t) (moveIndex t)
    (playerColor t) (mistakes t) (puzzleStartTime t) (isActive t) (isPaused t)
    (moveStack t) (_variationsDone t) (isInVariation t) (_playerVariationRestore t)
    (_isAutoPlaying t) (sessionAttempts t) (sessionStartTime t) (interactive t) (now t)
    (timers t) (events t).
Definition set_currentPuzzleIndex (v : Z) (t : Trainer) : Trainer :=
  mkTrainer (chess t) (puzzles t) v (currentMoves t) (moveIndex t) (playerColor t)
    (mistakes t) (puzzleStartTime t) (isActive t) (isPaused t) (moveStack t)
    (_variationsDone t) (isInVariation t) (_playerVariationRestore t) (_isAutoPlaying t)
    (sessionAttempts t) (sessionStartTime t) (interactive t) (now t) (timers t)
    (events t).
Definition set_currentMoves (v : list MoveNode) (t : Trainer) : Trainer :=
  mkTrainer (chess t) (puzzles t) (currentPuzzleIndex t) v (moveIndex t) (playerColor t)
    (mistakes t) (puzzleStartTime t) (isActive t) (isPaused t) (moveStack t)
    (_variationsDone t) (isInVariation t) (_playerVariationRestore t) (_isAutoPlaying t)
    (sessionAttempts t) (sessionStartTime t) (interactive t) (now t) (timers t)
    (events t).
Definition set_moveIndex (v : nat) (t : Trainer) : Trainer :=
  mkTrainer (chess t) (puzzles t) (currentPuzzleIndex t) (currentMoves t) v
    (playerColor t) (mistakes t) (puzzleStartTime t) (isActive t) (isPaused t)
    (moveStack t) (_variationsDone t) (isInVariation t) (_playerVariationRestore t)
    (_isAutoPlaying t) (sessionAttempts t) (sessionStartTime t) (interactive t) (now t)
    (timers t) (events t).
Definition set_playerColor (v : jsstring) (t : Trainer) : Trainer :=
  mkTrainer (chess t) (puzzles t) (currentPuzzleIndex t) (currentMoves t) (moveIndex t)
    v (mistakes t) (puzzleStartTime t) (isActive t) (isPaused t) (moveStack t)
    (_variationsDone t) (isInVariation t) (_playerVariationRestore t) (_isAutoPlaying t)
    (sessionAttempts t) (sessionStartTime t) (interactive t) (now t) (timers t)
    (events t).
Definition set_mistakes (v : nat) (t : Trainer) : Trainer :=
  mkTrainer (chess t) (puzzles t) (currentPuzzleIndex t) (currentMoves t) (moveIndex t)
    (playerColor t) v (puzzleStartTime t) (isActive t) (isPaused t) (moveStack t)
    (_variationsDone t) (isInVariation t) (_playerVariationRestore t) (_isAutoPlaying t)
    (sessionAttempts t) (sessionStartTime t) (interactive t) (now t) (timers t)
    (events t).
Definition set_puzzleStartTime (v : Z) (t : Trainer) : Trainer :=
  mkTrainer (chess t) (puzzles t) (currentPuzzleIndex t) (currentMoves t) (moveIndex t)
    (playerColor t) (mistakes t) v (isActive t) (isPaused t) (moveStack t)
    (_variationsDone t) (isInVariation t) (_playerVariationRestore t) (_isAutoPlaying t)
    (sessionAttempts t) (sessionStartTime t) (interactive t) (now t) (timers t)
    (events t).
Definition set_isActive (v : bool) (t : Trainer) : Trainer :=
  mkTrainer (chess t) (puzzles t) (currentPuzzleIndex t) (currentMoves t) (moveIndex t)
    (playerColor t) (mistakes t) (puzzleStartTime t) v (isPaused t) (moveStack t)
    (_variationsDone t) (isInVariation t) (_playerVariationRestore t) (_isAutoPlaying t)
    (sessionAttempts t) (sessionStartTime t) (interactive t) (now t) (timers t)
    (events t).
Definition set_isPaused (v : bool) (t : Trainer) : Trainer :=
  mkTrainer (chess t) (puzzles t) (currentPuzzleIndex t) (currentMoves t) (moveIndex t)
    (playerColor t) (mistakes t) (puzzleStartTime t) (isActive t) v (moveStack t)
    (_variationsDone t) (isInVariation t) (_playerVariationRestore t) (_isAutoPlaying t)
    (sessionAttempts t) (sessionStartTime t) (interactive t) (now t) (timers t)
    (events t).
Definition set_moveStack (v : list Frame) (t : Trainer) : Trainer :=
  mkTrainer (chess t) (puzzles t) (currentPuzzleIndex t) (currentMoves t) (moveIndex t)
    (playerColor t) (mistakes t) (puzzleStartTime t) (isActive t) (isPaused t) v
    (_variationsDone t) (isInVariation t) (_playerVariationRestore t) (_isAutoPlaying t)
    (sessionAttempts t) (sessionStartTime t) (interactive t) (now t) (timers t)
    (events t).
Definition set_variationsDone (v : bool) (t : Trainer) : Trainer :=
  mkTrainer (chess t) (puzzles t) (currentPuzzleIndex t) (currentMoves t) (moveIndex t)
    (playerColor t) (mistakes t) (puzzleStartTime t) (isActive t) (isPaused t)
    (moveStack t) v (isInVariation t) (_playerVariationRestore t) (_isAutoPlaying t)
    (sessionAttempts t) (sessionStartTime t) (interactive t) (now t) (timers t)
    (events t).
Definition set_isInVariation (v : bool) (t : Trainer) : Trainer :=
  mkTrainer (chess t) (puzzles t) (currentPuzzleIndex t) (currentMoves t) (moveIndex t)
    (playerColor t) (mistakes t) (puzzleStartTime t) (isActive t) (isPaused t)
    (moveStack t) (_variationsDone t) v (_playerVariationRestore t) (_isAutoPlaying t)
    (sessionAttempts t) (sessionStartTime t) (interactive t) (now t) (timers t)
    (events t).
Definition set_playerVariationRestore (v : option Restore) (t : Trainer) : Trainer :=
  mkTrainer (chess t) (puzzles t) (currentPuzzleIndex t) (currentMoves t) (moveIndex t)
    (playerColor t) (mistakes t) (puzzleStartTime t) (isActive t) (isPaused t)
    (moveStack t) (_variationsDone t) (isInVariation t) v (_isAutoPlaying t)
    (sessionAttempts t) (sessionStartTime t) (interactive t) (now t) (timers t)
    (events t).
Definition set_isAutoPlaying (v : bool) (t : Trainer) : Trainer :=
  mkTrainer (chess t) (puzzles t) (currentPuzzleIndex t) (currentMoves t) (moveIndex t)
    (playerColor t) (mistakes t) (puzzleStartTime t) (isActive t) (isPaused t)
    (moveStack t) (_variationsDone t) (isInVariation t) (_playerVariationRestore t) v
    (sessionAttempts t) (sessionStartTime t) (interactive t) (now t) (timers t)
    (events t).
Definition set_sessionAttempts (v : list Attempt) (t : Trainer) : Trainer :=
  mkTrainer (chess t) (puzzles t) (currentPuzzleIndex t) (currentMoves t) (moveIndex t)
    (playerColor t) (mistakes t) (puzzleStartTime t) (isActive t) (isPaused t)
    (moveStack t) (_variationsDone t) (isInVariation t) (_playerVariationRestore t)
    (_isAutoPlaying t) v (sessionStartTime t) (interactive t) (now t) (timers t)
    (events t).
Definition set_sessionStartTime (v : Z) (t : Trainer) : Trainer :=
  mkTrainer (chess t) (puzzles t) (currentPuzzleIndex t) (currentMoves t) (moveIndex t)
    (playerColor t) (mistakes t) (puzzleStartTime t) (isActive t) (isPaused t)
    (moveStack t) (_variationsDone t) (isInVariation t) (_playerVariationRestore t)
    (_isAutoPlaying t) (sessionAttempts t) v (interactive t) (now t) (timers t)
    (events t).
Definition set_interactive (v : bool) (t : Trainer) : Trainer :=
  mkTrainer (chess t) (puzzles t) (currentPuzzleIndex t) (currentMoves t) (moveIndex t)
    (playerColor t) (mistakes t) (puzzleStartTime t) (isActive t) (isPaused t)
    (moveStack t) (_variationsDone t) (isInVariation t) (_playerVariationRestore t)
    (_isAutoPlaying t) (sessionAttempts t) (sessionStartTime t) v (now t) (timers t)
    (events t).
Definition set_now (v : Z) (t : Trainer) : Trainer :=
  mkTrainer (chess t) (puzzles t) (currentPuzzleIndex t) (currentMoves t) (moveIndex t)
    (playerColor t) (mistakes t) (puzzleStartTime t) (isActive t) (isPaused t)
    (moveStack t) (_variationsDone t) (isInVariation t) (_playerVariationRestore t)
    (_isAutoPlaying t) (sessionAttempts t) (sessionStartTime t) (interactive t) v
    (timers t) (events t).
Definition set_timers (v : list (nat * Task)) (t : Trainer) : Trainer :=
  mkTrainer (chess t) (puzzles t) (currentPuzzleIndex t) (currentMoves t) (moveIndex t)
    (playerColor t) (mistakes t) (puzzleStartTime t) (isActive t) (isPaused t)
    (moveStack t) (_variationsDone t) (isInVariation t) (_playerVariationRestore t)
    (_isAutoPlaying t) (sessionAttempts t) (sessionStartTime t) (interactive t) (now t)
    v (events t).
Definition set_events (v : list Event) (t : Trainer) : Trainer :=
  mkTrainer (chess t) (puzzles t) (currentPuzzleIndex t) (currentMoves t) (moveIndex t)
    (playerColor t) (mistakes t) (puzzleStartTime t) (isActive t) (isPaused t)
    (moveStack t) (_variationsDone t) (isInVariation t) (_playerVariationRestore t)
    (_isAutoPlaying t) (sessionAttempts t) (sessionStartTime t) (interactive t) (now t)
    (timers t) v.

Definition emit (e : Event) (t : Trainer) : Trainer := set_events (events t ++ [e]) t.
Definition onStatusChange (s : Status) : Trainer -> Trainer := emit (StatusChange s).
Definition setTimeout (task : Task) (delay : nat) (t : Trainer) : Trainer :=
  set_timers (timers t ++ [(delay, task)]) t.

(** The delays of the source, in milliseconds. *)
Definition OPPONENT_DELAY : nat := 300.
Definition ENTER_DELAY : nat := 800.
Definition EXIT_DELAY : nat := 1000.
Definition RETURN_DELAY : nat := 2000.
Definition BAD_LINE_DELAY : nat := 2000.

(** [SESSION_DURATION], in seconds. *)
Definition SESSION_DURATION : Z := 10 * 60.

Definition _isPlayerTurn (t : Trainer) (moveNode : MoveNode) : bool :=
  if jsstring_eqb (playerColor t) (str "w") then isWhite moveNode else negb (isWhite moveNode).

Definition _normalizeSan (s : jsstring) : jsstring :=
  trim (filter (fun c => negb (char_in (str "+#!?") c)) s).

Definition solved_count (attempts : list Attempt) : nat :=
  length (filter (fun a => at_correct a = true) attempts).

Definition _completePuzzle (t : Trainer) : Trainer :=
  let timeMs := (now t - puzzleStartTime t)%Z in
  let correct := bool_decide (mistakes t = 0%nat) in
  let attempt := mkAttempt (currentPuzzleIndex t) correct timeMs (mistakes t) in
  let t := set_sessionAttempts (sessionAttempts t ++ [attempt]) t in
  emit (PuzzleComplete attempt (length (sessionAttempts t))
          (solved_count (sessionAttempts t)) false) t.

Definition _executeMove (moveNode : MoveNode) (t : Trainer) : Trainer :=
  let r := move_san engine (position (chess t)) (san moveNode) in
  let t := set_chess (chess_apply r (chess t)) t in
  match r with
  | Some m => emit (MoveCompleted (mr_san m) (mr_from m) (mr_to m) (moveIndex t) false) t
  | None => t
  end.

Definition _startVariationExploration (moveNode : MoveNode) (t : Trainer) : Trainer :=
  let savedFen := chess_fen (chess t) in
  match variations moveNode with
  | [] => t  (* not reached: the caller checks that there are variations *)
  | firstVariation :: pendingVariations =>
      let t := set_moveStack
                 (mkFrame (currentMoves t) (moveIndex t) savedFen pendingVariations true false
                    :: moveStack t) t in
      let t := set_currentMoves firstVariation t in
      let t := set_moveIndex 0%nat t in
      let t := set_isInVariation true t in
      let t := set_chess (chess_load savedFen) t in
      let t := onStatusChange
                 (entering_variation (length (variations moveNode)) 1) t in
      setTimeout TkProcessNext ENTER_DELAY t
  end.

(** [_exitVariation]; the top of [moveStack] is the head of the list. *)
Definition _exitVariation (t : Trainer) : Trainer :=
  match moveStack t with
  | [] => _completePuzzle t
  | saved :: stack =>
      let t := set_moveStack stack t in
      if bool_decide (0 < length (fr_pendingVariations saved))%nat then
        setTimeout (TkNextVariation saved) EXIT_DELAY t
      else if fr_playerVariation saved then
        let t := set_currentMoves (fr_moves saved) t in
        let t := set_moveIndex (fr_moveIndex saved) t in
        let t := set_variationsDone false t in
        let t := set_isInVariation (bool_decide (0 < length (moveStack t))%nat) t in
        let t := set_chess (chess_load (fr_chessFen saved)) t in
        let t := onStatusChange return_to_mainline t in
        setTimeout TkYourTurn RETURN_DELAY t
      else
        setTimeout (TkRestoreMainline saved) EXIT_DELAY t
  end.

(** The end of [_processNextMove]: the flag is reset, an opponent move is
    scheduled, a player move is waited for. *)
Definition play_or_wait (moveNode : MoveNode) (t : Trainer) : Trainer :=
  let t := set_variationsDone false t in
  if negb (_isPlayerTurn t moveNode) then
    setTimeout (TkOpponentMove moveNode) OPPONENT_DELAY t
  else
    let t := set_interactive true t in
    onStatusChange (your_turn (moveIndex t) (isInVariation t)) t.

Definition _processNextMove (t : Trainer) : Trainer :=
  match currentMoves t !! moveIndex t with
  | None =>
      if bool_decide (0 < length (moveStack t))%nat then _exitVariation t
      else _completePuzzle t
  | Some moveNode =>
      if bool_decide (0 < length (variations moveNode))%nat && negb (_variationsDone t)
      then
        if negb (_isPlayerTurn t moveNode)
        then _startVariationExploration moveNode (set_variationsDone true t)
        else play_or_wait moveNode t
      else play_or_wait moveNode t
  end.

(** [_findMatchingPlayerVariation]: the first variation whose first move
    normalizes to the attempt. *)
Record MatchedVariation := mkMatched {
  mv_variation : list MoveNode;
  mv_isBad : bool;
  mv_firstMove : MoveNode }.

Definition nags_include (n : N) (node : MoveNode) : bool :=
  existsb (fun v => bool_decide (v = Some (Finite n))) (nags node).

Fixpoint find_variation (vars : list (list MoveNode)) (normalizedAttempt : jsstring)
    : option MatchedVariation :=
  match vars with
  | [] => None
  | variation :: vars' =>
      match variation with
      | [] => find_variation vars' normalizedAttempt
      | firstMove :: _ =>
          if jsstring_eqb (_normalizeSan (san firstMove)) normalizedAttempt
          then Some (mkMatched variation
                       (nags_include 2 firstMove || nags_include 4 firstMove) firstMove)
          else find_variation vars' normalizedAttempt
      end
  end.

Definition _findMatchingPlayerVariation (expectedMove : MoveNode)
    (normalizedAttempt : jsstring) : option MatchedVariation :=
  find_variation (variations expectedMove) normalizedAttempt.

Definition _autoPlayBadVariation (variationMoves : list MoveNode) (index : nat)
    (t : Trainer) : Trainer :=
  if negb (isActive t) then set_isAutoPlaying false t
  else if bool_decide (length variationMoves ≤ index)%nat then
    let t := set_isAutoPlaying false t in
    let t := onStatusChange return_to_mainline t in
    setTimeout TkRestorePlayerVariation RETURN_DELAY t
  else
    let t := set_isAutoPlaying true t in
    setTimeout (TkAutoPlayStep variationMoves index) BAD_LINE_DELAY t.

Definition _handlePlayerVariation (matchedVar : MatchedVariation)
    (fenBeforeMove : Position) (t : Trainer) : Trainer :=
  let t := set_interactive false t in
  if mv_isBad matchedVar then
    let t := set_mistakes (S (mistakes t)) t in
    let t := onStatusChange player_bad_variation t in
    let t := set_playerVariationRestore
               (Some (mkRestore fenBeforeMove (currentMoves t) (moveIndex t))) t in
    _autoPlayBadVariation (mv_variation matchedVar) 1 t
  else
    let t := onStatusChange player_good_variation t in
    let t := set_moveStack
               (mkFrame (currentMoves t) (moveIndex t) fenBeforeMove [] false true
                  :: moveStack t) t in
    let t := set_currentMoves (mv_variation matchedVar) t in
    let t := set_moveIndex 1%nat t in
    let t := set_isInVariation true t in
    setTimeout TkProcessNext ENTER_DELAY t.

(** [promotion || 'q'] *)
Definition promotion_or_queen (promotion : option jsstring) : jsstring :=
  match promotion with
  | Some (c :: p) => c :: p
  | _ => str "q"
  end.

Definition _handlePlayerMove (from to : jsstring) (promotion : option jsstring)
    (t : Trainer) : Trainer :=
  if negb (isActive t) then t
  else
    match currentMoves t !! moveIndex t with
    | None => t
    | Some expectedMove =>
        let fenBeforeMove := chess_fen (chess t) in
        match move_squares engine (position (chess t)) from to (promotion_or_queen promotion) with
        | None => t  (* Invalid move *)
        | Some attemptResult =>
            let t := set_chess (chess_apply (Some attemptResult) (chess t)) t in
            let normalizedAttempt := _normalizeSan (mr_san attemptResult) in
            let normalizedExpected := _normalizeSan (san expectedMove) in
            if jsstring_eqb normalizedAttempt normalizedExpected then
              let t := emit (MoveCompleted (mr_san attemptResult) from to (moveIndex t) true) t in
              let t := set_moveIndex (S (moveIndex t)) t in
              setTimeout TkProcessNext OPPONENT_DELAY t
            else
              match _findMatchingPlayerVariation expectedMove normalizedAttempt with
              | Some matchedVar => _handlePlayerVariation matchedVar fenBeforeMove t
              | None =>
                  let t := set_chess (chess_undo (chess t)) t in
                  let t := set_mistakes (S (mistakes t)) t in
                  onStatusChange (incorrect (mistakes t)) t
              end
        end
    end.

Definition _restoreFromPlayerVariation (t : Trainer) : Trainer :=
  match _playerVariationRestore t with
  | None => t
  | Some saved =>
      let t := set_playerVariationRestore None t in
      if negb (isActive t) then t
      else
        let t := set_currentMoves (rs_moves saved) t in
        let t := set_moveIndex (rs_moveIndex saved) t in
        let t := set_isInVariation (bool_decide (0 < length (moveStack t))%nat) t in
        let t := set_chess (chess_load (rs_chessFen saved)) t in
        let t := set_interactive true t in
        onStatusChange (your_turn (moveIndex t) (isInVariation t)) t
  end.

(** The body of each callback. *)
Definition run_task (task : Task) (t : Trainer) : Trainer :=
  match task with
  | TkProcessNext => _processNextMove t
  | TkOpponentMove moveNode =>
      let t := _executeMove moveNode t in
      let t := set_moveIndex (S (moveIndex t)) t in
      _processNextMove t
  | TkNextVariation saved =>
      match fr_pendingVariations saved, fr_moves saved !! fr_moveIndex saved with
      | nextVariation :: pending, Some branch =>
          let totalVariations := length (variations branch) in
          let variationNumber := (Z.of_nat totalVariations - Z.of_nat (length pending))%Z in
          let t := set_moveStack
                     (mkFrame (fr_moves saved) (fr_moveIndex saved) (fr_chessFen saved)
                        pending true false :: moveStack t) t in
          let t := set_currentMoves nextVariation t in
          let t := set_moveIndex 0%nat t in
          let t := set_isInVariation true t in
          let t := set_chess (chess_load (fr_chessFen saved)) t in
          let t := onStatusChange (entering_variation totalVariations variationNumber) t in
          setTimeout TkProcessNext EXIT_DELAY t
      | _, _ => t  (* not reached: scheduled with a pending variation of a branch node *)
      end
  | TkRestoreMainline saved =>
      let t := set_currentMoves (fr_moves saved) t in
      let t := set_moveIndex (fr_moveIndex saved) t in
      let t := set_variationsDone (fr_variationsDone saved) t in
      let t := set_isInVariation (bool_decide (0 < length (moveStack t))%nat) t in
      let t := set_chess (chess_load (fr_chessFen saved)) t in
      let t := onStatusChange exiting_variation t in
      setTimeout TkProcessNext EXIT_DELAY t
  | TkYourTurn =>
      let t := set_interactive true t in
      onStatusChange (your_turn (moveIndex t) (isInVariation t)) t
  | TkAutoPlayStep variationMoves index =>
      if negb (isActive t) then set_isAutoPlaying false t
      else
        let t := match variationMoves !! index with
                 | Some moveNode => _executeMove moveNode t
                 | None => t  (* not reached: scheduled with an index in range *)
                 end in
        _autoPlayBadVariation variationMoves (S index) t
  | TkRestorePlayerVariation => _restoreFromPlayerVariation t
  end.

(** The [k]-th pending timer expires: it is removed and its callback runs.
    Any pending timer may be the next to expire. *)
Definition fire (k : nat) (t : Trainer) : Trainer :=
  match timers t !! k with
  | Some (_, task) => run_task task (set_timers (delete k (timers t)) t)
  | None => t
  end.

(** [board.onMove], as the constructor installs it. *)
Definition board_onMove (from to : jsstring) (promotion : option jsstring)
    (t : Trainer) : Trainer :=
  if isActive t && negb (isPaused t) && negb (_isAutoPlaying t)
  then _handlePlayerMove from to promotion t
  else t.

(** [game.fen || (game.headers && game.headers['FEN'])], when truthy. *)
Definition game_fen (game : Game) : option jsstring :=
  match fen game with
  | Some (c :: f) => Some (c :: f)
  | _ => match headers game !! str "FEN" with
         | Some (c :: f) => Some (c :: f)
         | _ => None
         end
  end.

(** [fen.split(' ')[1] || 'w'] *)
Definition fen_active_color (f : jsstring) : jsstring :=
  match split_on (ch " ") f !! 1%nat with
  | Some (c :: col) => c :: col
  | _ => str "w"
  end.

Definition startPuzzle (puzzleIndex : Z) (t : Trainer) : Trainer :=
  if bool_decide (puzzleIndex < 0)%Z then t
  else
    match puzzles t !! Z.to_nat puzzleIndex with
    | None => t
    | Some game =>
        let t := set_currentPuzzleIndex puzzleIndex t in
        let t := set_mistakes 0%nat t in
        let t := set_puzzleStartTime (now t) t in
        let t := set_currentMoves (PGNParser.getMainline (moves game)) t in
        let t := set_chess chess_reset t in
        let t := match game_fen game with
                 | Some f => set_chess (chess_load_header f (chess t)) t
                 | None => t
                 end in
        let t := set_playerColor
                   (match game_fen game, currentMoves t with
                    | Some f, _ => fen_active_color f
                    | None, first :: _ => if isWhite first then str "w" else str "b"
                    | None, [] => str "w"
                    end) t in
        let t := set_moveIndex 0%nat t in
        let t := set_isActive true t in
        let t := set_moveStack [] t in
        let t := set_variationsDone false t in
        let t := set_isInVariation false t in
        let t := set_playerVariationRestore None t in
        let t := set_isAutoPlaying false t in
        let t := emit (PuzzleStart puzzleIndex (length (puzzles t)) (playerColor t)) t in
        _processNextMove t
    end.

(** The trainer as the constructor leaves it, and [loadPuzzles]. *)
Definition constructor : Trainer :=
  mkTrainer chess_reset [] (-1) [] 0 (str "w") 0 0 false false [] false false None false
    [] 0 true 0 [] [].

Definition loadPuzzles (games : list Game) (t : Trainer) : Trainer := set_puzzles games t.

Definition togglePause (t : Trainer) : Trainer := set_isPaused (negb (isPaused t)) t.

(** [endSession]: a puzzle in progress is recorded as a partial, failed
    attempt; the session is no longer active. *)
Definition endSession (reason : jsstring) (t : Trainer) : Trainer :=
  let t :=
    if bool_decide (0 ≤ currentPuzzleIndex t)%Z && bool_decide (0 < puzzleStartTime t)%Z
       && bool_decide (0 < moveIndex t)%nat
       && negb (existsb (fun a => bool_decide (at_puzzleIndex a = currentPuzzleIndex t))
                  (sessionAttempts t))
    then
      let attempt := mkAttempt (currentPuzzleIndex t) false
                       (now t - puzzleStartTime t)%Z (mistakes t) in
      let t := set_sessionAttempts (sessionAttempts t ++ [attempt]) t in
      emit (PuzzleComplete attempt (length (sessionAttempts t))
              (solved_count (sessionAttempts t)) true) t
    else t in
  let t := set_isActive false t in
  let duration := ((now t - sessionStartTime t) `div` 1000)%Z in
  emit (SessionComplete reason (duration `min` SESSION_DURATION)%Z (sessionAttempts t)) t.

(** What can happen to a trainer during a puzzle: the board reports a
    move, a timer expires, the session is paused, resumed or ended, time
    passes. *)
Inductive Input :=
| BoardMove (from to : jsstring) (promotion : option jsstring)
| TimerFires (k : nat)
| TogglePause
| EndSession (reason : jsstring)
| ClockAdvance (dt : Z).

Definition step (i : Input) (t : Trainer) : Trainer :=
  match i with
  | BoardMove from to promotion => board_onMove from to promotion t
  | TimerFires k => fire k t
  | TogglePause => togglePause t
  | EndSession reason => endSession reason t
  | ClockAdvance dt => set_now (now t + dt)%Z t
  end.

Definition run (inputs : list Input) (t : Trainer) : Trainer :=
  fold_left (fun t i => step i t) inputs t.

(** The states of a puzzle: [startPuzzle], for a puzzle there is, on a
    trainer with no timer pending, then any inputs. *)
Inductive reachable : Trainer -> Prop :=
| reachable_start t0 puzzleIndex :
    timers t0 = [] -> (0 ≤ puzzleIndex)%Z ->
    is_Some (puzzles t0 !! Z.to_nat puzzleIndex) ->
    reachable (startPuzzle puzzleIndex t0)
| reachable_step t i :
    reachable t -> reachable (step i t).

(** The timer set last expires. *)
Definition fire_last (t : Trainer) : Trainer := fire (pred (length (timers t))) t.


(** The trainer after [n] steps of the playback of a bad line from
    [index], the timers left aside. *)
Fixpoint playback (variationMoves : list MoveNode) (index n : nat) (t : Trainer) : Trainer :=
  match n, variationMoves !! index with
  | S n', Some moveNode =>
      playback variationMoves (S index) n' (_executeMove moveNode (set_isAutoPlaying true t))
  | _, _ => t
  end.

(** A callback of [_exitVariation] is pending: a frame has been popped
    and the sequence it saved is not yet restored. *)
Definition is_exit_task (task : Task) : bool :=
  match task with
  | TkNextVariation _ | TkRestoreMainline _ => true
  | _ => false
  end.

Definition exit_pending (t : Trainer) : bool :=
  existsb (fun timer => is_exit_task (snd timer)) (timers t).

(** What becomes of a move reported by the board. *)
Inductive Outcome := Ignored | Exact | BadLine | GoodLine | Wrong.

Definition attempt_outcome (from to : jsstring) (promotion : option jsstring)
    (t : Trainer) : Outcome :=
  if isActive t && negb (isPaused t) && negb (_isAutoPlaying t) then
    match currentMoves t !! moveIndex t,
          move_squares engine (position (chess t)) from to (promotion_or_queen promotion) with
    | Some expectedMove, Some attemptResult =>
        let normalizedAttempt := _normalizeSan (mr_san attemptResult) in
        if jsstring_eqb normalizedAttempt (_normalizeSan (san expectedMove)) then Exact
        else match _findMatchingPlayerVariation expectedMove normalizedAttempt with
             | Some matchedVar => if mv_isBad matchedVar then BadLine else GoodLine
             | None => Wrong
             end
    | _, _ => Ignored
    end
  else Ignored.

(** The outcomes of the moves the board reports in a run, and the
    mistakes among them: the wrong moves and the bad lines. *)
Definition is_mistake (o : Outcome) : bool :=
  match o with
  | BadLine | Wrong => true
  | _ => false
  end.

Definition input_outcome (i : Input) (t : Trainer) : list Outcome :=
  match i with
  | BoardMove from to promotion => [attempt_outcome from to promotion t]
  | _ => []
  end.

Fixpoint outcomes (inputs : list Input) (t : Trainer) : list Outcome :=
  match inputs with
  | [] => []
  | i :: inputs' => input_outcome i t ++ outcomes inputs' (step i t)
  end.

Definition count_mistakes (os : list Outcome) : nat :=
  length (filter (fun o => is_mistake o = true) os).

(** The events an input adds. *)
Definition new_events (i : Input) (t : Trainer) : list Event :=
  drop (length (events t)) (events (step i t)).

(** [_isPlayerTurn], by the colour of the player. *)
Definition player_side (color : jsstring) (moveNode : MoveNode) : bool :=
  if jsstring_eqb color (str "w") then isWhite moveNode else negb (isWhite moveNode).

(** A well-formed frame: one the player opened, with no variation left to
    explore, or one of an explored branch point, a move of the side that is
    not the player's. *)
Definition frame_ok (color : jsstring) (frame : Frame) : Prop :=
  (fr_playerVariation frame = true ∧ fr_pendingVariations frame = [])
  ∨ (fr_playerVariation frame = false
     ∧ ∃ branch, fr_moves frame !! fr_moveIndex frame = Some branch
         ∧ player_side color branch = false).

Definition task_ok (color : jsstring) (task : Task) : Prop :=
  match task with
  | TkNextVariation saved => frame_ok color saved ∧ fr_pendingVariations saved ≠ []
  | TkRestoreMainline saved => frame_ok color saved
  | _ => True
  end.

(** The invariant of the traversal: the frames on the stack and in the
    pending callbacks are well formed, and [isInVariation] tells whether
    the stack is non-empty unless a callback of [_exitVariation] is
    pending. *)
Definition traversal_invariant (t : Trainer) : Prop :=
  Forall (frame_ok (playerColor t)) (moveStack t)
  ∧ Forall (fun timer => task_ok (playerColor t) (snd timer)) (timers t)
  ∧ (exit_pending t = false →
     isInVariation t = bool_decide (0 < length (moveStack t))%nat).

(** [getNextPuzzleIndex]: the loop from [i] with [n] puzzles still to look
    at; [solvedIndices] is the set it is given. *)
Fixpoint next_unsolved (solvedIndices : gset nat) (i n : nat) : Z :=
  match n with
  | O => (-1)%Z
  | S n' =>
      if bool_decide (i ∈ solvedIndices) then next_unsolved solvedIndices (S i) n'
      else Z.of_nat i
  end.

Definition getNextPuzzleIndex (solvedIndices : gset nat) (t : Trainer) : Z :=
  next_unsolved solvedIndices 0 (length (puzzles t)).

(** [reset]: the fields are put back; the interval of the session timer
    is cleared, the callbacks handed to [setTimeout] are not. *)
Definition reset (t : Trainer) : Trainer :=
  let t := set_isActive false t in
  let t := set_isPaused false t in
  let t := set_currentPuzzleIndex (-1) t in
  let t := set_currentMoves [] t in
  let t := set_moveIndex 0%nat t in
  let t := set_mistakes 0%nat t in
  let t := set_sessionAttempts [] t in
  let t := set_moveStack [] t in
  let t := set_variationsDone false t in
  let t := set_isInVariation false t in
  let t := set_playerVariationRestore None t in
  let t := set_isAutoPlaying false t in
  set_chess chess_reset t.

(** The session timer: the trainer with [remainingSeconds], whether the
    interval of [startTimer] is set, and the values handed to
    [onTimerUpdate]. *)
Record Session := mkSession {
  trainer : Trainer;
  remainingSeconds : Z;
  timerInterval : bool;
  timerUpdates : list Z }.

Definition startTimer (s : Session) : Session :=
  mkSession (set_sessionStartTime (now (trainer s)) (trainer s)) SESSION_DURATION true
    (timerUpdates s).

(** [endSession] and [reset] with the interval they clear. *)
Definition session_end (reason : jsstring) (s : Session) : Session :=
  mkSession (endSession reason (trainer s)) (remainingSeconds s) false (timerUpdates s).

Definition session_reset (s : Session) : Session :=
  mkSession (reset (trainer s)) (remainingSeconds s) false (timerUpdates s).

(** The callback of the interval, every second while the interval is set. *)
Definition timer_tick (s : Session) : Session :=
  if negb (timerInterval s) then s
  else if isPaused (trainer s) then s
  else
    let elapsed := ((now (trainer s) - sessionStartTime (trainer s)) `div` 1000)%Z in
    let remaining := (0 `max` (SESSION_DURATION - elapsed))%Z in
    let s := mkSession (trainer s) remaining (timerInterval s)
               (timerUpdates s ++ [remaining]) in
    if bool_decide (remaining ≤ 0)%Z then session_end (str "timeout") s else s.

(** [getElapsedTime]: zero while no session was started. *)
Definition getElapsedTime (t : Trainer) : Z :=
  if bool_decide (sessionStartTime t = 0)%Z then 0%Z
  else ((now t - sessionStartTime t) `div` 1000)%Z.

(** An input to the trainer of a session; [endSession] clears the
    interval. *)
Definition on_trainer (f : Trainer -> Trainer) (s : Session) : Session :=
  mkSession (f (trainer s)) (remainingSeconds s) (timerInterval s) (timerUpdates s).

Definition session_step (i : Input) (s : Session) : Session :=
  match i with
  | EndSession reason => session_end reason s
  | _ => on_trainer (step i) s
  end.

(** A callback of the playback of a bad line. *)
Definition is_playback_task (task : Task) : bool :=
  match task with
  | TkAutoPlayStep _ _ | TkRestorePlayerVariation => true
  | _ => false
  end.

(** What stays as it is from [t] to [t'] during a puzzle: the colour of
    the player, the puzzles, the index and the start time of the puzzle;
    the attempts added are attempts at that puzzle. *)
Definition keeps_puzzle (t t' : Trainer) : Prop :=
  playerColor t' = playerColor t
  ∧ puzzles t' = puzzles t
  ∧ currentPuzzleIndex t' = currentPuzzleIndex t
  ∧ puzzleStartTime t' = puzzleStartTime t
  ∧ ∃ new, sessionAttempts t' = sessionAttempts t ++ new
      ∧ Forall (fun a => at_puzzleIndex a = currentPuzzleIndex t) new.

(** The counter of the variations.  A frame with variations still to
    explore belongs to a branch move, and the variations pending are the
    last of that move, after those taken, of which there is one at least.
    An [entering_variation] report is in range when its number is between
    one and the total. *)
Definition frame_counted (frame : Frame) : Prop :=
  fr_pendingVariations frame = []
  ∨ ∃ branch taken, fr_moves frame !! fr_moveIndex frame = Some branch
      ∧ variations branch = taken ++ fr_pendingVariations frame
      ∧ taken ≠ [].

Definition task_counted (task : Task) : Prop :=
  match task with
  | TkNextVariation saved | TkRestoreMainline saved => frame_counted saved
  | _ => True
  end.

Definition counter_invariant (t : Trainer) : Prop :=
  Forall frame_counted (moveStack t)
  ∧ Forall (fun timer => task_counted (snd timer)) (timers t).

Definition event_counted (e : Event) : Prop :=
  match e with
  | StatusChange (entering_variation totalVariations variationNumber) =>
      (1 ≤ variationNumber ≤ Z.of_nat totalVariations)%Z
  | _ => True
  end.

Definition counted (t t' : Trainer) : Prop :=
  counter_invariant t'
  ∧ ∃ new, events t' = events t ++ new ∧ Forall event_counted new.

End Trainer.

Unset Implicit Arguments.

(** ** A rules engine for examples

    A position is the list of the moves made, the last one first.  Any
    non-empty SAN is accepted; a move by squares is named by its target, as
    a pawn move is, and is rejected when it goes nowhere. *)

Definition toy_move (p : list jsstring) (from to : jsstring) : MoveResult (list jsstring) :=
  mkMoveResult to from to false (to :: p).

Definition toy_engine : RulesEngine (list jsstring) :=
  mkRulesEngine []
    (fun _ => None)
    (fun p s => if bool_decide (s = []) then None else Some (toy_move p [] s))
    (fun p from to _ => if bool_decide (from = to) then None else Some (toy_move p from to)).

Definition game_of (text : string) : Game :=
  mkGame ∅ (str "White") (str "Black") (str "*") [] None [] (PGNParser._parseMoves (str text)).

Definition toy_start (text : string) : Trainer (list jsstring) :=
  startPuzzle toy_engine 0 (loadPuzzles [game_of text] (constructor toy_engine)).

Definition pawn (from to : string) : Input := BoardMove (str from) (str to) None.

(** Scenario B of the specification, with White as the player: the
    trainer after the player's first move, then in the variation of the
    reply, then, the variation played out, in the pause before the main
    line is restored. *)
Definition scenario_B : string :=
  "1. Rxd7 Kxd7 (1... Rxb4+? 2. Bxb4 Kxd7 3. Kb5) 2. Kxb5 *".

Definition first_timer : Input := TimerFires 0.

Definition toy_after_first_move : Trainer (list jsstring) :=
  step toy_engine (pawn "d7" "Rxd7") (toy_start scenario_B).

Definition toy_in_variation : Trainer (list jsstring) :=
  step toy_engine first_timer toy_after_first_move.

Definition toy_variation_inputs : list Input :=
  [first_timer; first_timer; pawn "c3" "Bxb4"; first_timer; first_timer;
   pawn "a4" "Kb5"; first_timer].

Definition toy_exit_pause : Trainer (list jsstring) :=
  run toy_engine toy_variation_inputs toy_in_variation.

(** Scenario D: the player answers with the first move of a variation
    without a bad code, comes back and plays the expected move. *)
Definition scenario_D : string := "1. e4 (1. d4) *".

Definition inputs_D : list Input :=
  [pawn "d2" "d4"; first_timer; first_timer; pawn "e2" "e4"].

(** A bad line: the first move of the variation carries code 2. *)
Definition scenario_bad : string := "1. e4 (1. d4? d5 2. c4) e5 *".

(** Scenario A, and a game whose variation starts with a move that has a
    variation of its own. *)
Definition scenario_A : string := "1. e4 e5 2. Nf3 *".

Definition inputs_A : list Input :=
  [pawn "e2" "e4"; first_timer; first_timer; pawn "g1" "Nf3"; first_timer].

Definition scenario_nested : string := "1. e4 e5 (1... c5 (1... e6) 2. Nf3) 2. Nf3 *".

(** A game text with a header and a result marker, and nothing else. *)
Definition result_only_game : jsstring :=
  str "[Event " ++ [quote_char] ++ str "x" ++ [quote_char] ++ str "]"
    ++ [newline_char; newline_char] ++ str "*".

Definition label (node : MoveNode) : number * bool := (moveNumber node, isWhite node).

(** * Properties *)

(** ** The matcher *)

Lemma rmatch_min_len r : ∀ s m, m ∈ rmatch r s → (min_len r ≤ length (matched m))%nat.
Proof.
  induction r as [|p|r1 IH1 r2 IH2|r1 IH1 r2 IH2|r IH|p|r IH]; intros s m Hm; simpl in *.
  - lia.
  - destruct s as [|c s']; [by apply elem_of_nil in Hm|].
    destruct (p c); [|by apply elem_of_nil in Hm].
    apply list_elem_of_singleton in Hm. by subst.
  - apply list_elem_of_bind in Hm as (m1 & Hm & Hm1).
    apply list_elem_of_bind in Hm as (m2 & Hm & Hm2).
    apply list_elem_of_singleton in Hm. subst m. simpl.
    rewrite length_app. apply IH1 in Hm1. apply IH2 in Hm2. lia.
  - apply elem_of_app in Hm as [Hm|Hm]; [apply IH1 in Hm|apply IH2 in Hm]; lia.
  - lia.
  - lia.
  - apply list_elem_of_fmap in Hm as (m' & -> & Hm'). simpl. by apply IH in Hm'.
Qed.

Lemma match_prefix_min_len r s m :
  match_prefix r s = Some m → (min_len r ≤ length (matched m))%nat.
Proof.
  unfold match_prefix. intros Hm. apply (rmatch_min_len r s).
  destruct (rmatch r s) as [|m' l]; simplify_eq/=. apply list_elem_of_here.
Qed.

Lemma match_prefix_group r s m :
  match_prefix (RGroup r) s = Some m → PGNParser.group1 m = matched m.
Proof.
  unfold match_prefix. simpl. destruct (rmatch r s) as [|m' l]; intros; by simplify_eq/=.
Qed.

(** ** The tokenizer *)

Section Tokenizer.
Import PGNParser.

Lemma scan_comment_suffix s : ∀ depth body rest,
  scan_comment depth s = (body, rest) → rest `suffix_of` s.
Proof.
  induction s as [|c s IH]; intros depth body rest; simpl.
  - intros ?; simplify_eq. by exists [].
  - destruct (comment_depth depth c) as [|d].
    + intros ?; simplify_eq. by exists [c].
    + destruct (scan_comment (S d) s) as [b r] eqn:Hs. intros ?; simplify_eq.
      apply suffix_cons_r. by eapply IH.
Qed.

Lemma drop_suffix_tail {A} (c : A) (s : list A) n :
  (1 ≤ n)%nat → drop n (c :: s) `suffix_of` s.
Proof. destruct n; [lia|]. intros _. simpl. apply suffix_drop. Qed.

(** Each iteration leaves a suffix of the text after the current
    character: the cursor moves right by at least one. *)
Lemma scan_token_suffix c s' tok rest :
  scan_token c s' = (tok, rest) → rest `suffix_of` s'.
Proof.
  unfold scan_token.
  destruct (is_space c); [by intros ?; simplify_eq|].
  destruct (c =? ch "{").
  { destruct (scan_comment 1 s') as [b r] eqn:Hs. intros ?; simplify_eq.
    by eapply scan_comment_suffix. }
  destruct (c =? ch "("); [by intros ?; simplify_eq|].
  destruct (c =? ch ")"); [by intros ?; simplify_eq|].
  destruct (c =? ch "$"); [intros ?; simplify_eq; apply suffix_drop|].
  destruct (match_prefix result_re (c :: s')) as [m|] eqn:Hr.
  { intros ?; simplify_eq. apply drop_suffix_tail.
    rewrite (match_prefix_group _ _ _ Hr). by apply match_prefix_min_len in Hr. }
  destruct (match_prefix move_number_re (c :: s')) as [m|] eqn:Hn.
  { intros ?; simplify_eq. apply drop_suffix_tail.
    apply match_prefix_min_len in Hn. simpl in Hn. lia. }
  destruct (match_prefix san_re (c :: s')) as [m|] eqn:Hm.
  { intros ?; simplify_eq. apply drop_suffix_tail.
    rewrite (match_prefix_group _ _ _ Hm). apply match_prefix_min_len in Hm.
    simpl in Hm. lia. }
  destruct (match_prefix annotation_re (c :: s')) as [m|] eqn:Ha.
  { intros ?; simplify_eq. apply drop_suffix_tail.
    rewrite (match_prefix_group _ _ _ Ha). by apply match_prefix_min_len in Ha. }
  by intros ?; simplify_eq.
Qed.

Lemma scan_token_shorter c s' tok rest :
  scan_token c s' = (tok, rest) → (length rest ≤ length s')%nat.
Proof. intros H. apply scan_token_suffix in H. by apply suffix_length. Qed.

Lemma tokenize_loop_total fuel : ∀ s, (length s ≤ fuel)%nat →
  ∃ tokens, tokenize_loop fuel s = Some tokens ∧ (length tokens ≤ length s)%nat.
Proof.
  induction fuel as [|fuel IH]; intros [|c s'] Hlen; simpl in *; try lia;
    try (exists []; split; [done|simpl; lia]).
  destruct (scan_token c s') as [tok rest] eqn:Hs.
  pose proof (scan_token_shorter _ _ _ _ Hs) as Hr.
  destruct (IH rest) as (tokens & -> & Hn); [lia|]. simpl.
  eexists; split; [done|]. destruct tok; simpl; lia.
Qed.

Lemma tokenize_loop_fuel f1 : ∀ f2 s, (length s ≤ f1)%nat → (length s ≤ f2)%nat →
  tokenize_loop f1 s = tokenize_loop f2 s.
Proof.
  induction f1 as [|f1 IH]; intros f2 [|c s'] H1 H2; simpl in *; try lia;
    destruct f2 as [|f2]; simpl in *; try lia; try done.
  destruct (scan_token c s') as [tok rest] eqn:Hs.
  pose proof (scan_token_shorter _ _ _ _ Hs) as Hr.
  rewrite (IH f2 rest); [done|lia..].
Qed.

Lemma scan_token_unrecognized c s' :
  unrecognized c s' = true → scan_token c s' = (None, s').
Proof.
  unfold unrecognized.
  replace (char_in (str "{()$") c)
    with ((c =? ch "{") || ((c =? ch "(") || ((c =? ch ")") || ((c =? ch "$") || false))))
    by reflexivity.
  rewrite !andb_true_iff, !negb_true_iff, !orb_false_iff, !bool_decide_eq_true.
  intros [[[[[Hsp (Hb & Hl & Hr & Hd & _)] H1] H2] H3] H4].
  unfold scan_token. by rewrite Hsp, Hb, Hl, Hr, Hd, H1, H2, H3, H4.
Qed.

End Tokenizer.

(** C8: whatever the text, the tokenizer stops after one pass from left to
    right and gives a list of tokens, without an error: the fuel of the
    length of the text is enough (and more fuel changes nothing), there
    are at most as many tokens as characters, every iteration leaves a
    suffix of the text after the current character, and a character no
    rule applies to is passed over without a token. *)
Theorem tokenize_terminates (text : jsstring) :
  ∃ tokens, PGNParser._tokenize text = Some tokens
    ∧ (length tokens ≤ length text)%nat
    ∧ (∀ fuel, (length text ≤ fuel)%nat → PGNParser.tokenize_loop fuel text = Some tokens)
    ∧ (∀ c s' tok rest, PGNParser.scan_token c s' = (tok, rest) → rest `suffix_of` s')
    ∧ (∀ c s' fuel, PGNParser.unrecognized c s' = true →
         PGNParser.scan_token c s' = (None, s')
         ∧ PGNParser.tokenize_loop (S fuel) (c :: s') = PGNParser.tokenize_loop fuel s').
Proof.
  destruct (tokenize_loop_total (length text) text) as (tokens & Ht & Hn); [done|].
  exists tokens. split_and!; [done|done| | |].
  - intros fuel Hf. rewrite <- Ht. by apply tokenize_loop_fuel.
  - apply scan_token_suffix.
  - intros c s' fuel Hu. apply scan_token_unrecognized in Hu. split; [done|].
    simpl. rewrite Hu. by destruct (PGNParser.tokenize_loop fuel s').
Qed.

(** Malformed input: an unmatched brace, a dollar sign without digits,
    characters that cannot be scanned. *)
Example tokenize_unmatched_brace :
  PGNParser._tokenize (str "e4 {abc") = Some [PGNParser.TMove (str "e4"); PGNParser.TComment (str "ab")].
Proof. reflexivity. Qed.

Example tokenize_dollar_without_digits :
  PGNParser._tokenize (str "$ e4 $7")
  = Some [PGNParser.TNag None; PGNParser.TMove (str "e4");
          PGNParser.TNag (Some (Finite 7))].
Proof. reflexivity. Qed.

Example tokenize_unscannable :
  PGNParser._tokenize (str "~e4 # %x") = Some [PGNParser.TMove (str "e4")].
Proof. reflexivity. Qed.

(** ** The tree builder *)

Section TreeBuilder.
Import PGNParser.

Lemma skeleton_merge_comment node value : skeleton (merge_comment node value) = skeleton node.
Proof. done. Qed.

Lemma skeleton_attach_to_last moves value :
  skeleton <$> attach_to_last moves value = skeleton <$> moves.
Proof.
  unfold attach_to_last. destruct moves as [|x l _] using rev_ind; [done|].
  rewrite reverse_snoc, reverse_involutive. by rewrite !fmap_app.
Qed.

Lemma collect_annotations_spec tokens : ∀ node node' rest,
  collect_annotations node tokens = (node', rest) →
  san node' = san node ∧ moveNumber node' = moveNumber node ∧ isWhite node' = isWhite node
  ∧ variations node' = variations node
  ∧ (length rest ≤ length tokens)%nat
  ∧ ∀ vars tokens', branches rest vars tokens' → branches tokens vars tokens'.
Proof.
  induction tokens as [|t tokens IH]; intros node node' rest Hc; simpl in Hc.
  { simplify_eq. split_and!; done. }
  destruct t; simplify_eq; try (split_and!; done).
  - apply IH in Hc as (? & ? & ? & ? & ? & Hb). split_and!; try done; [simpl; lia|].
    intros. by apply branches_skip, Hb.
  - apply IH in Hc as (? & ? & ? & ? & ? & Hb). split_and!; try done; [simpl; lia|].
    intros. by apply branches_skip, Hb.
Qed.

Lemma collect_comments_spec tokens : ∀ node node' rest,
  collect_comments node tokens = (node', rest) →
  san node' = san node ∧ moveNumber node' = moveNumber node ∧ isWhite node' = isWhite node
  ∧ variations node' = variations node
  ∧ (length rest ≤ length tokens)%nat
  ∧ ∀ vars tokens', branches rest vars tokens' → branches tokens vars tokens'.
Proof.
  induction tokens as [|t tokens IH]; intros node node' rest Hc; simpl in Hc.
  { simplify_eq. split_and!; done. }
  destruct t; simplify_eq; try (split_and!; done).
  apply IH in Hc as (? & ? & ? & ? & ? & Hb). split_and!; try done; [simpl; lia|].
  intros. by apply branches_skip, Hb.
Qed.

Lemma after_variation_length rest : (length (after_variation rest) ≤ length rest)%nat.
Proof. destruct rest as [|[] ?]; simpl; lia. Qed.








(** The builder returns: fuel of the number of tokens is enough. *)
Lemma loops_total fuel :
  (∀ acc number white tokens, (length tokens ≤ fuel)%nat →
     ∃ res rest, sequence_loop fuel acc number white tokens = Some (res, rest)
       ∧ (length rest ≤ length tokens)%nat)
  ∧ (∀ node tokens, (length tokens ≤ fuel)%nat →
     ∃ node' rest, variation_loop fuel node tokens = Some (node', rest)
       ∧ (length rest ≤ length tokens)%nat).
Proof.
  induction fuel as [|fuel [IHs IHv]].
  { split.
    - intros acc number white [|t tokens] Hl; simpl in *; [|lia]. by exists acc, [].
    - intros node [|t tokens] Hl; simpl in *; [|lia]. by exists node, []. }
  split.
  - intros acc number white [|t tokens] Hl; simpl in *; [by exists acc, []|].
    destruct t as [v| | |v|v|v b|v];
      try (edestruct IHs as (res & rest & -> & Hr); [|exists res, rest; split; [done|lia]]; lia).
    + eexists _, _. split; [done|]. simpl. lia.
    + destruct (collect_annotations (new_node v number white) tokens)
        as [node1 rest1] eqn:Hc.
      apply collect_annotations_spec in Hc as (_ & _ & _ & _ & Hl1 & _).
      destruct (IHv node1 rest1) as (node2 & rest2 & -> & Hl2); [lia|]. simpl.
      edestruct IHs as (res & rest & -> & Hr); [|exists res, rest; split; [done|lia]]. lia.
  - intros node [|t tokens] Hl; simpl in *; [by exists node, []|].
    destruct t; try (eexists _, _; split; [done|simpl; lia]).
    destruct (IHs [] (Finite 1) true tokens) as (variation & rest1 & -> & Hl1); [lia|].
    simpl.
    destruct (collect_comments (push_variation node variation) (after_variation rest1))
      as [node1 rest2] eqn:Hc.
    apply collect_comments_spec in Hc as (_ & _ & _ & _ & Hl2 & _).
    pose proof (after_variation_length rest1).
    edestruct IHv as (node' & rest & -> & Hr); [|exists node', rest; split; [done|lia]]. lia.
Qed.

End TreeBuilder.

Lemma numbered_first_move number white value tokens nodes rest :
  PGNParser.numbered number white (PGNParser.TMove value :: tokens) nodes rest →
  ∃ node nodes', nodes = node :: nodes' ∧ san node = value
    ∧ moveNumber node = Finite number ∧ isWhite node = white.
Proof. inversion 1; subst; [done|]. by eexists _, _. Qed.







Example numbering_main_line :
  label <$> PGNParser._parseMoves (str "1. e4 e5 Nf3 Nc6 7... a6 b4")
  = [(Finite 1, true); (Finite 1, false); (Finite 2, true); (Finite 2, false);
     (Finite 7, false); (Finite 8, true)].
Proof. reflexivity. Qed.

Example numbering_variation :
  map (fun node => (label node, map (map label) (variations node)))
    (PGNParser._parseMoves (str "1. e4 e5 (d5 exd5 (2. e5)) 2. Nf3"))
  = [((Finite 1, true), []);
     ((Finite 1, false), [[(Finite 1, true); (Finite 1, false)]]);
     ((Finite 2, true), [])].
Proof. reflexivity. Qed.

Example numbering_nested_variation :
  map (map label)
    (concat (map variations (concat (concat (map variations
       (PGNParser._parseMoves (str "1. e4 e5 (d5 exd5 (2. e5 d4)) 2. Nf3")))))))
  = [[(Finite 2, true); (Finite 2, false)]].
Proof. reflexivity. Qed.

(** [parseInt] gives doubles: exact below 2^53, the nearest even one
    above, [Infinity] for the number of 310 digits, [NaN] for no digit. *)
Example parseInt_values :
  parseInt (str "9007199254740991") = Some (Finite 9007199254740991)
  ∧ parseInt (str "9007199254740993") = Some (Finite 9007199254740992)
  ∧ parseInt (str "9007199254740995") = Some (Finite 9007199254740996)
  ∧ parseInt (repeat (ch "9") 310) = Some Infinity
  ∧ parseInt [] = None
  ∧ increment (Finite 9007199254740992) = Finite 9007199254740992.
Proof. split_and!; vm_compute; reflexivity. Qed.

(** ** Games *)

Lemma parseSingleGame_none gameText :
  PGNParser.parseSingleGame gameText = None
  ↔ trim (PGNParser._extractMoveText gameText) = [].
Proof.
  unfold PGNParser.parseSingleGame, PGNParser.is_empty.
  case_bool_decide as He; [done|].
  split; [|done]. by destruct (match_prefix _ _).
Qed.

(** C9, as the code has it: a block is dropped exactly when its move text,
    after the headers are taken out, is blank; every other block gives its
    record, with the moves read from that text, also when there are none;
    nothing is reported. *)
Theorem blank_game_dropped (pgnText : jsstring) :
  let blocks := PGNParser._splitGames (PGNParser.strip_description pgnText) in
  (∀ block, PGNParser.parseSingleGame block = None
            ↔ trim (PGNParser._extractMoveText block) = [])
  ∧ (∀ game, game ∈ PGNParser.parseMultipleGames pgnText
             ↔ ∃ block, block ∈ blocks ∧ PGNParser.parseSingleGame block = Some game)
  ∧ length (PGNParser.parseMultipleGames pgnText)
    = length (filter (fun block => trim (PGNParser._extractMoveText block) ≠ []) blocks).
Proof.
  intros blocks. split_and!.
  - apply parseSingleGame_none.
  - intros game. unfold PGNParser.parseMultipleGames. apply list_elem_of_omap.
  - unfold PGNParser.parseMultipleGames. fold blocks. clear.
    induction blocks as [|b bs IH]; [done|]. simpl.
    rewrite filter_cons. destruct (PGNParser.parseSingleGame b) eqn:Hb.
    + rewrite decide_True; [simpl; f_equal; exact IH|].
      intros He. apply parseSingleGame_none in He. congruence.
    + rewrite decide_False; [exact IH|].
      intros He. apply He. by apply parseSingleGame_none.
Qed.


(** C9 as stated fails: a block with a header and only a result marker has
    move text, yields no move, and still gives a game record. *)
Lemma result_only_game_kept :
  PGNParser._splitGames (PGNParser.strip_description result_only_game) = [result_only_game]
  ∧ PGNParser._extractMoveText result_only_game = str "*"
  ∧ PGNParser._parseMoves (str "*") = []
  ∧ (fun game => (headers game !! str "Event", moves game))
      <$> PGNParser.parseMultipleGames result_only_game
    = [(Some (str "x"), [])].
Proof. split_and!; vm_compute; reflexivity. Qed.

(** ** The trainer *)

Section TrainerProperties.

Variable Position : Type.
Variable engine : RulesEngine Position.
Implicit Types (t : Trainer Position) (frame saved : Frame Position) (i : Input).

Ltac unfold_trainer :=
  unfold step, fire, run_task, board_onMove, togglePause, endSession,
    _handlePlayerMove, _handlePlayerVariation, _autoPlayBadVariation,
    _restoreFromPlayerVariation, _processNextMove, play_or_wait, _exitVariation,
    _startVariationExploration, _completePuzzle, _executeMove, onStatusChange,
    emit, setTimeout in *.

(** *** The invariant of the traversal *)

Lemma existsb_snoc {A} (p : A → bool) l x : existsb p (l ++ [x]) = existsb p l || p x.
Proof. rewrite existsb_app. simpl. by rewrite orb_false_r. Qed.

Lemma existsb_delete {A} (p : A → bool) (l : list A) k x :
  l !! k = Some x → p x = false → existsb p (delete k l) = existsb p l.
Proof.
  revert k. induction l as [|y l IH]; intros [|k] Hk Hp; simplify_eq/=; [by rewrite Hp|].
  by rewrite (IH k).
Qed.

Lemma player_side_turn t moveNode :
  _isPlayerTurn t moveNode = player_side (playerColor t) moveNode.
Proof. done. Qed.

Ltac inv_split :=
  repeat match goal with
  | |- Forall _ (_ ++ [_]) => apply Forall_app; split; [|apply Forall_cons; split; [|constructor]]
  | |- Forall _ (_ :: _) => apply Forall_cons; split
  | |- _ ∧ _ => split
  end.

Ltac inv_hyps :=
  repeat match goal with
  | Hs : Forall _ (_ :: _) |- _ => apply Forall_cons in Hs; destruct Hs
  | H : _ ∧ _ |- _ => destruct H
  | H : bool_decide _ = true |- _ => apply bool_decide_eq_true in H
  | H : bool_decide _ = false |- _ => apply bool_decide_eq_false in H
  | H : negb _ = true |- _ => apply negb_true_iff in H
  | H : negb _ = false |- _ => apply negb_false_iff in H
  end.

Ltac inv_cases :=
  unfold_trainer;
  repeat case_match; simpl in *; rewrite ?existsb_snoc; simpl;
  rewrite ?orb_false_r, ?orb_true_r;
  inv_hyps; inv_split; simpl in *; inv_split; try done.

Lemma invariant_processNext t :
  traversal_invariant t → traversal_invariant (_processNextMove t).
Proof.
  unfold traversal_invariant, exit_pending. intros (Hs & Ht & Hf).
  inv_cases.
  - right. split; [done|]. eexists; split; [done|]. by rewrite <- player_side_turn.
  - intros He. rewrite He in *. simpl in *. lia.
  - intros ?. rewrite Hf by done. case_bool_decide; simpl in *; [lia|done].
Qed.

Lemma invariant_run_task task t :
  task_ok (playerColor t) task →
  (is_exit_task task = false → exit_pending t = false →
     isInVariation t = bool_decide (0 < length (moveStack t))%nat) →
  Forall (frame_ok (playerColor t)) (moveStack t) →
  Forall (fun timer => task_ok (playerColor t) (snd timer)) (timers t) →
  traversal_invariant (run_task engine task t).
Proof.
  intros Hk Hf Hs Ht. destruct task; simpl in Hk, Hf; try specialize (Hf eq_refl).
  - apply invariant_processNext. by split_and!.
  - unfold run_task. apply invariant_processNext. unfold traversal_invariant, exit_pending in *.
    unfold_trainer. case_match; simpl; by split_and!.
  - unfold traversal_invariant, exit_pending in *. inv_cases.
    + destruct H1 as [[_ Hp]|[_ Hb]]; [congruence|by right].
    + destruct H1 as [[_ Hp]|[_ (branch & Hb & _)]]; congruence.
  - unfold traversal_invariant, exit_pending in *. inv_cases.
  - unfold traversal_invariant, exit_pending in *. inv_cases.
  - unfold traversal_invariant, exit_pending in *. inv_cases.
  - unfold traversal_invariant, exit_pending in *. inv_cases.
Qed.

Lemma invariant_handlePlayerMove from to promotion t :
  traversal_invariant t → traversal_invariant (_handlePlayerMove engine from to promotion t).
Proof.
  unfold traversal_invariant, exit_pending. intros (Hs & Ht & Hf).
  inv_cases. by left.
Qed.

Lemma exit_pending_delete t k delay task :
  timers t !! k = Some (delay, task) → is_exit_task task = false →
  exit_pending (set_timers (delete k (timers t)) t) = exit_pending t.
Proof. intros Hk He. unfold exit_pending. simpl. by apply (existsb_delete _ _ _ _ Hk). Qed.

Lemma invariant_step i t : traversal_invariant t → traversal_invariant (step engine i t).
Proof.
  intros Hinv. destruct i as [from to promotion|k| |reason|dt]; simpl.
  - unfold board_onMove. case_match; [|done]. by apply invariant_handlePlayerMove.
  - unfold fire. destruct (timers t !! k) as [[delay task]|] eqn:Hk; [|done].
    destruct Hinv as (Hs & Ht & Hf).
    apply invariant_run_task; simpl.
    + by apply (Forall_lookup_1 _ _ _ _ Ht Hk).
    + intros He Hp. apply Hf. by rewrite <- (exit_pending_delete _ _ _ _ Hk He).
    + done.
    + by apply Forall_delete.
  - done.
  - destruct Hinv as (Hs & Ht & Hf). unfold traversal_invariant, exit_pending in *.
    unfold_trainer. by case_match.
  - done.
Qed.

Lemma invariant_startPuzzle puzzleIndex t :
  timers t = [] → (0 ≤ puzzleIndex)%Z → is_Some (puzzles t !! Z.to_nat puzzleIndex) →
  traversal_invariant (startPuzzle engine puzzleIndex t).
Proof.
  intros Ht Hi [game Hg]. unfold startPuzzle. rewrite bool_decide_eq_false_2 by lia.
  rewrite Hg. apply invariant_processNext. unfold traversal_invariant, exit_pending.
  destruct (game_fen game); simpl; rewrite Ht; by split_and!.
Qed.

Lemma reachable_invariant t : reachable engine t → traversal_invariant t.
Proof.
  induction 1 as [t0 puzzleIndex Ht Hi Hg|t i _ IH].
  - by apply invariant_startPuzzle.
  - by apply invariant_step.
Qed.

(** *** Entering variations *)

Lemma processNext_player_turn t moveNode :
  currentMoves t !! moveIndex t = Some moveNode → _isPlayerTurn t moveNode = true →
  _processNextMove t
  = onStatusChange (your_turn (moveIndex t) (isInVariation t))
      (set_interactive true (set_variationsDone false t)).
Proof.
  intros Hn Hp. unfold _processNextMove, play_or_wait. rewrite Hn.
  replace (_isPlayerTurn (set_variationsDone false t) moveNode) with true by done.
  rewrite Hp. simpl. by case_match.
Qed.

Lemma processNext_explores t moveNode first pending :
  currentMoves t !! moveIndex t = Some moveNode → _isPlayerTurn t moveNode = false →
  variations moveNode = first :: pending → _variationsDone t = false →
  _processNextMove t
  = setTimeout (TkProcessNext Position) ENTER_DELAY
      (onStatusChange (entering_variation (length (variations moveNode)) 1)
         (set_chess (chess_load (chess_fen (chess t)))
            (set_isInVariation true
               (set_moveIndex 0%nat
                  (set_currentMoves first
                     (set_moveStack
                        (mkFrame (currentMoves t) (moveIndex t) (chess_fen (chess t))
                           pending true false :: moveStack t)
                        (set_variationsDone true t))))))).
Proof.
  intros Hn Hp Hv Hd. unfold _processNextMove, _startVariationExploration.
  rewrite Hn, Hp, Hd, Hv. done.
Qed.

Ltac stack_length :=
  repeat match goal with
  | H : moveStack _ = _ |- _ => apply (f_equal length) in H; simpl in H
  | H : _ = moveStack _ |- _ => apply (f_equal length) in H; simpl in H
  end; lia.

Lemma player_frame_from_good_line t i frame :
  moveStack (step engine i t) = frame :: moveStack t → fr_playerVariation frame = true →
  ∃ from to promotion,
    i = BoardMove from to promotion ∧ attempt_outcome engine from to promotion t = GoodLine.
Proof.
  intros Hs Hp. destruct i as [from to promotion|k| |reason|dt]; simpl in Hs.
  - exists from, to, promotion. split; [done|]. revert Hs.
    unfold attempt_outcome. unfold_trainer.
    repeat case_match; simplify_eq/=; try done; intros Hs; stack_length.
  - exfalso. revert Hs. unfold_trainer.
    repeat case_match; simplify_eq/=; intros Hs; simplify_eq/=; stack_length.
  - exfalso. revert Hs. unfold_trainer. simpl. intros Hs. stack_length.
  - exfalso. revert Hs. unfold_trainer.
    repeat case_match; simplify_eq/=; intros Hs; simplify_eq/=; stack_length.
  - exfalso. stack_length.
Qed.

(** Exploration while the flag [_variationsDone] is clear: in every
    reachable state, the frames on the stack are those of explored branch
    points of the side that is not the player's, or frames the player
    opened; at a move of the player's side the engine enters nothing and
    waits, whatever variations the move has; at a move of the other side
    with variations and the flag clear it enters the first one, with no
    input; and a frame of the player is pushed only by a move of the board
    that is the first move of a variation of the expected move.  With the
    flag set the variations are passed over, whether they were explored
    or not. *)
Theorem exploration_only_at_opponent_moves t :
  reachable engine t →
  Forall (frame_ok (playerColor t)) (moveStack t)
  ∧ (∀ moveNode, currentMoves t !! moveIndex t = Some moveNode →
       if _isPlayerTurn t moveNode
       then _processNextMove t
            = onStatusChange (your_turn (moveIndex t) (isInVariation t))
                (set_interactive true (set_variationsDone false t))
       else ∀ first pending,
            variations moveNode = first :: pending → _variationsDone t = false →
            let t' := _processNextMove t in
            currentMoves t' = first ∧ moveIndex t' = 0%nat
            ∧ moveStack t'
              = mkFrame (currentMoves t) (moveIndex t) (position (chess t)) pending true false
                  :: moveStack t
            ∧ last (events t') = Some (StatusChange
                (entering_variation (length (variations moveNode)) 1)))
  ∧ (∀ i frame,
       moveStack (step engine i t) = frame :: moveStack t →
       fr_playerVariation frame = true →
       ∃ from to promotion,
         i = BoardMove from to promotion
         ∧ attempt_outcome engine from to promotion t = GoodLine).
Proof.
  intros Hr. split_and!.
  - by apply reachable_invariant.
  - intros moveNode Hn. destruct (_isPlayerTurn t moveNode) eqn:Hp.
    + by apply (processNext_player_turn _ moveNode).
    + intros first pending Hv Hd. simpl.
      rewrite (processNext_explores _ _ _ _ Hn Hp Hv Hd). simpl.
      split_and!; try done. by rewrite last_snoc.
  - apply player_frame_from_good_line.
Qed.

(** C10, as the code has it: in every reachable state where no callback
    of [_exitVariation] is pending, [isInVariation] is true exactly when
    the stack of contexts is not empty. *)
Theorem isInVariation_tells_stack t :
  reachable engine t → exit_pending t = false →
  isInVariation t = bool_decide (0 < length (moveStack t))%nat.
Proof. intros Hr. by apply reachable_invariant in Hr as (_ & _ & Hf). Qed.



(** *** The playback of a bad line *)

Lemma delete_last_snoc {A} (l : list A) x : delete (pred (length (l ++ [x]))) (l ++ [x]) = l.
Proof.
  induction l as [|y l IH]; [done|]. simpl in *.
  destruct (l ++ [x]) eqn:E; [by destruct l|]. simpl in *. by rewrite IH.
Qed.

Lemma lookup_last_snoc {A} (l : list A) x : (l ++ [x]) !! pred (length (l ++ [x])) = Some x.
Proof.
  induction l as [|y l IH]; [done|]. simpl in *.
  destruct (l ++ [x]) eqn:E; [by destruct l|]. done.
Qed.

Lemma set_timers_id t : set_timers (timers t) t = t.
Proof. by destruct t. Qed.

Lemma fire_last_setTimeout task delay t :
  fire_last engine (setTimeout task delay t) = run_task engine task t.
Proof.
  unfold fire_last, fire, setTimeout. simpl.
  rewrite lookup_last_snoc, delete_last_snoc. f_equal. by destruct t.
Qed.

Lemma executeMove_active moveNode t : isActive (_executeMove engine moveNode t) = isActive t.
Proof. unfold _executeMove. by case_match. Qed.

Lemma playback_active variationMoves : ∀ n index t,
  isActive (playback engine variationMoves index n t) = isActive t.
Proof.
  induction n as [|n IH]; intros index t; simpl; [done|].
  case_match; [|done]. by rewrite IH, executeMove_active.
Qed.

Lemma autoplay_steps variationMoves : ∀ n index t,
  isActive t = true → (index + n ≤ length variationMoves)%nat →
  Nat.iter n (fire_last engine) (_autoPlayBadVariation variationMoves index t)
  = _autoPlayBadVariation variationMoves (index + n)
      (playback engine variationMoves index n t).
Proof.
  induction n as [|n IH]; intros index t Ha Hl.
  { by rewrite Nat.add_0_r. }
  rewrite Nat.iter_succ_r.
  destruct (lookup_lt_is_Some_2 variationMoves index) as [moveNode Hn]; [lia|].
  assert (fire_last engine (_autoPlayBadVariation variationMoves index t)
          = _autoPlayBadVariation variationMoves (S index)
              (_executeMove engine moveNode (set_isAutoPlaying true t))) as ->.
  { unfold _autoPlayBadVariation at 1. rewrite Ha. simpl.
    rewrite bool_decide_eq_false_2 by lia. rewrite fire_last_setTimeout. simpl.
    by rewrite Ha, Hn. }
  rewrite IH; [|by rewrite executeMove_active|lia].
  simpl. rewrite Hn. f_equal. lia.
Qed.

Lemma playback_shape variationMoves : ∀ n index t,
  ∃ c a evs,
    playback engine variationMoves index n t
    = set_events evs (set_isAutoPlaying a (set_chess c t)).
Proof.
  induction n as [|n IH]; intros index t; simpl.
  { exists (chess t), (_isAutoPlaying t), (events t). by destruct t. }
  destruct (variationMoves !! index) as [moveNode|].
  - destruct (IH (S index) (_executeMove engine moveNode (set_isAutoPlaying true t)))
      as (c & a & evs & ->).
    exists c, a, evs. unfold _executeMove, emit. by case_match.
  - exists (chess t), (_isAutoPlaying t), (events t). by destruct t.
Qed.


Lemma find_variation_spec vars normalizedAttempt matchedVar :
  find_variation vars normalizedAttempt = Some matchedVar →
  ∃ before after rest,
    vars = before ++ mv_variation matchedVar :: after
    ∧ mv_variation matchedVar = mv_firstMove matchedVar :: rest
    ∧ _normalizeSan (san (mv_firstMove matchedVar)) = normalizedAttempt
    ∧ mv_isBad matchedVar
      = nags_include 2 (mv_firstMove matchedVar) || nags_include 4 (mv_firstMove matchedVar)
    ∧ Forall (fun variation =>
                ∀ firstMove, head variation = Some firstMove →
                  _normalizeSan (san firstMove) ≠ normalizedAttempt) before.
Proof.
  induction vars as [|variation vars IH]; simpl; [done|].
  destruct variation as [|firstMove rest].
  { intros Hf. destruct (IH Hf) as (before & after & rest & -> & ? & ? & ? & ?).
    exists ([] :: before), after, rest. split_and!; try done.
    apply Forall_cons. split; [by intros ? [=]|done]. }
  unfold jsstring_eqb. case_bool_decide as He.
  - intros [= <-]. exists [], vars, rest. simpl. split_and!; done.
  - intros Hf. destruct (IH Hf) as (before & after & rest' & -> & ? & ? & ? & ?).
    exists ((firstMove :: rest) :: before), after, rest'. split_and!; try done.
    apply Forall_cons. split; [|done]. intros ? [= <-]. done.
Qed.


(** The trainer after a move of the board that opens a bad line. *)
Lemma bad_line_start t from to promotion expectedMove attemptResult matchedVar :
  isActive t = true → isPaused t = false → _isAutoPlaying t = false →
  currentMoves t !! moveIndex t = Some expectedMove →
  move_squares engine (position (chess t)) from to (promotion_or_queen promotion)
    = Some attemptResult →
  _normalizeSan (mr_san attemptResult) ≠ _normalizeSan (san expectedMove) →
  _findMatchingPlayerVariation expectedMove (_normalizeSan (mr_san attemptResult))
    = Some matchedVar →
  mv_isBad matchedVar = true →
  step engine (BoardMove from to promotion) t
  = _autoPlayBadVariation (mv_variation matchedVar) 1
      (set_playerVariationRestore
         (Some (mkRestore (position (chess t)) (currentMoves t) (moveIndex t)))
         (onStatusChange player_bad_variation
            (set_mistakes (S (mistakes t))
               (set_interactive false
                  (set_chess (chess_apply (Some attemptResult) (chess t)) t))))).
Proof.
  intros Ha Hp Hap Hn Hm Hne Hf Hb. simpl.
  unfold board_onMove, _handlePlayerMove, _handlePlayerVariation.
  rewrite Ha, Hp, Hap, Hn, Hm. simpl.
  unfold jsstring_eqb. rewrite bool_decide_eq_false_2 by done.
  by rewrite Hf, Hb.
Qed.

Lemma good_line_start t from to promotion expectedMove attemptResult matchedVar :
  isActive t = true → isPaused t = false → _isAutoPlaying t = false →
  currentMoves t !! moveIndex t = Some expectedMove →
  move_squares engine (position (chess t)) from to (promotion_or_queen promotion)
    = Some attemptResult →
  _normalizeSan (mr_san attemptResult) ≠ _normalizeSan (san expectedMove) →
  _findMatchingPlayerVariation expectedMove (_normalizeSan (mr_san attemptResult))
    = Some matchedVar →
  mv_isBad matchedVar = false →
  step engine (BoardMove from to promotion) t
  = setTimeout (TkProcessNext Position) ENTER_DELAY
      (set_isInVariation true
         (set_moveIndex 1%nat
            (set_currentMoves (mv_variation matchedVar)
               (set_moveStack
                  (mkFrame (currentMoves t) (moveIndex t) (position (chess t)) [] false true
                     :: moveStack t)
                  (onStatusChange player_good_variation
                     (set_interactive false
                        (set_chess (chess_apply (Some attemptResult) (chess t)) t))))))).
Proof.
  intros Ha Hp Hap Hn Hm Hne Hf Hb. simpl.
  unfold board_onMove, _handlePlayerMove, _handlePlayerVariation.
  rewrite Ha, Hp, Hap, Hn, Hm. simpl.
  unfold jsstring_eqb. rewrite bool_decide_eq_false_2 by done.
  by rewrite Hf, Hb.
Qed.





(** C3: after a move of the board that opens a bad line, in a session that
    stays active, the timers of the playback and the timer of the restore
    leave the position, the sequence and the index as they were before the
    move, the board interactive at that index with [your_turn] reported,
    and the rest of the context (stack, flags, colour, the other timers)
    untouched; only the mistake is counted. *)
Theorem bad_line_restores
    t from to promotion expectedMove attemptResult matchedVar :
  isActive t = true → isPaused t = false → _isAutoPlaying t = false →
  currentMoves t !! moveIndex t = Some expectedMove →
  move_squares engine (position (chess t)) from to (promotion_or_queen promotion)
    = Some attemptResult →
  _normalizeSan (mr_san attemptResult) ≠ _normalizeSan (san expectedMove) →
  _findMatchingPlayerVariation expectedMove (_normalizeSan (mr_san attemptResult))
    = Some matchedVar →
  mv_isBad matchedVar = true →
  let t' := Nat.iter (length (mv_variation matchedVar)) (fire_last engine)
              (step engine (BoardMove from to promotion) t) in
  position (chess t') = position (chess t)
  ∧ currentMoves t' = currentMoves t
  ∧ moveIndex t' = moveIndex t
  ∧ interactive t' = true ∧ _isAutoPlaying t' = false ∧ isActive t' = true
  ∧ isPaused t' = false
  ∧ last (events t')
    = Some (StatusChange (your_turn (moveIndex t)
                            (bool_decide (0 < length (moveStack t))%nat)))
  ∧ moveStack t' = moveStack t
  ∧ _variationsDone t' = _variationsDone t
  ∧ isInVariation t' = bool_decide (0 < length (moveStack t))%nat
  ∧ playerColor t' = playerColor t
  ∧ timers t' = timers t
  ∧ _playerVariationRestore t' = None
  ∧ mistakes t' = S (mistakes t).
Proof.
  intros Ha Hp Hap Hn Hm Hne Hf Hbad.
  destruct (find_variation_spec _ _ _ Hf) as (_ & _ & rest & _ & Hr & _).
  rewrite (bad_line_start _ _ _ _ _ _ _ Ha Hp Hap Hn Hm Hne Hf Hbad).
  set (variation := mv_variation matchedVar) in *.
  set (u0 := set_playerVariationRestore _ _).
  assert (length variation = S (length rest)) as -> by (by rewrite Hr).
  simpl Nat.iter. rewrite autoplay_steps; [|done|rewrite Hr; simpl; lia].
  pose proof (playback_active variation (length rest) 1 u0) as Hact.
  destruct (playback_shape variation (length rest) 1 u0) as (c & a & evs & Hw).
  rewrite Hw in *. clear Hw.
  unfold _autoPlayBadVariation at 1.
  replace (isActive (set_events evs (set_isAutoPlaying a (set_chess c u0)))) with true by done.
  rewrite bool_decide_eq_true_2 by (rewrite Hr; simpl; lia).
  cbn [negb]. rewrite fire_last_setTimeout.
  simpl. unfold _restoreFromPlayerVariation. simpl. rewrite Ha. simpl.
  split_and!; try done. by rewrite last_snoc.
Qed.


(** *** Wrong and rejected moves *)

Lemma chess_undo_apply (r : MoveResult Position) (c : Chess Position) :
  chess_undo (chess_apply (Some r) c) = c.
Proof. by destruct c. Qed.

(** A move reported when the session is not active, or when the sequence
    is exhausted, changes nothing. *)
Lemma handlePlayerMove_precondition t from to promotion :
  isActive t = false ∨ currentMoves t !! moveIndex t = None →
  _handlePlayerMove engine from to promotion t = t.
Proof.
  unfold _handlePlayerMove. intros [->| ->]; [done|]. by case_match.
Qed.

(** C5, as the code has it: a legal move of the board that is neither the
    expected move nor the first move of one of its variations is undone
    (the engine is as before the attempt), counts one mistake and is
    reported as [incorrect], and nothing else changes, the index
    included; a move the engine rejects changes nothing at all: no
    mistake, no status. *)
Theorem wrong_move_reverted t from to promotion expectedMove :
  isActive t = true → isPaused t = false → _isAutoPlaying t = false →
  currentMoves t !! moveIndex t = Some expectedMove →
  let t' := step engine (BoardMove from to promotion) t in
  match move_squares engine (position (chess t)) from to (promotion_or_queen promotion) with
  | Some attemptResult =>
      _normalizeSan (mr_san attemptResult) ≠ _normalizeSan (san expectedMove) →
      _findMatchingPlayerVariation expectedMove (_normalizeSan (mr_san attemptResult))
        = None →
      t' = onStatusChange (incorrect (S (mistakes t))) (set_mistakes (S (mistakes t)) t)
      ∧ chess t' = chess t ∧ moveIndex t' = moveIndex t
      ∧ mistakes t' = S (mistakes t)
      ∧ events t' = events t ++ [StatusChange (incorrect (S (mistakes t)))]
  | None => t' = t
  end.
Proof.
  intros Ha Hp Hap Hn. simpl. unfold board_onMove, _handlePlayerMove.
  rewrite Ha, Hp, Hap, Hn. simpl.
  destruct (move_squares _ _ _ _ _) as [attemptResult|]; [|done].
  intros Hne Hf. unfold jsstring_eqb. rewrite bool_decide_eq_false_2 by done.
  rewrite Hf. clear. by destruct t as [[??] ????????????????????].
Qed.

(** *** Mistakes *)

Lemma count_mistakes_one o : count_mistakes [o] = if is_mistake o then 1%nat else 0%nat.
Proof. by destruct o. Qed.

Lemma count_mistakes_app os os' :
  count_mistakes (os ++ os') = (count_mistakes os + count_mistakes os')%nat.
Proof. unfold count_mistakes. by rewrite filter_app, length_app. Qed.

Lemma mistakes_step i t :
  mistakes (step engine i t)
  = (mistakes t + count_mistakes (input_outcome engine i t))%nat.
Proof.
  destruct i as [from to promotion|k| |reason|dt]; simpl;
    [rewrite count_mistakes_one|..]; try (unfold count_mistakes; simpl; lia).
  - unfold attempt_outcome. unfold_trainer.
    destruct (isActive t) eqn:?, (isPaused t) eqn:?, (_isAutoPlaying t) eqn:?; simpl;
      try lia;
      repeat match goal with
      | |- context [match ?x with _ => _ end] =>
          lazymatch x with
          | is_mistake _ => fail
          | _ => destruct x eqn:?
          end
      end; simpl; lia.
  - unfold count_mistakes. unfold_trainer. repeat case_match; simpl; lia.
  - unfold count_mistakes. unfold_trainer. repeat case_match; simpl; lia.
Qed.

Lemma mistakes_run inputs : ∀ t,
  mistakes (run engine inputs t)
  = (mistakes t + count_mistakes (outcomes engine inputs t))%nat.
Proof.
  induction inputs as [|i inputs IH]; intros t; simpl; [unfold count_mistakes; simpl; lia|].
  change (fold_left _ inputs (step engine i t)) with (run engine inputs (step engine i t)).
  rewrite IH, mistakes_step, count_mistakes_app. lia.
Qed.

Lemma count_mistakes_zero os :
  count_mistakes os = 0%nat ↔ Forall (fun o => o ≠ BadLine ∧ o ≠ Wrong) os.
Proof.
  unfold count_mistakes. induction os as [|o os IH]; [by split; [constructor|]|].
  rewrite filter_cons, Forall_cons, <- IH.
  destruct o; simpl; intuition (congruence || lia).
Qed.

Lemma mistakes_startPuzzle puzzleIndex t :
  (0 ≤ puzzleIndex)%Z → is_Some (puzzles t !! Z.to_nat puzzleIndex) →
  mistakes (startPuzzle engine puzzleIndex t) = 0%nat.
Proof.
  intros Hi [game Hg]. unfold startPuzzle. rewrite bool_decide_eq_false_2 by lia.
  rewrite Hg. destruct (game_fen game); unfold_trainer; repeat case_match; done.
Qed.

Ltac events_grow :=
  simpl; rewrite <- ?app_assoc; simpl;
  first [ eexists; split; [reflexivity|]
        | exists []; split; [by rewrite app_nil_r|] ];
  intros ??? Hin;
  repeat (apply elem_of_cons in Hin; destruct Hin as [Hin|Hin]; [by simplify_eq/=|]);
  by apply elem_of_nil in Hin.

Lemma step_events i t :
  ∃ new, events (step engine i t) = events t ++ new
    ∧ ∀ attempt n m, PuzzleComplete attempt n m false ∈ new →
        at_mistakes attempt = mistakes t
        ∧ at_correct attempt = bool_decide (mistakes t = 0%nat).
Proof.
  destruct i as [from to promotion|k| |reason|dt]; simpl.
  - unfold_trainer. repeat case_match; events_grow.
  - unfold_trainer. repeat case_match; events_grow.
  - events_grow.
  - unfold_trainer. repeat case_match; events_grow.
  - events_grow.
Qed.

Lemma startPuzzle_events puzzleIndex t :
  (0 ≤ puzzleIndex)%Z → is_Some (puzzles t !! Z.to_nat puzzleIndex) →
  ∃ new, events (startPuzzle engine puzzleIndex t) = events t ++ new
    ∧ ∀ attempt n m, PuzzleComplete attempt n m false ∈ new →
        at_mistakes attempt = 0%nat ∧ at_correct attempt = true.
Proof.
  intros Hi [game Hg]. unfold startPuzzle. rewrite bool_decide_eq_false_2 by lia.
  rewrite Hg. destruct (game_fen game); unfold_trainer; repeat case_match; events_grow.
Qed.

(** C4, as the code has it: the counter of mistakes is 0 when the puzzle
    starts; every input changes it by the number of mistakes among the
    outcomes of the input, which is 1 for a wrong move and for a bad line
    and 0 otherwise, so it never goes down; and the event of a completed
    puzzle carries the counter, and [correct] exactly when it is 0, that is
    when no move of the board was wrong or opened a bad line.  Moves that
    open a good line and moves the engine rejects are no mistakes. *)
Theorem mistakes_accounting t0 puzzleIndex inputs i :
  (0 ≤ puzzleIndex)%Z → is_Some (puzzles t0 !! Z.to_nat puzzleIndex) →
  let start := startPuzzle engine puzzleIndex t0 in
  let t := run engine inputs start in
  let made := count_mistakes (outcomes engine inputs start) in
  mistakes start = 0%nat
  ∧ mistakes t = made
  ∧ (made = 0%nat ↔ Forall (fun o => o ≠ BadLine ∧ o ≠ Wrong) (outcomes engine inputs start))
  ∧ mistakes (step engine i t) = (mistakes t + count_mistakes (input_outcome engine i t))%nat
  ∧ (∀ o, count_mistakes [o] = if is_mistake o then 1%nat else 0%nat)
  ∧ (∀ attempt n m,
       PuzzleComplete attempt n m false ∈ drop (length (events t0)) (events start) →
       at_mistakes attempt = 0%nat ∧ at_correct attempt = true)
  ∧ (∀ attempt n m, PuzzleComplete attempt n m false ∈ new_events engine i t →
       at_mistakes attempt = made ∧ at_correct attempt = bool_decide (made = 0%nat)).
Proof.
  intros Hi Hg start t made.
  assert (mistakes t = made) as Hm.
  { unfold t. rewrite mistakes_run. unfold start. by rewrite mistakes_startPuzzle. }
  split_and!.
  - by apply mistakes_startPuzzle.
  - done.
  - apply count_mistakes_zero.
  - apply mistakes_step.
  - apply count_mistakes_one.
  - intros attempt n m. unfold start.
    destruct (startPuzzle_events puzzleIndex t0 Hi Hg) as (new & -> & Hnew).
    rewrite drop_app_length. apply Hnew.
  - intros attempt n m. unfold new_events.
    destruct (step_events i t) as (new & -> & Hnew).
    rewrite drop_app_length. rewrite <- Hm. apply Hnew.
Qed.

End TrainerProperties.

(** ** Examples on the rules engine for examples *)

Lemma toy_start_reachable text : reachable toy_engine (toy_start text).
Proof. apply reachable_start; [done|done|by eexists]. Qed.

Lemma run_reachable {Position} (engine : RulesEngine Position) inputs :
  ∀ t, reachable engine t → reachable engine (run engine inputs t).
Proof.
  induction inputs as [|i inputs IH]; intros t Hr; [done|].
  apply IH. by apply reachable_step.
Qed.

Lemma toy_in_variation_reachable : reachable toy_engine toy_in_variation.
Proof. do 2 apply reachable_step. apply toy_start_reachable. Qed.

Lemma toy_after_first_move_reachable : reachable toy_engine toy_after_first_move.
Proof. apply reachable_step, toy_start_reachable. Qed.

Lemma exploration_only_at_opponent_moves_witness :
  moveStack toy_in_variation ≠ []
  ∧ Forall (frame_ok (playerColor toy_in_variation)) (moveStack toy_in_variation).
Proof.
  split; [by vm_compute|].
  exact (proj1 (exploration_only_at_opponent_moves _ toy_engine toy_in_variation
                  toy_in_variation_reachable)).
Defined.

Lemma isInVariation_tells_stack_witness :
  isInVariation toy_in_variation = true ∧ length (moveStack toy_in_variation) = 1%nat.
Proof.
  assert (isInVariation toy_in_variation
          = bool_decide (0 < length (moveStack toy_in_variation))%nat) as H.
  { apply (isInVariation_tells_stack _ toy_engine); [apply toy_in_variation_reachable|].
    vm_compute. reflexivity. }
  split; [rewrite H|]; vm_compute; reflexivity.
Defined.

(** C10 as stated fails in the pause of [_exitVariation]: the frame is
    popped at once, and the flag keeps its value until the callback of the
    pause restores the sequence left and computes the flag again. *)
Lemma exit_pause_state :
  reachable toy_engine toy_exit_pause
  ∧ exit_pending toy_exit_pause = true
  ∧ moveStack toy_exit_pause = []
  ∧ isInVariation toy_exit_pause = true
  ∧ isInVariation toy_exit_pause
    ≠ bool_decide (0 < length (moveStack toy_exit_pause))%nat
  ∧ isInVariation (step toy_engine first_timer toy_exit_pause) = false.
Proof.
  split; [apply run_reachable, toy_in_variation_reachable|].
  split_and!; vm_compute; try reflexivity. discriminate.
Qed.



(** The bad line played out (two moves of playback, then the restore)
    leaves the trainer at the start position and the first move, with the
    board interactive and one mistake. *)
Lemma bad_line_restores_witness :
  let t := toy_start scenario_bad in
  let t' := Nat.iter 3 (fire_last toy_engine) (step toy_engine (pawn "d2" "d4") t) in
  position (chess t) = []
  ∧ position (chess t') = position (chess t)
  ∧ currentMoves t' = currentMoves t
  ∧ moveIndex t' = moveIndex t
  ∧ interactive t' = true
  ∧ mistakes t' = 1%nat.
Proof.
  intros t t'. split; [by vm_compute|].
  pose (variation := PGNParser._parseMoves (str "1. d4? d5 2. c4")).
  pose (expected := mkMoveNode (str "e4") (Finite 1) true [] [] [] [] [variation]).
  pose (first := mkMoveNode (str "d4") (Finite 1) true [] [Some (Finite 2)] [] [] []).
  pose proof (bad_line_restores _ toy_engine t (str "d2") (str "d4") None
                expected (toy_move [] (str "d2") (str "d4"))
                (mkMatched variation true first)
                eq_refl eq_refl eq_refl) as H.
  destruct H as (H1 & H2 & H3 & H4 & _ & _ & _ & _ & _ & _ & _ & _ & _ & _ & H5);
    [by vm_compute..|].
  change (Nat.iter (length (mv_variation (mkMatched variation true first)))
            (fire_last toy_engine) (step toy_engine (BoardMove (str "d2") (str "d4") None) t))
    with t' in *.
  by split_and!.
Defined.

(** Scenario D to its end: the attempts are a good line and the expected
    move, no mistake is made and the puzzle is completed as solved. *)
Lemma mistakes_accounting_witness :
  let t0 := loadPuzzles [game_of scenario_D] (constructor toy_engine) in
  let start := startPuzzle toy_engine 0 t0 in
  let t := run toy_engine inputs_D start in
  mistakes start = 0%nat
  ∧ mistakes t = count_mistakes (outcomes toy_engine inputs_D start)
  ∧ count_mistakes (outcomes toy_engine inputs_D start) = 0%nat.
Proof.
  intros t0 start t.
  destruct (mistakes_accounting _ toy_engine t0 0 inputs_D first_timer)
    as (H1 & H2 & _); [lia|by eexists|].
  split; [exact H1|]. split; [exact H2|]. by vm_compute.
Defined.

(** C4 as stated fails: in scenario D the first move of the player is not
    the expected move (it opens a good line), and the puzzle is completed
    with no mistake and reported as solved. *)
Lemma good_line_still_solved :
  let start := toy_start scenario_D in
  (san <$> currentMoves start !! moveIndex start) = Some (str "e4")
  ∧ outcomes toy_engine (inputs_D ++ [first_timer]) start = [GoodLine; Exact]
  ∧ last (events (run toy_engine (inputs_D ++ [first_timer]) start))
    = Some (PuzzleComplete (mkAttempt 0 true 0 0) 1 1 false).
Proof. by vm_compute. Qed.

(** A wrong move in scenario D: undone, counted, reported. *)
Lemma wrong_move_reverted_witness :
  let t := toy_start scenario_D in
  let t' := step toy_engine (pawn "a2" "a3") t in
  chess t' = chess t ∧ moveIndex t' = moveIndex t ∧ mistakes t' = 1%nat
  ∧ last (events t') = Some (StatusChange (incorrect 1)).
Proof.
  intros t t'.
  pose (expected := mkMoveNode (str "e4") (Finite 1) true [] [] [] []
                      [PGNParser._parseMoves (str "1. d4")]).
  pose proof (wrong_move_reverted _ toy_engine t (str "a2") (str "a3") None expected
                eq_refl eq_refl eq_refl ltac:(by vm_compute)) as H.
  change (move_squares toy_engine (position (chess t)) (str "a2") (str "a3")
            (promotion_or_queen None)) with (Some (toy_move [] (str "a2") (str "a3"))) in H.
  cbn zeta iota in H. destruct H as (_ & Hc & Hi & Hm & He); [by vm_compute..|].
  change (step toy_engine (BoardMove (str "a2") (str "a3") None) t) with t' in *.
  split_and!; [done|done|done|]. rewrite He. by rewrite last_snoc.
Defined.

(** C5 as stated fails for a move the engine rejects: nothing is
    reported and no mistake is counted. *)
Lemma rejected_move_ignored :
  let t := toy_start scenario_D in
  let t' := step toy_engine (pawn "e2" "e2") t in
  move_squares toy_engine (position (chess t)) (str "e2") (str "e2") (str "q") = None
  ∧ t' = t
  ∧ mistakes t' = 0%nat
  ∧ events t' = [PuzzleStart 0 1 (str "w"); StatusChange (your_turn 0 false)].
Proof. by vm_compute. Qed.

(** Scenario A: the expected moves, no mistake, solved. *)
Example scenario_A_solved :
  outcomes toy_engine inputs_A (toy_start scenario_A) = [Exact; Exact]
  ∧ last (events (run toy_engine inputs_A (toy_start scenario_A)))
    = Some (PuzzleComplete (mkAttempt 0 true 0 0) 1 1 false).
Proof. by vm_compute. Qed.

(** C6, where the code departs from it: with the game
    [1. e4 e5 (1... c5 (1... e6) 2. Nf3) 2. Nf3 *] and the player White,
    after the move e4 the engine enters the variation of e5, an opponent
    move, and reaches its first move c5, an opponent move with a variation
    of its own that was never explored.  The flag [_variationsDone], set
    when the variation of e5 was entered and not cleared on entry, is
    still set there: the variation of c5 is passed over, no frame is
    pushed, and c5 itself is scheduled. *)
Example first_move_of_variation_not_explored :
  let t := run toy_engine [pawn "e2" "e4"; first_timer] (toy_start scenario_nested) in
  let t' := step toy_engine first_timer t in
  reachable toy_engine t
  ∧ playerColor t = str "w"
  ∧ (san <$> currentMoves t) = [str "c5"; str "Nf3"]
  ∧ moveIndex t = 0%nat
  ∧ (length ∘ variations <$> currentMoves t) = [1%nat; 0%nat]
  ∧ map (_isPlayerTurn t) (currentMoves t) = [false; true]
  ∧ _variationsDone t = true
  ∧ map snd (timers t) = [TkProcessNext (list jsstring)]
  ∧ currentMoves t' = currentMoves t
  ∧ moveIndex t' = 0%nat
  ∧ moveStack t' = moveStack t
  ∧ length (moveStack t) = 1%nat
  ∧ events t' = events t
  ∧ (fun timer => match snd timer with
                  | TkOpponentMove _ moveNode => Some (san moveNode)
                  | _ => None
                  end) <$> timers t' = [Some (str "c5")].
Proof.
  split; [apply run_reachable, toy_start_reachable|].
  split_and!; vm_compute; reflexivity.
Qed.

(** * Further properties *)

(** ** Trimming *)

Section MoreStrings.

Lemma trim_start_suffix s : trim_start s `suffix_of` s.
Proof.
  induction s as [|c s IH]; simpl; [done|].
  destruct (is_space c); [by apply suffix_cons_r|done].
Qed.

Lemma trim_start_head s c s' : trim_start s = c :: s' → is_space c = false.
Proof.
  induction s as [|x s IH]; simpl; [done|].
  destruct (is_space x) eqn:Hx; [done|]. intros ?; by simplify_eq.
Qed.

Lemma trim_start_fixed c s : is_space c = false → trim_start (c :: s) = c :: s.
Proof. intros H. simpl. by rewrite H. Qed.

Lemma trim_end_prefix s : trim_end s `prefix_of` s.
Proof.
  unfold trim_end. destruct (trim_start_suffix (reverse s)) as [k Hk].
  exists (reverse k). apply (inj reverse). by rewrite reverse_app, !reverse_involutive.
Qed.

Lemma trim_end_snoc s c : is_space c = false → trim_end (s ++ [c]) = s ++ [c].
Proof.
  intros H. unfold trim_end. rewrite reverse_app. simpl.
  change (reverse [c]) with [c]. simpl. rewrite H.
  by rewrite reverse_cons, reverse_involutive.
Qed.

Lemma trim_end_last s : trim_end s = [] ∨ ∃ s' c, trim_end s = s' ++ [c] ∧ is_space c = false.
Proof.
  unfold trim_end. destruct (trim_start (reverse s)) as [|c r] eqn:Hr; [by left|].
  right. exists (reverse r), c. split; [by rewrite reverse_cons|].
  by eapply trim_start_head.
Qed.

(** Trimming the end keeps a first character that is not white space. *)
Lemma trim_end_cons c s : is_space c = false → ∃ s', trim_end (c :: s) = c :: s'.
Proof.
  intros H. unfold trim_end. rewrite reverse_cons.
  generalize (reverse s). intros r. induction r as [|x r IH]; simpl.
  - rewrite H. by exists [].
  - destruct (is_space x).
    + exact IH.
    + rewrite reverse_cons, reverse_app. simpl. by eexists.
Qed.

Lemma trim_fixed s : trim_start s = s → trim_end s = s → trim s = s.
Proof. unfold trim. by intros -> ->. Qed.

Lemma trim_idemp s : trim (trim s) = trim s.
Proof.
  unfold trim.
  destruct (trim_start s) as [|c r] eqn:Hs; [done|].
  pose proof (trim_start_head _ _ _ Hs) as Hc.
  destruct (trim_end_cons c r Hc) as [r' Hr]. rewrite Hr.
  rewrite trim_start_fixed by done. rewrite <- Hr.
  destruct (trim_end_last (c :: r)) as [He|(s' & x & He & Hx)]; rewrite He; [done|].
  by apply trim_end_snoc.
Qed.

Lemma trim_suffix_prefix s : ∃ a b, s = a ++ trim s ++ b.
Proof.
  destruct (trim_start_suffix s) as [a Ha].
  destruct (trim_end_prefix (trim_start s)) as [b Hb].
  exists a, b. unfold trim. by rewrite <- Hb.
Qed.

End MoreStrings.

(** ** The normal form of a move text *)

Section MoreNormalize.

Lemma Forall_trim (P : char → Prop) s : Forall P s → Forall P (trim s).
Proof.
  intros H. destruct (trim_suffix_prefix s) as (a & b & Hs). rewrite Hs in H.
  by apply Forall_app in H as [_ [H _]%Forall_app].
Qed.

Lemma filter_all {A} (P : A → Prop) `{∀ x, Decision (P x)} (l : list A) :
  Forall P l → filter P l = l.
Proof.
  induction 1 as [|x l Hx _ IH]; [done|]. rewrite filter_cons, decide_True by done.
  by rewrite IH.
Qed.

Lemma filter_none {A} (P : A → Prop) `{∀ x, Decision (P x)} (l : list A) :
  Forall (fun x => ¬ P x) l → filter P l = [].
Proof.
  induction 1 as [|x l Hx _ IH]; [done|]. by rewrite filter_cons, decide_False.
Qed.

Lemma Forall_filter_self {A} (P : A → Prop) `{∀ x, Decision (P x)} (l : list A) :
  Forall P (filter P l).
Proof. apply Forall_forall. intros x Hx. by apply list_elem_of_filter in Hx as [? _]. Qed.

End MoreNormalize.

(** X1: [_normalizeSan] gives a normal form: the result holds none of
    the marks for check, mate and annotation (plus, hash, exclamation and
    question mark), has no white space at either end, and normalizing it
    again changes nothing. *)
Theorem normalizeSan_normal_form (s : jsstring) :
  Forall (fun c => char_in (str "+#!?") c = false) (_normalizeSan s)
  ∧ trim (_normalizeSan s) = _normalizeSan s
  ∧ _normalizeSan (_normalizeSan s) = _normalizeSan s.
Proof.
  assert (Forall (fun c => negb (char_in (str "+#!?") c)) (_normalizeSan s)) as Hf.
  { apply Forall_trim, Forall_filter_self. }
  split_and!.
  - eapply Forall_impl; [exact Hf|]. intros c Hc. simpl in Hc.
    apply Is_true_true in Hc. by apply negb_true_iff in Hc.
  - apply trim_idemp.
  - change (_normalizeSan (_normalizeSan s))
      with (trim (filter (λ c, negb (char_in (str "+#!?") c)) (_normalizeSan s))).
    rewrite (filter_all _ _ Hf). apply trim_idemp.
Qed.

(** X2: marks appended to a move text, in any number and order, do not
    change what [_normalizeSan] gives: the move of the engine and the move
    of the game are compared without them. *)
Theorem normalizeSan_ignores_marks (s marks : jsstring) :
  Forall (fun c => char_in (str "+#!?") c = true) marks →
  _normalizeSan (s ++ marks) = _normalizeSan s.
Proof.
  intros H. unfold _normalizeSan, jsstring. rewrite filter_app.
  rewrite (filter_none _ marks), app_nil_r; [done|].
  eapply Forall_impl; [exact H|]. intros c Hc. cbv beta. rewrite Hc. by intros [].
Qed.

Lemma normalizeSan_ignores_marks_witness :
  _normalizeSan (str "Qxf7" ++ str "#!!") = _normalizeSan (str "Qxf7").
Proof. apply normalizeSan_ignores_marks. by repeat constructor. Defined.

(** ** The tokenizer: white space, comments, annotation symbols *)

Section MoreTokenizer.
Import PGNParser.

Lemma tokenize_rest (tok : option token) (s rest : jsstring) fuel :
  (length rest ≤ fuel)%nat →
  (tokens ← tokenize_loop fuel rest;
   Some (match tok with Some t => t :: tokens | None => tokens end))
  = (fun tokens => match tok with Some t => t :: tokens | None => tokens end)
      <$> _tokenize rest.
Proof.
  intros Hl. unfold _tokenize. rewrite (tokenize_loop_fuel fuel (length rest) rest) by done.
  by destruct (tokenize_loop _ rest).
Qed.

(** One iteration of the tokenizer, as an equation on its result. *)
Lemma tokenize_step c s' tok rest :
  scan_token c s' = (tok, rest) →
  _tokenize (c :: s')
  = (fun tokens => match tok with Some t => t :: tokens | None => tokens end)
      <$> _tokenize rest.
Proof.
  intros Hs. unfold _tokenize at 1. simpl. rewrite Hs.
  apply (tokenize_rest tok s'). by eapply scan_token_shorter.
Qed.

Lemma scan_comment_closed body rest :
  Forall (fun c => c ≠ ch "{" ∧ c ≠ ch "}") body →
  scan_comment 1 (body ++ ch "}" :: rest) = (body ++ [ch "}"], rest).
Proof.
  induction 1 as [|c body [Ho Hc] _ IH]; [done|]. simpl.
  unfold comment_depth.
  apply N.eqb_neq in Ho, Hc. rewrite Ho, Hc. by rewrite IH.
Qed.

Lemma scan_comment_open body :
  Forall (fun c => c ≠ ch "{" ∧ c ≠ ch "}") body →
  scan_comment 1 body = (body, []).
Proof.
  induction 1 as [|c body [Ho Hc] _ IH]; [done|]. simpl.
  unfold comment_depth.
  apply N.eqb_neq in Ho, Hc. rewrite Ho, Hc. by rewrite IH.
Qed.

Lemma scan_token_brace s' :
  scan_token (ch "{") s'
  = let '(body, rest) := scan_comment 1 s' in (Some (TComment (comment_value body)), rest).
Proof. done. Qed.

End MoreTokenizer.

(** X3: white space in front of a text changes nothing to its tokens. *)
Theorem tokenize_leading_space (space text : jsstring) :
  Forall (fun c => is_space c = true) space →
  PGNParser._tokenize (space ++ text) = PGNParser._tokenize text.
Proof.
  induction 1 as [|c space Hc _ IH]; [done|]. simpl.
  rewrite (tokenize_step c (space ++ text) None (space ++ text)).
  - rewrite IH. by destruct (PGNParser._tokenize text).
  - unfold PGNParser.scan_token. by rewrite Hc.
Qed.

Lemma tokenize_leading_space_witness :
  PGNParser._tokenize (str "  " ++ str "e4") = PGNParser._tokenize (str "e4").
Proof. apply tokenize_leading_space. by repeat constructor. Defined.

(** X4: a comment in braces with no brace inside gives one comment token
    with the text between the braces as it is written, parentheses and
    dollar signs included, and the tokenizer goes on right after the
    closing brace. *)
Theorem tokenize_comment_verbatim (body rest : jsstring) :
  Forall (fun c => c ≠ ch "{" ∧ c ≠ ch "}") body →
  PGNParser._tokenize (ch "{" :: body ++ ch "}" :: rest)
  = cons (PGNParser.TComment body) <$> PGNParser._tokenize rest.
Proof.
  intros Hb.
  rewrite (tokenize_step _ _ (Some (PGNParser.TComment body)) rest); [done|].
  rewrite scan_token_brace, scan_comment_closed by done.
  unfold PGNParser.comment_value. rewrite length_app. simpl.
  replace (pred (length body + 1)) with (length body) by lia.
  by rewrite take_app_length.
Qed.

Lemma tokenize_comment_verbatim_witness :
  PGNParser._tokenize (ch "{" :: str "a (b) $1" ++ ch "}" :: str " e4")
  = cons (PGNParser.TComment (str "a (b) $1")) <$> PGNParser._tokenize (str " e4").
Proof. apply tokenize_comment_verbatim. repeat constructor; done. Defined.

(** X5: a brace that is never closed takes the rest of the text as one
    comment, and the last character of the text is lost: the slice of the
    comment ends one before the cursor, which is then at the end. *)
Theorem tokenize_comment_unterminated (body : jsstring) :
  Forall (fun c => c ≠ ch "{" ∧ c ≠ ch "}") body →
  PGNParser._tokenize (ch "{" :: body)
  = Some [PGNParser.TComment (take (pred (length body)) body)].
Proof.
  intros Hb.
  rewrite (tokenize_step _ _ (Some (PGNParser.TComment (take (pred (length body)) body))) []);
    [done|].
  by rewrite scan_token_brace, scan_comment_open.
Qed.

Lemma tokenize_comment_unterminated_witness :
  PGNParser._tokenize (ch "{" :: str "good move")
  = Some [PGNParser.TComment (take (pred (length (str "good move"))) (str "good move"))].
Proof. apply tokenize_comment_unterminated. repeat constructor; done. Defined.

(** X6: the table of the tokenizer and the table of [nagToSymbol] agree
    on the six annotation symbols: a symbol alone is tokenized to one NAG
    token with its code, and [nagToSymbol] of that code is the symbol. *)
Theorem annotation_symbol_round_trip (symbol : jsstring) (code : N) :
  PGNParser.nagMap_lookup symbol = Some (Finite code) →
  PGNParser._tokenize symbol = Some [PGNParser.TNag (Some (Finite code))]
  ∧ PGNParser.nagToSymbol (Some (Finite code)) = symbol.
Proof.
  intros H. unfold PGNParser.nagMap_lookup, PGNParser.nagMap in H. simpl in H.
  unfold jsstring_eqb in H.
  repeat (case_bool_decide; [subst symbol; simplify_eq/=; by vm_compute|]).
  done.
Qed.

Lemma annotation_symbol_round_trip_witness :
  PGNParser._tokenize (str "?!") = Some [PGNParser.TNag (Some (Finite 6))]
  ∧ PGNParser.nagToSymbol (Some (Finite 6)) = str "?!".
Proof. apply annotation_symbol_round_trip. reflexivity. Defined.

Section MoreTokenizerNags.
Import PGNParser.

Lemma take_while_digits digits rest :
  Forall (fun c => is_digit c = true) digits →
  match rest with c :: _ => is_digit c = false | [] => True end →
  take_while is_digit (digits ++ rest) = digits.
Proof.
  intros Hd Hr. induction Hd as [|c digits Hc _ IH]; cbn [take_while app].
  - destruct rest as [|c rest]; [done|]. cbn [take_while]. by rewrite Hr.
  - by rewrite Hc, IH.
Qed.

End MoreTokenizerNags.

(** X27: a dollar sign followed by digits, and by something that is not
    a digit, gives one NAG token with the [parseInt] of the digits, the
    double nearest to the number they spell ([Infinity] from 2^1024 on), and
    the tokenizer goes on after the digits; with no digit at all the code
    of the token is the [NaN] of [parseInt]. *)
Theorem tokenize_numeric_nag (digits rest : jsstring) :
  Forall (fun c => is_digit c = true) digits →
  match rest with c :: _ => is_digit c = false | [] => True end →
  PGNParser._tokenize (ch "$" :: digits ++ rest)
  = cons (PGNParser.TNag (parseInt digits)) <$> PGNParser._tokenize rest.
Proof.
  intros Hd Hr.
  rewrite (tokenize_step _ _ (Some (PGNParser.TNag (parseInt digits))) rest); [done|].
  unfold PGNParser.scan_token.
  change (is_space (ch "$")) with false. cbv iota.
  change (ch "$" =? ch "{") with false. change (ch "$" =? ch "(") with false.
  change (ch "$" =? ch ")") with false. change (ch "$" =? ch "$") with true. cbv iota zeta.
  rewrite take_while_digits by done. by rewrite drop_app_length.
Qed.

Lemma tokenize_numeric_nag_witness :
  PGNParser._tokenize (ch "$" :: str "14" ++ str " e4")
  = cons (PGNParser.TNag (parseInt (str "14"))) <$> PGNParser._tokenize (str " e4").
Proof. apply tokenize_numeric_nag; [by repeat constructor|reflexivity]. Defined.

(** ** The tree builder: the moves of the tree *)

Section MoreTreeBuilder.
Import PGNParser.

Lemma played_skeleton a b : skeleton a = skeleton b → played a = played b.
Proof. destruct a, b. unfold skeleton. simpl. by intros [= -> _ _ _ ->]. Qed.

Lemma played_all_skeleton a : ∀ b,
  skeleton <$> a = skeleton <$> b → played_all a = played_all b.
Proof.
  induction a as [|x a IH]; intros [|y b] H; try done.
  rewrite !fmap_cons in H. apply (inj2 cons) in H as [Hx Ha].
  unfold played_all. simpl.
  rewrite (played_skeleton _ _ Hx). f_equal. by apply IH.
Qed.

Lemma played_all_app a b : played_all (a ++ b) = played_all a ++ played_all b.
Proof. unfold played_all. by rewrite map_app, concat_app. Qed.

Lemma played_push_variation node variation :
  played (push_variation node variation) = played node ++ played_all variation.
Proof.
  destruct node. unfold push_variation, played_all. simpl.
  by rewrite map_app, concat_app; simpl; rewrite app_nil_r.
Qed.

Lemma collect_annotations_played tokens : ∀ node node' rest,
  collect_annotations node tokens = (node', rest) →
  played node' = played node ∧ move_values rest = move_values tokens
  ∧ rest `suffix_of` tokens.
Proof.
  induction tokens as [|t tokens IH]; intros node node' rest Hc; simpl in Hc.
  { by simplify_eq. }
  destruct t; simplify_eq; try done.
  - apply IH in Hc as (-> & -> & ?). split_and!; [|done|by apply suffix_cons_r].
    by destruct node.
  - apply IH in Hc as (-> & -> & ?). split_and!; [|done|by apply suffix_cons_r].
    by destruct node.
Qed.

Lemma collect_comments_played tokens : ∀ node node' rest,
  collect_comments node tokens = (node', rest) →
  played node' = played node ∧ move_values rest = move_values tokens
  ∧ rest `suffix_of` tokens.
Proof.
  induction tokens as [|t tokens IH]; intros node node' rest Hc; simpl in Hc.
  { by simplify_eq. }
  destruct t; simplify_eq; try done.
  apply IH in Hc as (-> & -> & ?). split_and!; [|done|by apply suffix_cons_r].
  by destruct node.
Qed.

Lemma after_variation_played rest :
  move_values (after_variation rest) = move_values rest
  ∧ after_variation rest `suffix_of` rest.
Proof. destruct rest as [|[] rest]; split; try done. by apply suffix_cons_r. Qed.

(** The moves of the tree and of the tokens left over are the moves of
    the tokens, in their order; the sequence loop stops at the end of the
    tokens or at a closing parenthesis. *)
Lemma loops_played fuel :
  (∀ acc number white tokens res rest,
     sequence_loop fuel acc number white tokens = Some (res, rest) →
     played_all res ++ move_values rest = played_all acc ++ move_values tokens
     ∧ (rest = [] ∨ ∃ rest', rest = TVariationEnd :: rest')
     ∧ rest `suffix_of` tokens)
  ∧ (∀ node tokens node' rest,
     variation_loop fuel node tokens = Some (node', rest) →
     played node' ++ move_values rest = played node ++ move_values tokens
     ∧ rest `suffix_of` tokens).
Proof.
  induction fuel as [|fuel [IHs IHv]].
  { split.
    - intros acc number white [|t tokens] res rest H; simpl in H; simplify_eq.
      split_and!; [done|by left|done].
    - intros node [|[] tokens] node' rest H; simpl in H; by simplify_eq. }
  split.
  - intros acc number white [|t tokens] res rest H; simpl in H.
    { simplify_eq. split_and!; [done|by left|done]. }
    destruct t as [v| | |v|v|v b|v].
    + apply IHs in H as (-> & ? & ?). split_and!; [|done|by apply suffix_cons_r].
      f_equal. apply played_all_skeleton, skeleton_attach_to_last.
    + apply IHs in H as (-> & ? & ?). split_and!; [done|done|by apply suffix_cons_r].
    + simplify_eq. split_and!; [done|by right; eexists|done].
    + apply IHs in H as (-> & ? & ?). split_and!; [done|done|by apply suffix_cons_r].
    + apply IHs in H as (-> & ? & ?). split_and!; [done|done|by apply suffix_cons_r].
    + apply IHs in H as (-> & ? & ?). split_and!; [done|done|by apply suffix_cons_r].
    + destruct (collect_annotations (new_node v number white) tokens)
        as [node1 rest1] eqn:Hc.
      apply collect_annotations_played in Hc as (Hp1 & Hm1 & Hs1).
      destruct (variation_loop fuel node1 rest1) as [[node2 rest2]|] eqn:Hv; [|done].
      simpl in H. apply IHv in Hv as (Hp2 & Hs2).
      apply IHs in H as (-> & ? & ?). split_and!; [|done|].
      * rewrite played_all_app. unfold played_all at 2. simpl. rewrite app_nil_r.
        rewrite <- !app_assoc. f_equal. rewrite Hp2, Hp1, Hm1. done.
      * apply suffix_cons_r. by repeat (etrans; [eassumption|]).
  - intros node [|t tokens] node' rest H; simpl in H; [by simplify_eq|].
    destruct t; try by simplify_eq.
    destruct (sequence_loop fuel [] (Finite 1) true tokens) as [[variation rest1]|] eqn:Hq;
      [|done].
    simpl in H. apply IHs in Hq as (Hp1 & _ & Hs1).
    destruct (collect_comments (push_variation node variation) (after_variation rest1))
      as [node1 rest2] eqn:Hc.
    apply collect_comments_played in Hc as (Hp2 & Hm2 & Hs2).
    destruct (after_variation_played rest1) as [Hm3 Hs3].
    apply IHv in H as (-> & ?). split.
    + rewrite Hp2, Hm2, Hm3, played_push_variation, <- app_assoc. f_equal.
      simpl in Hp1. done.
    + apply suffix_cons_r. by repeat (etrans; [eassumption|]).
Qed.

End MoreTreeBuilder.

(** X7: the tree builder loses no move and keeps the order.  The moves of
    the tree (each move followed by those of its variations, in turn), then
    the moves of the tokens left over, are the moves of the tokens.  The
    builder stops at the end of the tokens or at a closing parenthesis that
    closes nothing, and the tokens from there on are left over: without a
    closing parenthesis every move of the text is in the tree. *)
Theorem tree_builder_keeps_moves (tokens : list PGNParser.token) :
  ∃ nodes rest,
    PGNParser.parseSequence (S (length tokens)) tokens = Some (nodes, rest)
    ∧ PGNParser.parse_tokens tokens = Some nodes
    ∧ PGNParser.played_all nodes ++ PGNParser.move_values rest
      = PGNParser.move_values tokens
    ∧ rest `suffix_of` tokens
    ∧ (rest = [] ∨ ∃ rest', rest = PGNParser.TVariationEnd :: rest')
    ∧ (PGNParser.TVariationEnd ∉ tokens →
       PGNParser.played_all nodes = PGNParser.move_values tokens).
Proof.
  destruct (loops_total (S (length tokens))) as [Ht _].
  destruct (Ht [] (Finite 1) true tokens) as (nodes & rest & Hp & _); [lia|].
  exists nodes, rest.
  destruct (loops_played (S (length tokens))) as [Hl _].
  pose proof (Hl _ _ _ _ _ _ Hp) as (Hm & He & Hs).
  split_and!; try done.
  - unfold PGNParser.parse_tokens, PGNParser.parseSequence. by rewrite Hp.
  - intros Hn. destruct He as [->|[rest' ->]].
    + by rewrite app_nil_r in Hm.
    + destruct Hn. destruct Hs as [k ->]. apply elem_of_app. right. by left.
Qed.

(** ** Comments *)

Section MoreComments.
Import PGNParser.

Lemma head_star_matches p s :
  head (star_matches p s)
  = Some (RMatch (take_while p s) [] (drop (length (take_while p s)) s)).
Proof.
  induction s as [|c s IH]; simpl; [done|].
  destruct (p c); [|done].
  destruct (star_matches p s) as [|m l]; [done|]. simpl in *. by simplify_eq.
Qed.

Lemma match_prefix_plus p c s' :
  match_prefix (RPlus p) (c :: s')
  = if p c
    then Some (RMatch (c :: take_while p s') [] (drop (length (take_while p s')) s'))
    else None.
Proof.
  unfold match_prefix, RPlus. simpl. destruct (p c); [|done]. simpl.
  pose proof (head_star_matches p s') as Hh.
  destruct (star_matches p s') as [|m l]; [done|]. simpl in *. by simplify_eq.
Qed.

Lemma replace_all_squeeze s :
  replace_all (A:=unit) (RPlus is_space) (str " ") (fun _ => []) 0 s = (squeeze false s, [])
  ∧ replace_all (A:=unit) (RPlus is_space) (str " ") (fun _ => [])
      (length (take_while is_space s)) s = (squeeze true s, []).
Proof.
  induction s as [|c s [IH0 IH1]]; [done|].
  assert (replace_all (A:=unit) (RPlus is_space) (str " ") (fun _ => []) 0 (c :: s)
          = (squeeze false (c :: s), [])) as H0.
  { simpl replace_all. rewrite match_prefix_plus. simpl squeeze.
    destruct (is_space c).
    - simpl. by rewrite IH1.
    - by rewrite IH0. }
  split; [done|].
  simpl take_while. destruct (is_space c) eqn:Hc; cbn [length].
  - simpl. by rewrite Hc.
  - rewrite H0. simpl. by rewrite Hc.
Qed.

Lemma squeeze_tidy s : ∀ inRun, tidy inRun (squeeze inRun s).
Proof.
  induction s as [|c s IH]; intros inRun; simpl; [done|].
  destruct (is_space c) eqn:Hc.
  - destruct inRun; [done|]. simpl. change (is_space 32) with true. by cbv beta iota.
  - simpl. by rewrite Hc.
Qed.

Lemma tidy_weaken s inRun : tidy inRun s → tidy false s.
Proof.
  destruct inRun; [|done]. destruct s as [|c s]; simpl; [done|].
  destruct (is_space c); [|done]. by intros (_ & ? & _).
Qed.

Lemma tidy_squeeze s : ∀ inRun, tidy inRun s → squeeze inRun s = s.
Proof.
  induction s as [|c s IH]; intros inRun; simpl; [done|].
  destruct (is_space c).
  - intros (-> & -> & H). by rewrite IH.
  - intros H. by rewrite IH.
Qed.

Lemma tidy_app_l a s : ∀ inRun, tidy inRun (a ++ s) → tidy inRun a.
Proof.
  induction a as [|c a IH]; intros inRun; simpl; [done|].
  destruct (is_space c).
  - intros (? & ? & H). split_and!; [done|done|]. by apply IH.
  - apply IH.
Qed.

Lemma tidy_app_r a s : ∀ inRun, tidy inRun (a ++ s) → tidy false s.
Proof.
  induction a as [|c a IH]; intros inRun; simpl; [apply tidy_weaken|].
  destruct (is_space c).
  - intros (? & ? & H). by eapply IH.
  - apply IH.
Qed.

Lemma tidy_trim s : tidy false s → tidy false (trim s).
Proof.
  intros H. destruct (trim_suffix_prefix s) as (a & b & Hs). rewrite Hs in H.
  apply tidy_app_r in H. by apply tidy_app_l in H.
Qed.

Lemma tidy_spaces s : ∀ inRun, tidy inRun s → Forall (fun c => is_space c = true → c = 32) s.
Proof.
  induction s as [|c s IH]; intros inRun; simpl; [done|].
  destruct (is_space c) eqn:Hc.
  - intros (? & ? & H). constructor; [done|]. by eapply IH.
  - intros H. constructor; [congruence|]. by eapply IH.
Qed.

Lemma cleanComment_tidy text : tidy false (_cleanComment text).
Proof.
  unfold _cleanComment. rewrite (proj1 (replace_all_squeeze text)). simpl.
  apply tidy_trim, squeeze_tidy.
Qed.

Lemma replace_all_no_bracket {A} re rep (cb : rmatch_result → list A) s :
  needs_bracket re → ch "[" ∉ s → replace_all re rep cb 0 s = (s, []).
Proof.
  intros Hre. induction s as [|c s IH]; [done|].
  intros Hn. apply not_elem_of_cons in Hn as [Hc Hs]. simpl.
  rewrite Hre by done. by rewrite IH.
Qed.

Lemma rmatch_lit_mismatch c0 l c s' : c ≠ c0 → rmatch (RLit (c0 :: l)) (c :: s') = [].
Proof.
  intros Hc. apply not_eq_sym in Hc. apply N.eqb_neq in Hc.
  destruct l; simpl; by rewrite Hc.
Qed.

Lemma match_prefix_seq_nil r1 r2 s : rmatch r1 s = [] → match_prefix (RSeq r1 r2) s = None.
Proof. intros H. unfold match_prefix. simpl. by rewrite H. Qed.

Lemma directive_needs_bracket name : needs_bracket (directive_re name).
Proof.
  intros c s' Hc. unfold directive_re.
  change (str "[%" ++ name) with (ch "[" :: ch "%" :: name).
  by apply match_prefix_seq_nil, rmatch_lit_mismatch.
Qed.

Lemma engine_directive_needs_bracket : needs_bracket engine_directive_re.
Proof.
  intros c s' Hc. unfold engine_directive_re.
  change (str "[%") with [ch "["; ch "%"].
  by apply match_prefix_seq_nil, rmatch_lit_mismatch.
Qed.

End MoreComments.

(** X8: [_cleanComment] gives a text whose only white space is the plain
    space, never two in a row and none at either end; cleaning it again
    changes nothing. *)
Theorem cleanComment_normal_form (text : jsstring) :
  let cleaned := PGNParser._cleanComment text in
  Forall (fun c => is_space c = true → c = 32) cleaned
  ∧ (∀ before after, cleaned ≠ before ++ [32; 32] ++ after)
  ∧ trim cleaned = cleaned
  ∧ PGNParser._cleanComment cleaned = cleaned.
Proof.
  intros cleaned. pose proof (cleanComment_tidy text) as Ht. fold cleaned in Ht.
  assert (trim cleaned = cleaned) as Htrim by apply trim_idemp.
  split_and!.
  - by eapply tidy_spaces.
  - intros before after He. rewrite He in Ht. apply tidy_app_r in Ht.
    simpl in Ht. change (is_space 32) with true in Ht. cbv beta iota in Ht.
    by destruct Ht as (_ & _ & _ & ? & _).
  - done.
  - unfold PGNParser._cleanComment at 1.
    rewrite (proj1 (replace_all_squeeze cleaned)). simpl.
    by rewrite tidy_squeeze.
Qed.

(** X9: a comment without an opening bracket holds no directive:
    [_parseComment] gives its cleaned text, no arrow and no highlight. *)
Theorem parseComment_plain_text (raw : jsstring) :
  ch "[" ∉ raw →
  PGNParser._parseComment raw
  = PGNParser.mkParsedComment (PGNParser._cleanComment raw) [] [].
Proof.
  intros Hn. unfold PGNParser._parseComment.
  rewrite (replace_all_no_bracket _ _ _ raw (directive_needs_bracket _) Hn).
  rewrite (replace_all_no_bracket _ _ _ raw (directive_needs_bracket _) Hn).
  by rewrite (replace_all_no_bracket _ _ _ raw engine_directive_needs_bracket Hn).
Qed.

Lemma parseComment_plain_text_witness :
  PGNParser._parseComment (str " a  strong move ")
  = PGNParser.mkParsedComment (PGNParser._cleanComment (str " a  strong move ")) [] [].
Proof. apply parseComment_plain_text. apply (bool_decide_unpack _). by vm_compute. Defined.

Section MoreAnnotations.
Import PGNParser.

Lemma mapColor_palette code : _mapColor code ∈ palette.
Proof.
  unfold _mapColor, palette. repeat case_match;
    repeat first [apply list_elem_of_here | apply list_elem_of_further].
Qed.

Lemma to_upper_idemp code : to_upper (to_upper code) = to_upper code.
Proof.
  unfold to_upper, in_range.
  change (ch "a") with 97. change (ch "z") with 122.
  destruct ((97 <=? code) && (code <=? 122)) eqn:H; [|by rewrite H].
  apply andb_true_iff in H as [H1%N.leb_le H2%N.leb_le].
  rewrite (proj2 (N.leb_gt 97 (code - 32))); [done|lia].
Qed.

Lemma replace_all_Forall {A} (P : A → Prop) re rep (cb : rmatch_result → list A) s :
  (∀ m, Forall P (cb m)) → ∀ skip, Forall P (snd (replace_all re rep cb skip s)).
Proof.
  intros Hcb. induction s as [|c s IH]; intros skip; simpl; [done|].
  destruct skip as [|k]; [|apply IH].
  destruct (match_prefix re (c :: s)) as [m|].
  - specialize (IH (pred (length (matched m)))).
    destruct (replace_all re rep cb _ s). simpl in *. apply Forall_app. by split.
  - specialize (IH O). by destruct (replace_all re rep cb 0 s).
Qed.

Lemma Forall_list_bind {A B} (P : B → Prop) (f : A → list B) (l : list A) :
  (∀ x, Forall P (f x)) → Forall P (l ≫= f).
Proof.
  intros Hf. induction l as [|x l IH]; simpl; [done|]. apply Forall_app. by split.
Qed.

Lemma length_slice (a b : nat) s : (b ≤ length s)%nat → length (slice a b s) = (b - a)%nat.
Proof. intros H. unfold slice. rewrite length_take, length_drop. lia. Qed.

Lemma decode_arrows_well_formed m :
  Forall (fun a => arrow_color a ∈ palette
                   ∧ length (arrow_from a) = 2%nat ∧ length (arrow_to a) = 2%nat)
    (decode_arrows m).
Proof.
  apply Forall_list_bind. intros x. cbv beta zeta. case_bool_decide as Hl; [|done].
  destruct (trim x) as [|color rest] eqn:Ht; [done|].
  apply Forall_cons; split; [|constructor].
  split_and!; simpl; [apply mapColor_palette|..]; rewrite length_slice; simpl in *; lia.
Qed.

Lemma decode_highlights_well_formed m :
  Forall (fun h => hl_color h ∈ palette ∧ length (hl_square h) = 2%nat)
    (decode_highlights m).
Proof.
  apply Forall_list_bind. intros x. cbv beta zeta. case_bool_decide as Hl; [|done].
  destruct (trim x) as [|color rest] eqn:Ht; [done|].
  apply Forall_cons; split; [|constructor].
  split_and!; simpl; [apply mapColor_palette|]; rewrite length_slice; simpl in *; lia.
Qed.

End MoreAnnotations.

(** X10: every arrow read from a comment has a colour of the palette and
    two squares of two characters, every highlight a colour of the palette
    and a square of two characters, whatever the comment; the colour does
    not depend on the case of the code letter. *)
Theorem parseComment_annotations_well_formed (raw : jsstring) :
  Forall (fun a => arrow_color a ∈ PGNParser.palette
                   ∧ length (arrow_from a) = 2%nat ∧ length (arrow_to a) = 2%nat)
    (PGNParser.pc_arrows (PGNParser._parseComment raw))
  ∧ Forall (fun h => hl_color h ∈ PGNParser.palette ∧ length (hl_square h) = 2%nat)
      (PGNParser.pc_highlights (PGNParser._parseComment raw))
  ∧ ∀ code, PGNParser._mapColor (PGNParser.to_upper code) = PGNParser._mapColor code.
Proof.
  unfold PGNParser._parseComment.
  pose proof (replace_all_Forall _ (PGNParser.directive_re (str "cal")) [] _ raw
                decode_arrows_well_formed O) as Ha.
  destruct (PGNParser.replace_all (PGNParser.directive_re (str "cal")) []
              PGNParser.decode_arrows 0 raw) as [text arrows].
  pose proof (replace_all_Forall _ (PGNParser.directive_re (str "csl")) [] _ text
                decode_highlights_well_formed O) as Hh.
  destruct (PGNParser.replace_all (PGNParser.directive_re (str "csl")) []
              PGNParser.decode_highlights 0 text) as [text' highlights].
  simpl in *. split_and!; [done|done|].
  intros code. unfold PGNParser._mapColor. by rewrite to_upper_idemp.
Qed.

(** ** Headers and games *)

Section MoreHeaders.
Import PGNParser.

Lemma match_prefix_seq r1 r2 s m1 m2 :
  match_prefix r1 s = Some m1 → match_prefix r2 (remainder m1) = Some m2 →
  match_prefix (RSeq r1 r2) s
  = Some (RMatch (matched m1 ++ matched m2) (groups m1 ++ groups m2) (remainder m2)).
Proof.
  unfold match_prefix. simpl. intros H1 H2.
  destruct (rmatch r1 s) as [|x l]; simplify_eq/=.
  destruct (rmatch r2 (remainder m1)) as [|y l']; by simplify_eq/=.
Qed.

Lemma match_prefix_RGroup r s m :
  match_prefix r s = Some m →
  match_prefix (RGroup r) s = Some (RMatch (matched m) (matched m :: groups m) (remainder m)).
Proof.
  unfold match_prefix. simpl. intros H. destruct (rmatch r s); by simplify_eq/=.
Qed.

Lemma match_prefix_RChar c s : match_prefix (RChar c) (c :: s) = Some (RMatch [c] [] s).
Proof. unfold match_prefix. simpl. by rewrite N.eqb_refl. Qed.

Lemma take_while_app p a c b :
  Forall (fun x => p x = true) a → p c = false → take_while p (a ++ c :: b) = a.
Proof.
  intros Ha Hc. induction Ha as [|x a Hx _ IH]; simpl; [by rewrite Hc|].
  by rewrite Hx, IH.
Qed.

Lemma match_prefix_RStar p a c b :
  Forall (fun x => p x = true) a → p c = false →
  match_prefix (RStar p) (a ++ c :: b) = Some (RMatch a [] (c :: b)).
Proof.
  intros Ha Hc. unfold match_prefix. simpl. rewrite head_star_matches.
  rewrite take_while_app by done. by rewrite drop_app_length.
Qed.

Lemma match_prefix_RPlus p a c b :
  a ≠ [] → Forall (fun x => p x = true) a → p c = false →
  match_prefix (RPlus p) (a ++ c :: b) = Some (RMatch a [] (c :: b)).
Proof.
  intros Hn Ha Hc. destruct a as [|x a]; [done|].
  inversion Ha as [|? ? Hx Ha']; subst. simpl. rewrite match_prefix_plus, Hx.
  rewrite take_while_app by done. by rewrite drop_app_length.
Qed.

Lemma match_prefix_header tag value rest :
  tag ≠ [] → Forall (fun c => is_word c = true) tag → quote_char ∉ value →
  match_prefix header_re (header_line tag value ++ rest)
  = Some (RMatch (header_line tag value) [tag; value] rest).
Proof.
  intros Hn Ht Hv.
  assert (Forall (fun x => not_char quote_char x = true) value) as Hv'.
  { apply Forall_forall. intros x Hx. unfold not_char. apply negb_true_iff, N.eqb_neq.
    by intros ->. }
  pose proof (match_prefix_seq _ _ _ _ _
    (match_prefix_RChar quote_char (ch "]" :: rest)) (match_prefix_RChar (ch "]") rest)) as H5.
  pose proof (match_prefix_RGroup _ _ _
    (match_prefix_RStar (not_char quote_char) value quote_char (ch "]" :: rest) Hv' eq_refl))
    as H4.
  pose proof (match_prefix_seq _ _ _ _ _ H4 H5) as H3.
  pose proof (match_prefix_seq _ _ _ _ _
    (match_prefix_RChar quote_char (value ++ quote_char :: ch "]" :: rest)) H3) as H2.
  pose proof (match_prefix_seq _ _ _ _ _
    (match_prefix_RPlus is_space [ch " "] quote_char
       (value ++ quote_char :: ch "]" :: rest) ltac:(done) ltac:(by repeat constructor) eq_refl)
    H2) as H1.
  pose proof (match_prefix_seq _ _ _ _ _
    (match_prefix_RGroup _ _ _
       (match_prefix_RPlus is_word tag (ch " ")
          (quote_char :: value ++ quote_char :: ch "]" :: rest) Hn Ht eq_refl))
    H1) as H0.
  pose proof (match_prefix_seq _ _ _ _ _
    (match_prefix_RChar (ch "[")
       (tag ++ ch " " :: quote_char :: value ++ quote_char :: ch "]" :: rest)) H0) as H.
  assert (header_line tag value ++ rest
          = ch "[" :: tag ++ ch " " :: quote_char :: value ++ quote_char :: ch "]" :: rest)
    as ->.
  { unfold header_line. simpl. f_equal. rewrite <- app_assoc. simpl. do 3 f_equal.
    by rewrite <- app_assoc. }
  exact H.
Qed.

Lemma replace_all_skip {A} re rep (cb : rmatch_result → list A) a rest :
  replace_all re rep cb (length a) (a ++ rest) = replace_all re rep cb 0 rest.
Proof.
  induction a as [|c a IH]; simpl; [by destruct rest|]. exact IH.
Qed.

Lemma fold_left_set_header_union (found : list (jsstring * jsstring)) :
  ∀ m0 : gmap jsstring jsstring,
  fold_left PGNParser.set_header found m0
  = fold_left PGNParser.set_header found ∅ ∪ m0.
Proof.
  induction found as [|[k v] found IH]; intros m0; simpl.
  - by rewrite (left_id_L ∅ (∪)).
  - rewrite IH, (IH (PGNParser.set_header ∅ (k, v))).
    rewrite <- (assoc_L (∪)). f_equal.
    unfold PGNParser.set_header. simpl. case_bool_decide.
    + by rewrite (left_id_L ∅ (∪)).
    + by rewrite insert_union_singleton_l.
Qed.

End MoreHeaders.

(** X11: a header line (a tag of word characters, a space, a value
    without a quote in quotes, all in brackets) in front of a text adds its
    tag and value to the headers of that text; a header further on with
    the same tag wins.  The tag [__proto__] is the exception: assigning a
    string to that key of a plain object stores nothing, and the headers
    are those of the rest of the text. *)
Theorem parseHeaders_header_line (tag value rest : jsstring) :
  tag ≠ [] → Forall (fun c => is_word c = true) tag → quote_char ∉ value →
  PGNParser._parseHeaders (PGNParser.header_line tag value ++ rest)
  = if bool_decide (tag = str "__proto__") then PGNParser._parseHeaders rest
    else PGNParser._parseHeaders rest ∪ {[tag := value]}.
Proof.
  intros Hn Ht Hv. unfold PGNParser._parseHeaders.
  pose proof (match_prefix_header tag value rest Hn Ht Hv) as Hm.
  change (PGNParser.header_line tag value ++ rest)
    with (ch "[" :: (tag ++ ch " " :: quote_char :: value ++ [quote_char; ch "]"]) ++ rest)
    in *.
  simpl PGNParser.replace_all. rewrite Hm.
  change (pred (length (matched (RMatch (PGNParser.header_line tag value) [tag; value] rest))))
    with (length (tag ++ ch " " :: quote_char :: value ++ [quote_char; ch "]"])).
  rewrite replace_all_skip.
  destruct (PGNParser.replace_all _ _ _ 0 rest) as [out found]. simpl.
  rewrite fold_left_set_header_union.
  unfold PGNParser.set_header at 2.
  change (fst (PGNParser.group1 (RMatch (PGNParser.header_line tag value) [tag; value] rest),
               PGNParser.group2 (RMatch (PGNParser.header_line tag value) [tag; value] rest)))
    with tag.
  change (snd (PGNParser.group1 (RMatch (PGNParser.header_line tag value) [tag; value] rest),
               PGNParser.group2 (RMatch (PGNParser.header_line tag value) [tag; value] rest)))
    with value.
  case_bool_decide.
  - by rewrite (right_id_L ∅ (∪)).
  - by rewrite insert_empty.
Qed.

Lemma parseHeaders_header_line_witness :
  PGNParser._parseHeaders
    (PGNParser.header_line (str "White") (str "Anand, V") ++ [newline_char])
  = PGNParser._parseHeaders [newline_char] ∪ {[str "White" := str "Anand, V"]}.
Proof.
  apply (parseHeaders_header_line (str "White") (str "Anand, V") [newline_char]);
    [done|by repeat constructor|].
  apply (bool_decide_unpack _). by vm_compute.
Defined.

(** A header with the tag [__proto__] is not stored. *)
Example parseHeaders_proto_tag :
  let headers :=
    PGNParser._parseHeaders
      (PGNParser.header_line (str "__proto__") (str "x")
       ++ PGNParser.header_line (str "White") (str "Anand, V")) in
  headers !! str "__proto__" = None
  ∧ headers !! str "White" = Some (str "Anand, V")
  ∧ size headers = 1%nat.
Proof. split_and!; vm_compute; reflexivity. Qed.

Section MoreGames.
Import PGNParser.

Lemma split_on_nonempty sep s : split_on sep s ≠ [].
Proof. destruct s as [|c s]; simpl; [done|]. by destruct (c =? sep), (split_on sep s). Qed.

Lemma split_on_no_sep sep s : Forall (fun line => sep ∉ line) (split_on sep s).
Proof.
  induction s as [|c s IH]; simpl.
  - repeat constructor. by intros ?%elem_of_nil.
  - destruct (c =? sep) eqn:Hc.
    + constructor; [by intros ?%elem_of_nil|done].
    + apply N.eqb_neq in Hc. destruct (split_on sep s) as [|w ws].
      * repeat constructor. intros [?|?%elem_of_nil]%elem_of_cons; congruence.
      * inversion IH; subst. constructor; [|done].
        intros [?|?]%elem_of_cons; [congruence|done].
Qed.

Lemma split_on_app sep x rest :
  sep ∉ x → split_on sep (x ++ sep :: rest) = x :: split_on sep rest.
Proof.
  induction x as [|c x IH]; intros Hn; simpl.
  - by rewrite N.eqb_refl.
  - apply not_elem_of_cons in Hn as [Hc Hx]. apply not_eq_sym, N.eqb_neq in Hc.
    by rewrite Hc, IH.
Qed.

Lemma split_on_plain sep x : sep ∉ x → split_on sep x = [x].
Proof.
  induction x as [|c x IH]; intros Hn; simpl; [done|].
  apply not_elem_of_cons in Hn as [Hc Hx]. apply not_eq_sym, N.eqb_neq in Hc.
  by rewrite Hc, IH.
Qed.

Lemma split_on_join sep lines :
  lines ≠ [] → Forall (fun line => sep ∉ line) lines →
  split_on sep (join [sep] lines) = lines.
Proof.
  induction lines as [|x lines IH]; [done|]. intros _ Hf.
  inversion Hf as [|? ? Hx Hl]; subst. destruct lines as [|y lines].
  - simpl. by apply split_on_plain.
  - change (join [sep] (x :: y :: lines)) with (x ++ sep :: join [sep] (y :: lines)).
    rewrite split_on_app by done. f_equal. by apply IH.
Qed.

Lemma start_index_lt lines k : start_index lines = Some k → (k < length lines)%nat.
Proof.
  revert k. induction lines as [|line lines IH]; intros k; simpl; [done|].
  destruct (_ || _); [intros ?; simplify_eq; lia|].
  destruct (start_index lines) as [k'|]; [|done]. simpl. intros ?; simplify_eq.
  specialize (IH _ eq_refl). lia.
Qed.

(** The lines [_splitGames] reads are those of the text from the first
    header or blank line on. *)
Lemma strip_description_lines pgnText :
  ∃ k, split_on newline_char (strip_description pgnText)
       = drop k (split_on newline_char pgnText).
Proof.
  unfold strip_description. set (lines := split_on newline_char pgnText).
  exists (default O (start_index lines)). apply split_on_join.
  - destruct (start_index lines) as [k|] eqn:Hk; simpl.
    + apply start_index_lt in Hk. intros Hd.
      apply (f_equal length) in Hd. rewrite length_drop in Hd. simpl in Hd. lia.
    + apply split_on_nonempty.
  - apply Forall_drop, split_on_no_sep.
Qed.

Lemma split_step_no_header lines : ∀ st,
  Forall (fun line => is_header_line (trim line) = false) lines →
  sp_games st = [] → sp_hasHeaders st = false →
  let st' := fold_left split_step lines st in
  sp_games st' = [] ∧ sp_hasHeaders st' = false.
Proof.
  induction lines as [|line lines IH]; intros st Hf Hg Hh; simpl; [done|].
  inversion Hf as [|? ? Hl Hf']; subst. apply IH; [done|..];
    unfold split_step; rewrite Hl; by destruct (is_empty _).
Qed.

Lemma extract_step_blank lines : ∀ pastHeaders moveLines,
  Forall (fun line => is_header_line (trim line) || is_empty (trim line) = true) lines →
  Forall (fun line => line = []) moveLines →
  Forall (fun line => line = []) (snd (fold_left extract_step lines (pastHeaders, moveLines))).
Proof.
  induction lines as [|line lines IH]; intros pastHeaders moveLines Hf Hm; simpl; [done|].
  inversion Hf as [|? ? Hl Hf']; subst.
  destruct (is_header_line (trim line)) eqn:Hh; [by apply IH|].
  simpl in Hl. rewrite Hl. unfold is_empty in Hl. apply bool_decide_eq_true in Hl.
  destruct pastHeaders; simpl; [|by apply IH].
  apply IH; [done|]. apply Forall_app. split; [done|]. by repeat constructor.
Qed.

Lemma join_blank lines :
  Forall (fun line => line = []) lines →
  Forall (fun c => is_space c = true) (join (str " ") lines).
Proof.
  induction 1 as [|x lines -> _ IH]; [done|].
  destruct lines as [|y lines]; [done|].
  change (join (str " ") ([] :: y :: lines)) with (32 :: join (str " ") (y :: lines)).
  by constructor.
Qed.

Lemma trim_start_blank s : Forall (fun c => is_space c = true) s → trim_start s = [].
Proof. induction 1 as [|c s Hc _ IH]; simpl; [done|]. by rewrite Hc. Qed.

Lemma trim_blank s : Forall (fun c => is_space c = true) s → trim s = [].
Proof. intros H. unfold trim. by rewrite trim_start_blank. Qed.

Lemma fold_left_snoc {A} (l : list A) : ∀ acc,
  fold_left (fun line move => line ++ [move]) l acc = acc ++ l.
Proof.
  induction l as [|x l IH]; intros acc; simpl; [by rewrite app_nil_r|].
  by rewrite IH, <- app_assoc.
Qed.

Lemma getMainline_id moves : getMainline moves = moves.
Proof. unfold getMainline. by rewrite fold_left_snoc. Qed.

End MoreGames.

(** X12: a text none of whose lines is in brackets gives no game,
    whatever moves it holds: [_splitGames] keeps a block only once it has
    seen a header line. *)
Theorem no_header_no_game (pgnText : jsstring) :
  Forall (fun line => PGNParser.is_header_line (trim line) = false)
    (split_on newline_char pgnText) →
  PGNParser._splitGames (PGNParser.strip_description pgnText) = []
  ∧ PGNParser.parseMultipleGames pgnText = [].
Proof.
  intros Hf.
  assert (PGNParser._splitGames (PGNParser.strip_description pgnText) = []) as Hs.
  { unfold PGNParser._splitGames.
    destruct (strip_description_lines pgnText) as [k ->].
    destruct (split_step_no_header (drop k (split_on newline_char pgnText))
                (PGNParser.mkSplit [] [] false false)) as [Hg Hh]; [|done|done|].
    { by apply Forall_drop. }
    rewrite Hh, Hg. by rewrite andb_false_r. }
  split; [done|]. unfold PGNParser.parseMultipleGames. by rewrite Hs.
Qed.

Lemma no_header_no_game_witness :
  PGNParser._splitGames (PGNParser.strip_description (str "1. e4 e5 2. Nf3 *")) = []
  ∧ PGNParser.parseMultipleGames (str "1. e4 e5 2. Nf3 *") = [].
Proof. apply no_header_no_game. by repeat constructor. Defined.

(** X13: a block of header lines and blank lines only has a blank move
    text, and [parseSingleGame] drops it. *)
Theorem headers_only_block_dropped (gameText : jsstring) :
  Forall (fun line => PGNParser.is_header_line (trim line) || PGNParser.is_empty (trim line) = true)
    (split_on newline_char gameText) →
  PGNParser.parseSingleGame gameText = None.
Proof.
  intros Hf. apply parseSingleGame_none. apply trim_blank.
  unfold PGNParser._extractMoveText. apply join_blank. by apply extract_step_blank.
Qed.

Lemma headers_only_block_dropped_witness :
  PGNParser.parseSingleGame
    (PGNParser.header_line (str "Event") (str "x") ++ [newline_char; newline_char]) = None.
Proof. apply headers_only_block_dropped. by repeat constructor. Defined.

(** X14: [getMainline] gives the sequence it is given, move for move, and
    [getMoveAtIndex] on it is the move at the index, and nothing for a
    negative index or one past the end. *)
Theorem getMainline_copies (moves : list MoveNode) (index : Z) :
  PGNParser.getMainline moves = moves
  ∧ PGNParser.getMoveAtIndex (PGNParser.getMainline moves) index
    = if bool_decide (0 ≤ index)%Z then moves !! Z.to_nat index else None.
Proof.
  split; [apply getMainline_id|]. rewrite getMainline_id.
  unfold PGNParser.getMoveAtIndex. case_bool_decide as Hi; [|done]. simpl.
  case_bool_decide as Hl; [done|]. symmetry. apply lookup_ge_None. lia.
Qed.

(** ** The trainer: sessions, the pause, the counters *)

Section MoreTrainer.

Variable Position : Type.
Variable engine : RulesEngine Position.
Implicit Types (t : Trainer Position) (s : Session Position).

Ltac unfold_all :=
  unfold step, fire, run_task, board_onMove, togglePause, endSession, reset,
    _handlePlayerMove, _handlePlayerVariation, _autoPlayBadVariation,
    _restoreFromPlayerVariation, _processNextMove, play_or_wait, _exitVariation,
    _startVariationExploration, _completePuzzle, _executeMove, onStatusChange,
    emit, setTimeout in *.

Lemma next_unsolved_spec (solvedIndices : gset nat) n : ∀ i,
  (next_unsolved solvedIndices i n = (-1)%Z
   ∧ ∀ j, (i ≤ j < i + n)%nat → j ∈ solvedIndices)
  ∨ (∃ k, next_unsolved solvedIndices i n = Z.of_nat k
      ∧ (i ≤ k < i + n)%nat ∧ (k ∉ solvedIndices)
      ∧ ∀ j, (i ≤ j < k)%nat → j ∈ solvedIndices).
Proof.
  induction n as [|n IH]; intros i; simpl.
  - left. split; [done|]. intros j ?. lia.
  - case_bool_decide as Hi.
    + destruct (IH (S i)) as [[-> Ha]|(k & -> & ? & ? & Ha)].
      * left. split; [done|]. intros j ?.
        destruct (decide (j = i)) as [->|]; [done|]. apply Ha. lia.
      * right. exists k. split_and!; [done|lia|lia|done|]. intros j ?.
        destruct (decide (j = i)) as [->|]; [done|]. apply Ha. lia.
    + right. exists i. split_and!; [done|lia|lia|done|]. intros j ?. lia.
Qed.

(** X15: [getNextPuzzleIndex] gives the least index of a puzzle that is
    not in the set of the solved ones, and -1 exactly when every puzzle is
    in it. *)
Theorem getNextPuzzleIndex_first_unsolved (solvedIndices : gset nat) t :
  (getNextPuzzleIndex solvedIndices t = (-1)%Z
   ∧ ∀ j, (j < length (puzzles t))%nat → j ∈ solvedIndices)
  ∨ (∃ k, getNextPuzzleIndex solvedIndices t = Z.of_nat k
      ∧ (k < length (puzzles t))%nat ∧ (k ∉ solvedIndices)
      ∧ ∀ j, (j < k)%nat → j ∈ solvedIndices).
Proof.
  unfold getNextPuzzleIndex.
  destruct (next_unsolved_spec solvedIndices (length (puzzles t)) 0)
    as [[-> Ha]|(k & -> & ? & ? & Ha)].
  - left. split; [done|]. intros j ?. apply Ha. lia.
  - right. exists k. split_and!; [done|lia|done|]. intros j ?. apply Ha. lia.
Qed.

Lemma solved_count_snoc (attempts : list Attempt) a :
  solved_count (attempts ++ [a])
  = (solved_count attempts + if at_correct a then 1 else 0)%nat.
Proof.
  unfold solved_count. rewrite filter_app, length_app. f_equal.
  rewrite filter_cons. destruct (at_correct a); simpl; done.
Qed.

(** X16: [endSession] ends the session and records the puzzle in
    progress at most once, as failed and with the mistakes made so far, and
    only if no attempt at it is recorded yet; ending again records nothing
    more, a puzzle just completed is not recorded again, and the board is
    ignored afterwards. *)
Theorem endSession_records_once (reason reason' : jsstring) t :
  let ended := endSession reason t in
  isActive ended = false
  ∧ (sessionAttempts ended = sessionAttempts t
     ∨ ∃ attempt, sessionAttempts ended = sessionAttempts t ++ [attempt]
         ∧ at_correct attempt = false
         ∧ at_puzzleIndex attempt = currentPuzzleIndex t
         ∧ at_mistakes attempt = mistakes t
         ∧ Forall (fun a => at_puzzleIndex a ≠ currentPuzzleIndex t) (sessionAttempts t))
  ∧ sessionAttempts (endSession reason' ended) = sessionAttempts ended
  ∧ sessionAttempts (endSession reason (_completePuzzle t)) = sessionAttempts (_completePuzzle t)
  ∧ ∀ from to promotion, board_onMove engine from to promotion ended = ended.
Proof.
  intros ended. subst ended. split_and!.
  - unfold_all. by case_match.
  - unfold_all. destruct (_ && _ && _ && _) eqn:Hc; simpl; [|by left].
    right. eexists. split_and!; try done.
    apply andb_true_iff in Hc as [_ Hc]. apply negb_true_iff in Hc.
    apply Forall_forall. intros a Ha Heq.
    assert (existsb (fun a => bool_decide (at_puzzleIndex a = currentPuzzleIndex t))
              (sessionAttempts t) = true) as Hex; [|congruence].
    apply existsb_exists. exists a. split; [by apply list_elem_of_In|].
    by apply bool_decide_eq_true.
  - unfold endSession at 1. simpl.
    destruct (_ && _ && _ && _) eqn:Hc; simpl; [|done]. exfalso.
    apply andb_true_iff in Hc as [Hc Hn]. apply negb_true_iff in Hn.
    unfold endSession in Hn, Hc.
    destruct (bool_decide (0 ≤ currentPuzzleIndex t)%Z
              && bool_decide (0 < puzzleStartTime t)%Z
              && bool_decide (0 < moveIndex t)%nat
              && negb (existsb (fun a => bool_decide (at_puzzleIndex a = currentPuzzleIndex t))
                         (sessionAttempts t))) eqn:Hc0; simpl in *.
    + rewrite existsb_app in Hn. simpl in Hn.
      rewrite bool_decide_eq_true_2 in Hn by done. by rewrite orb_true_r in Hn.
    + rewrite Hc in Hc0. simpl in Hc0. by rewrite Hn in Hc0.
  - unfold endSession, _completePuzzle, emit. simpl.
    rewrite existsb_app. simpl.
    rewrite (bool_decide_eq_true_2 (currentPuzzleIndex t = currentPuzzleIndex t)) by done.
    by rewrite orb_true_r, !andb_false_r.
  - intros from to promotion. unfold board_onMove.
    replace (isActive (endSession reason t)) with false; [done|].
    unfold_all. by case_match.
Qed.

(** X17: without a position in the headers the player has the side of
    the first move of the game: [startPuzzle] leaves the engine at the
    start position and the board interactive at index 0, reports
    [your_turn] after the start of the puzzle and sets no timer, also when
    the first move has variations. *)
Theorem startPuzzle_player_moves_first t (puzzleIndex : Z) game first rest :
  (0 ≤ puzzleIndex)%Z →
  puzzles t !! Z.to_nat puzzleIndex = Some game →
  game_fen game = None →
  moves game = first :: rest →
  let started := startPuzzle engine puzzleIndex t in
  playerColor started = (if isWhite first then str "w" else str "b")
  ∧ _isPlayerTurn started first = true
  ∧ currentMoves started = moves game
  ∧ moveIndex started = 0%nat
  ∧ position (chess started) = start_position engine
  ∧ interactive started = true
  ∧ timers started = timers t
  ∧ events started
    = events t ++ [PuzzleStart puzzleIndex (length (puzzles t)) (playerColor started);
                   StatusChange (your_turn 0 false)].
Proof.
  intros Hi Hg Hf Hm started. subst started. unfold startPuzzle.
  rewrite bool_decide_eq_false_2 by lia. rewrite Hg, Hf. simpl.
  rewrite getMainline_id, Hm. simpl.
  unfold _processNextMove, play_or_wait, _isPlayerTurn, _startVariationExploration. simpl.
  destruct (isWhite first); simpl; rewrite ?andb_false_r; simpl;
    destruct (bool_decide (0 < length (variations first))%nat); simpl;
    by rewrite <- ?app_assoc.
Qed.

(** X18: a game without moves is completed by [startPuzzle] itself: one
    attempt without a mistake, solved, is recorded and reported right after
    the start of the puzzle, and no timer is set. *)
Theorem empty_puzzle_solved_at_once t (puzzleIndex : Z) game :
  (0 ≤ puzzleIndex)%Z →
  puzzles t !! Z.to_nat puzzleIndex = Some game →
  moves game = [] →
  let started := startPuzzle engine puzzleIndex t in
  let attempt := mkAttempt puzzleIndex true (now started - puzzleStartTime started) 0 in
  sessionAttempts started = sessionAttempts t ++ [attempt]
  ∧ events started
    = events t ++ [PuzzleStart puzzleIndex (length (puzzles t)) (playerColor started);
                   PuzzleComplete attempt (S (length (sessionAttempts t)))
                     (S (solved_count (sessionAttempts t))) false]
  ∧ timers started = timers t
  ∧ isActive started = true.
Proof.
  intros Hi Hg Hm started attempt. subst started attempt. unfold startPuzzle.
  rewrite bool_decide_eq_false_2 by lia. rewrite Hg.
  destruct (game_fen game); simpl; rewrite getMainline_id, Hm; simpl;
    unfold _processNextMove, _completePuzzle, emit; simpl;
    rewrite solved_count_snoc, length_app; simpl;
    rewrite !Nat.add_1_r; by rewrite <- ?app_assoc.
Qed.

(** X19: [reset] clears the interval of the session timer, so that a
    tick does nothing afterwards, and leaves the callbacks handed to
    [setTimeout]: a [_processNextMove] still pending then runs on the
    cleared trainer, finds no move and no frame, and records and reports a
    solved puzzle of index -1. *)
Theorem reset_leaves_callbacks s (k delay : nat) :
  timers (trainer s) !! k = Some (delay, TkProcessNext Position) →
  let cleared := session_reset engine s in
  let later := fire engine k (trainer cleared) in
  let attempt :=
    mkAttempt (-1) true (now (trainer s) - puzzleStartTime (trainer s)) 0 in
  timer_tick cleared = cleared
  ∧ timers (trainer cleared) = timers (trainer s)
  ∧ events later = events (trainer s) ++ [PuzzleComplete attempt 1 1 false]
  ∧ sessionAttempts later = [attempt]
  ∧ timers later = delete k (timers (trainer s)).
Proof.
  intros Hk cleared later attempt. subst cleared later attempt. unfold fire. simpl.
  rewrite Hk. by split_and!.
Qed.

(** With the session ended and only callbacks of the playback pending, an
    input other than [endSession] leaves the puzzle as it is. *)
Lemma ended_step t i :
  isActive t = false →
  Forall (fun timer => is_playback_task (snd timer) = true) (timers t) →
  (∀ reason, i ≠ EndSession reason) →
  isActive (step engine i t) = false
  ∧ Forall (fun timer => is_playback_task (snd timer) = true) (timers (step engine i t))
  ∧ (length (timers (step engine i t)) ≤ length (timers t))%nat
  ∧ chess (step engine i t) = chess t
  ∧ currentMoves (step engine i t) = currentMoves t
  ∧ moveIndex (step engine i t) = moveIndex t
  ∧ moveStack (step engine i t) = moveStack t
  ∧ mistakes (step engine i t) = mistakes t
  ∧ sessionAttempts (step engine i t) = sessionAttempts t
  ∧ events (step engine i t) = events t.
Proof.
  intros Ha Ht Hi. destruct i as [from to promotion|k| |reason|dt]; simpl.
  - unfold board_onMove. by rewrite Ha.
  - unfold fire. destruct (timers t !! k) as [[delay task]|] eqn:Hk; [|done].
    pose proof (Forall_lookup_1 _ _ _ _ Ht Hk) as Hp. simpl in Hp.
    assert (Forall (fun timer => is_playback_task (snd timer) = true) (delete k (timers t))
            ∧ (length (delete k (timers t)) ≤ length (timers t))%nat) as [Hd Hl].
    { split; [by apply Forall_delete|]. rewrite length_delete by done. lia. }
    destruct task; try done; simpl.
    + by rewrite Ha.
    + unfold _restoreFromPlayerVariation. simpl.
      destruct (_playerVariationRestore t); simpl; [by rewrite Ha|done].
  - done.
  - by destruct (Hi reason).
  - done.
Qed.

(** X20: once the session is ended, the playback of a bad line stops:
    with only callbacks of the playback pending, whatever timers expire and
    whatever the board reports, no move is made, nothing is reported or
    recorded, and no timer is set. *)
Theorem ended_session_stops_playback t (inputs : list Input) :
  isActive t = false →
  Forall (fun timer => is_playback_task (snd timer) = true) (timers t) →
  Forall (fun i => ∀ reason, i ≠ EndSession reason) inputs →
  let later := run engine inputs t in
  isActive later = false
  ∧ chess later = chess t
  ∧ currentMoves later = currentMoves t
  ∧ moveIndex later = moveIndex t
  ∧ moveStack later = moveStack t
  ∧ mistakes later = mistakes t
  ∧ sessionAttempts later = sessionAttempts t
  ∧ events later = events t
  ∧ (length (timers later) ≤ length (timers t))%nat.
Proof.
  intros Ha Ht Hi. revert t Ha Ht.
  induction Hi as [|i inputs Hi _ IH]; intros t Ha Ht; simpl; [by split_and!|].
  destruct (ended_step t i Ha Ht Hi)
    as (Ha' & Ht' & Hl & Hc & Hm & Hx & Hs & Hk & Hat & He).
  destruct (IH _ Ha' Ht') as (? & ? & ? & ? & ? & ? & ? & ? & ?).
  split_and!; try congruence. unfold run in *. simpl in *. lia.
Qed.

(** A callback does not look at the pause flag. *)
Ltac commute_cases :=
  simpl; repeat (reflexivity || (case_match; simpl in *)).

Lemma executeMove_isPaused moveNode (b : bool) t :
  _executeMove engine moveNode (set_isPaused b t)
  = set_isPaused b (_executeMove engine moveNode t).
Proof. unfold _executeMove. commute_cases. Qed.

Lemma exitVariation_isPaused (b : bool) t :
  _exitVariation (set_isPaused b t) = set_isPaused b (_exitVariation t).
Proof. unfold _exitVariation. commute_cases. Qed.

Lemma processNextMove_isPaused (b : bool) t :
  _processNextMove (set_isPaused b t) = set_isPaused b (_processNextMove t).
Proof.
  unfold _processNextMove. simpl.
  destruct (currentMoves t !! moveIndex t) as [moveNode|].
  - unfold play_or_wait, _startVariationExploration, _isPlayerTurn. commute_cases.
  - destruct (bool_decide _); [apply exitVariation_isPaused|done].
Qed.

Lemma autoPlay_isPaused variationMoves index (b : bool) t :
  _autoPlayBadVariation variationMoves index (set_isPaused b t)
  = set_isPaused b (_autoPlayBadVariation variationMoves index t).
Proof. unfold _autoPlayBadVariation. commute_cases. Qed.

Lemma run_task_isPaused task (b : bool) t :
  run_task engine task (set_isPaused b t) = set_isPaused b (run_task engine task t).
Proof.
  destruct task; simpl.
  - apply processNextMove_isPaused.
  - rewrite executeMove_isPaused.
    exact (processNextMove_isPaused b (set_moveIndex _ (_executeMove engine moveNode t))).
  - commute_cases.
  - done.
  - done.
  - destruct (isActive t); simpl; [|done].
    destruct (variationMoves !! index) as [moveNode|].
    + rewrite executeMove_isPaused. apply autoPlay_isPaused.
    + apply autoPlay_isPaused.
  - unfold _restoreFromPlayerVariation. commute_cases.
Qed.

Lemma fire_isPaused k (b : bool) t :
  fire engine k (set_isPaused b t) = set_isPaused b (fire engine k t).
Proof.
  unfold fire. simpl. destruct (timers t !! k) as [[delay task]|]; [|done].
  by rewrite <- run_task_isPaused.
Qed.

Lemma set_isPaused_id t : set_isPaused (isPaused t) t = t.
Proof. by destruct t. Qed.

Lemma fire_keeps_isPaused k t : isPaused (fire engine k t) = isPaused t.
Proof.
  rewrite <- (set_isPaused_id t) at 1. by rewrite fire_isPaused.
Qed.

(** X21: the pause stops the board and nothing else: a move of the board
    is ignored while the session is paused, every callback of a timer runs
    as it would without the pause, and pausing twice gives the trainer
    back. *)
Theorem pause_blocks_the_board_only t :
  (∀ from to promotion,
     board_onMove engine from to promotion (set_isPaused true t) = set_isPaused true t)
  ∧ (∀ k, fire engine k (togglePause t) = togglePause (fire engine k t))
  ∧ togglePause (togglePause t) = t.
Proof.
  split_and!.
  - intros from to promotion. unfold board_onMove. simpl. by rewrite andb_false_r.
  - intros k. unfold togglePause. by rewrite fire_isPaused, fire_keeps_isPaused.
  - unfold togglePause. simpl. rewrite negb_involutive. by destruct t.
Qed.

(** What no input changes during a puzzle, and the attempts it adds. *)
Ltac keeps_cases :=
  unfold keeps_puzzle; repeat case_match; simpl; split_and!; try done;
  first [ by exists []; rewrite app_nil_r | eexists; split; [done|by repeat constructor] ].

Lemma keeps_trans t1 t2 t3 : keeps_puzzle t1 t2 → keeps_puzzle t2 t3 → keeps_puzzle t1 t3.
Proof.
  intros (Hc & Hp & Hi & Hs & new & Ha & Hn) (Hc' & Hp' & Hi' & Hs' & new' & Ha' & Hn').
  unfold keeps_puzzle. split_and!; try congruence.
  exists (new ++ new'). split; [by rewrite Ha', Ha, app_assoc|].
  apply Forall_app. split; [done|]. by rewrite Hi in Hn'.
Qed.

Lemma keeps_processNext t : keeps_puzzle t (_processNextMove t).
Proof. unfold_all. keeps_cases. Qed.

Lemma keeps_executeMove moveNode t : keeps_puzzle t (_executeMove engine moveNode t).
Proof. unfold_all. keeps_cases. Qed.

Lemma keeps_autoPlay variationMoves index t :
  keeps_puzzle t (_autoPlayBadVariation variationMoves index t).
Proof. unfold_all. keeps_cases. Qed.

Lemma keeps_run_task task t : keeps_puzzle t (run_task engine task t).
Proof.
  destruct task; simpl.
  - apply keeps_processNext.
  - eapply keeps_trans; [apply (keeps_executeMove moveNode)|].
    eapply keeps_trans; [|apply keeps_processNext]. keeps_cases.
  - keeps_cases.
  - keeps_cases.
  - keeps_cases.
  - destruct (isActive t); simpl; [|keeps_cases].
    destruct (variationMoves !! index) as [moveNode|]; [|apply keeps_autoPlay].
    eapply keeps_trans; [apply (keeps_executeMove moveNode)|apply keeps_autoPlay].
  - unfold_all. keeps_cases.
Qed.

Lemma keeps_step i t : keeps_puzzle t (step engine i t).
Proof.
  destruct i as [from to promotion|k| |reason|dt]; simpl.
  - unfold board_onMove. destruct (_ && _ && _); [|keeps_cases].
    unfold _handlePlayerMove, _handlePlayerVariation, _autoPlayBadVariation,
      onStatusChange, emit, setTimeout.
    keeps_cases.
  - unfold fire. destruct (timers t !! k) as [[delay task]|]; [|keeps_cases].
    eapply keeps_trans; [|apply keeps_run_task]. keeps_cases.
  - keeps_cases.
  - unfold_all. keeps_cases.
  - keeps_cases.
Qed.

Lemma keeps_run (inputs : list Input) : ∀ t, keeps_puzzle t (run engine inputs t).
Proof.
  induction inputs as [|i inputs IH]; intros t; [keeps_cases|].
  change (run engine (i :: inputs) t) with (run engine inputs (step engine i t)).
  eapply keeps_trans; [apply keeps_step|apply IH].
Qed.

(** X22: from [startPuzzle] on, whatever the inputs, the index of the
    puzzle, the puzzles, the start time of the puzzle and the colour of the
    player stay as they are, attempts are only added to those recorded, and
    every attempt added is an attempt at this puzzle. *)
Theorem attempts_of_the_puzzle t0 (puzzleIndex : Z) (inputs : list Input) :
  (0 ≤ puzzleIndex)%Z →
  is_Some (puzzles t0 !! Z.to_nat puzzleIndex) →
  let t := run engine inputs (startPuzzle engine puzzleIndex t0) in
  currentPuzzleIndex t = puzzleIndex
  ∧ puzzles t = puzzles t0
  ∧ puzzleStartTime t = now t0
  ∧ playerColor t = playerColor (startPuzzle engine puzzleIndex t0)
  ∧ ∃ new, sessionAttempts t = sessionAttempts t0 ++ new
      ∧ Forall (fun a => at_puzzleIndex a = puzzleIndex) new.
Proof.
  intros Hi [game Hg] t. subst t.
  destruct (keeps_run inputs (startPuzzle engine puzzleIndex t0))
    as (Hc & Hp & Hi' & Hs & new & Ha & Hn).
  revert Hc Hp Hi' Hs new Ha Hn. unfold startPuzzle.
  rewrite bool_decide_eq_false_2 by lia. rewrite Hg.
  match goal with |- context [_processNextMove ?x] => set (before := x) end.
  destruct (keeps_processNext before) as (Hc0 & Hp0 & Hi0 & Hs0 & new0 & Ha0 & Hn0).
  intros Hc Hp Hi' Hs new Ha Hn.
  assert (currentPuzzleIndex before = puzzleIndex ∧ puzzles before = puzzles t0
          ∧ puzzleStartTime before = now t0 ∧ sessionAttempts before = sessionAttempts t0)
    as (Hi1 & Hp1 & Hs1 & Ha1).
  { subst before. unfold emit. destruct (game_fen game); by simpl. }
  split_and!; try congruence.
  exists (new0 ++ new). split; [by rewrite Ha, Ha0, Ha1, app_assoc|].
  apply Forall_app. rewrite Hi1 in Hn0. split; [done|]. by rewrite Hi0, Hi1 in Hn.
Qed.


Lemma last_snoc' {A} (l : list A) x : last (l ++ [x]) = Some x.
Proof. by rewrite last_snoc. Qed.

(** X23: the session timer.  A tick [dt] milliseconds after [startTimer],
    the session not paused: before [SESSION_DURATION] seconds have passed
    the session goes on and the seconds left are the duration less the
    whole seconds passed, which is also what [getElapsedTime] gives; from
    then on the tick ends the session with the reason timeout and exactly
    [SESSION_DURATION] as its duration, the session is no longer active,
    the interval is cleared and a further tick does nothing. *)
Theorem session_times_out s (dt : Z) :
  isPaused (trainer s) = false → (0 ≤ dt)%Z →
  let ticked := timer_tick (session_step engine (ClockAdvance dt) (startTimer s)) in
  ((dt < 1000 * SESSION_DURATION)%Z →
     timerInterval ticked = true
     ∧ remainingSeconds ticked = (SESSION_DURATION - dt `div` 1000)%Z
     ∧ (0 < remainingSeconds ticked)%Z
     ∧ isActive (trainer ticked) = isActive (trainer s)
     ∧ events (trainer ticked) = events (trainer s)
     ∧ (now (trainer s) ≠ 0%Z → getElapsedTime (trainer ticked) = (dt `div` 1000)%Z))
  ∧ ((1000 * SESSION_DURATION ≤ dt)%Z →
     timerInterval ticked = false
     ∧ remainingSeconds ticked = 0%Z
     ∧ isActive (trainer ticked) = false
     ∧ last (events (trainer ticked))
       = Some (SessionComplete (str "timeout") SESSION_DURATION
                 (sessionAttempts (trainer ticked)))
     ∧ timer_tick ticked = ticked).
Proof.
  intros Hp Hdt ticked. subst ticked.
  unfold timer_tick, startTimer, session_step, on_trainer. simpl.
  rewrite Hp. replace (now (trainer s) + dt - now (trainer s))%Z with dt by lia.
  unfold SESSION_DURATION.
  assert (dt < 1000 * (10 * 60) ↔ dt `div` 1000 < 10 * 60)%Z as Hlt.
  { split; intros ?; [apply Z.div_lt_upper_bound; lia|].
    destruct (decide (dt < 1000 * (10 * 60))%Z); [done|].
    assert (10 * 60 ≤ dt `div` 1000)%Z; [apply Z.div_le_lower_bound; lia|lia]. }
  split; intros Hd.
  - rewrite bool_decide_eq_false_2 by lia. simpl. split_and!; try done; try lia.
    intros Hnow. unfold getElapsedTime. simpl.
    rewrite bool_decide_eq_false_2 by done. f_equal. lia.
  - assert (10 * 60 ≤ dt `div` 1000)%Z as Hge by (apply Z.div_le_lower_bound; lia).
    rewrite bool_decide_eq_true_2 by lia. simpl. split_and!; try done; try lia.
    unfold endSession, emit. destruct (_ && _ && _ && _); simpl;
      rewrite last_snoc'; do 2 f_equal;
      replace (now (trainer s) + dt - now (trainer s))%Z with dt by lia;
      unfold SESSION_DURATION; lia.
Qed.

(** X24: a pause does not stop the clock of the session: while the
    session is paused a tick does nothing, whatever time has passed, and
    the first tick after the pause is the tick there would have been
    without it, since the time left is counted from the start of the
    session. *)
Theorem pause_does_not_stop_the_clock s (dt : Z) :
  isPaused (trainer s) = false →
  let later := session_step engine (ClockAdvance dt) in
  let paused := session_step engine TogglePause s in
  timer_tick (later paused) = later paused
  ∧ timer_tick (session_step engine TogglePause (later paused)) = timer_tick (later s).
Proof.
  intros Hp later paused. subst later paused. split.
  - unfold timer_tick, session_step, on_trainer, togglePause. simpl. rewrite Hp. simpl.
    by destruct (timerInterval s).
  - f_equal. unfold session_step, on_trainer, togglePause. simpl.
    f_equal. destruct s as [t ? ? ?]. simpl in *. destruct t. simpl in *. by subst.
Qed.

(** X25: a good line of one move is left at once: after the move of the
    player and the two timers that follow it, position, sequence, index,
    stack and mistakes are as before the move, the board is interactive
    again, no timer is left, and the statuses reported are the good
    variation, the return to the main line and [your_turn]. *)
Theorem good_line_of_one_move_returns t from to promotion expectedMove attemptResult
    matchedVar firstMove :
  isActive t = true → isPaused t = false → _isAutoPlaying t = false →
  currentMoves t !! moveIndex t = Some expectedMove →
  move_squares engine (position (chess t)) from to (promotion_or_queen promotion)
    = Some attemptResult →
  _normalizeSan (mr_san attemptResult) ≠ _normalizeSan (san expectedMove) →
  _findMatchingPlayerVariation expectedMove (_normalizeSan (mr_san attemptResult))
    = Some matchedVar →
  mv_isBad matchedVar = false →
  mv_variation matchedVar = [firstMove] →
  let back := fire_last engine (fire_last engine (step engine (BoardMove from to promotion) t)) in
  position (chess back) = position (chess t)
  ∧ currentMoves back = currentMoves t
  ∧ moveIndex back = moveIndex t
  ∧ moveStack back = moveStack t
  ∧ mistakes back = mistakes t
  ∧ isInVariation back = bool_decide (0 < length (moveStack t))%nat
  ∧ interactive back = true
  ∧ timers back = timers t
  ∧ events back
    = events t ++ [StatusChange player_good_variation; StatusChange return_to_mainline;
                   StatusChange (your_turn (moveIndex t) (isInVariation back))].
Proof.
  intros Ha Hp Hap Hn Hm Hne Hf Hb Hv back. subst back.
  rewrite (good_line_start _ engine t from to promotion expectedMove attemptResult matchedVar)
    by done.
  rewrite fire_last_setTimeout. rewrite Hv.
  unfold run_task, _processNextMove. simpl.
  unfold _exitVariation. simpl.
  rewrite fire_last_setTimeout. simpl.
  split_and!; try done. by rewrite <- !app_assoc.
Qed.


(** *** The counter of the variations *)

Ltac counted_split :=
  repeat match goal with
  | |- Forall _ (_ ++ [_]) => apply Forall_app; split; [|apply Forall_cons; split; [|constructor]]
  | |- Forall _ (_ :: _) => apply Forall_cons; split
  | |- Forall _ [] => constructor
  | |- _ ∧ _ => split
  end.

Ltac counted_hyps :=
  repeat match goal with
  | Hs : Forall _ (_ :: _) |- _ => apply Forall_cons in Hs; destruct Hs
  | H : _ ∧ _ |- _ => destruct H
  end.

Ltac counted_events :=
  simpl; rewrite <- ?app_assoc; simpl;
  first [ eexists; split; [reflexivity|]; by repeat constructor
        | exists []; split; [by rewrite app_nil_r|constructor] ].

Ltac counted_cases :=
  unfold counted, counter_invariant in *; unfold_all;
  repeat case_match; simpl in *; counted_hyps; counted_split; simpl in *; try done;
  try counted_events.

Lemma counted_refl t : counter_invariant t → counted t t.
Proof. intros H. split; [done|]. exists []. by rewrite app_nil_r. Qed.

Lemma counted_trans t1 t2 t3 : counted t1 t2 → counted t2 t3 → counted t1 t3.
Proof.
  intros [_ (new & He & Hn)] [Hi (new' & He' & Hn')]. split; [done|].
  exists (new ++ new'). split; [by rewrite He', He, app_assoc|by apply Forall_app].
Qed.

Lemma counted_processNext t : counter_invariant t → counted t (_processNextMove t).
Proof.
  intros [Hs Ht]. counted_cases.
  - right. exists m, [l]. split_and!; simpl; done.
  - eexists; split; [reflexivity|]. repeat constructor; simpl; lia.
Qed.

Lemma counted_run_task task t :
  task_counted task → counter_invariant t → counted t (run_task engine task t).
Proof.
  intros Hk Hinv. destruct task; simpl in Hk.
  - by apply counted_processNext.
  - unfold run_task.
    eapply counted_trans; [|apply counted_processNext].
    + destruct Hinv. counted_cases.
    + destruct Hinv. counted_cases.
  - destruct Hinv as [Hs Ht]. counted_cases.
    + destruct Hk as [Hp|(branch & taken & Hl & Hv & Hn)]; [congruence|].
      right. exists branch, (taken ++ [l]). simpl.
      split_and!; [done|by rewrite Hv, H, <- app_assoc|by destruct taken].
    + destruct Hk as [Hp|(branch & taken & Hl & Hv & Hn)]; [congruence|].
      simpl in *. simplify_eq. eexists; split; [reflexivity|].
      repeat constructor; simpl; [|lia]. rewrite Hv, H, length_app. simpl.
      destruct taken; [done|]. simpl. lia.
  - destruct Hinv as [Hs Ht]. counted_cases.
  - destruct Hinv as [Hs Ht]. counted_cases.
  - destruct Hinv as [Hs Ht]. counted_cases.
  - destruct Hinv as [Hs Ht]. counted_cases.
Qed.

Lemma counted_step i t : counter_invariant t → counted t (step engine i t).
Proof.
  intros Hinv. destruct i as [from to promotion|k| |reason|dt]; simpl.
  - destruct Hinv as [Hs Ht]. counted_cases; by left.
  - unfold fire. destruct (timers t !! k) as [[delay task]|] eqn:Hk;
      [|by apply counted_refl].
    destruct Hinv as [Hs Ht].
    pose proof (Forall_lookup_1 _ _ _ _ Ht Hk) as Htask. simpl in Htask.
    destruct (counted_run_task task (set_timers (delete k (timers t)) t) Htask)
      as [Hi He]; [|by split].
    split; [done|]. by apply Forall_delete.
  - destruct Hinv as [Hs Ht]. counted_cases.
  - destruct Hinv as [Hs Ht]. counted_cases.
  - destruct Hinv as [Hs Ht]. counted_cases.
Qed.

Lemma counter_startPuzzle puzzleIndex t :
  timers t = [] → (0 ≤ puzzleIndex)%Z → is_Some (puzzles t !! Z.to_nat puzzleIndex) →
  counter_invariant (startPuzzle engine puzzleIndex t).
Proof.
  intros Ht Hi [game Hg]. unfold startPuzzle. rewrite bool_decide_eq_false_2 by lia.
  rewrite Hg. apply counted_processNext. unfold counter_invariant.
  destruct (game_fen game); simpl; rewrite Ht; by split.
Qed.

Lemma reachable_counter t : reachable engine t → counter_invariant t.
Proof.
  induction 1 as [t0 puzzleIndex Ht Hi Hg|t i _ IH].
  - by apply counter_startPuzzle.
  - by apply counted_step.
Qed.

(** X26: in every state of a puzzle, an [entering_variation] report of a
    step carries a number between 1 and the total it reports, the number
    of the variations of the branch move. *)
Theorem variation_counter_in_range t (i : Input) (totalVariations : nat) (variationNumber : Z) :
  reachable engine t →
  StatusChange (entering_variation totalVariations variationNumber)
    ∈ new_events engine i t →
  (1 ≤ variationNumber ≤ Z.of_nat totalVariations)%Z.
Proof.
  intros Hr Hin. apply reachable_counter in Hr.
  destruct (counted_step i t Hr) as [_ (new & He & Hn)].
  unfold new_events in Hin. rewrite He, drop_app_length in Hin.
  by apply (proj1 (Forall_forall _ _) Hn) in Hin.
Qed.

End MoreTrainer.

Section MoreTrainerMoves.

Variable Position : Type.
Variable engine : RulesEngine Position.
Implicit Types (t : Trainer Position).

(** X28: a move of the board whose text differs from the expected move
    only by the marks at its end (check, mate, annotation signs) is the
    expected move: it stays on the board, the index advances by one, no
    mistake is counted, the move is reported as correct and
    [_processNextMove] is scheduled; sequence and stack are untouched. *)
Theorem exact_move_up_to_marks t from to promotion expectedMove attemptResult
    (base marks marks' : jsstring) :
  isActive t = true → isPaused t = false → _isAutoPlaying t = false →
  currentMoves t !! moveIndex t = Some expectedMove →
  move_squares engine (position (chess t)) from to (promotion_or_queen promotion)
    = Some attemptResult →
  mr_san attemptResult = base ++ marks →
  san expectedMove = base ++ marks' →
  Forall (fun c => char_in (str "+#!?") c = true) marks →
  Forall (fun c => char_in (str "+#!?") c = true) marks' →
  let moved := step engine (BoardMove from to promotion) t in
  position (chess moved) = mr_after attemptResult
  ∧ moveIndex moved = S (moveIndex t)
  ∧ mistakes moved = mistakes t
  ∧ currentMoves moved = currentMoves t
  ∧ moveStack moved = moveStack t
  ∧ events moved
    = events t ++ [MoveCompleted (mr_san attemptResult) from to (moveIndex t) true]
  ∧ timers moved = timers t ++ [(OPPONENT_DELAY, TkProcessNext Position)].
Proof.
  intros Ha Hp Hap Hn Hm Hs Hs' Hk Hk' moved. subst moved. simpl.
  unfold board_onMove, _handlePlayerMove. rewrite Ha, Hp, Hap, Hn, Hm. simpl.
  assert (_normalizeSan (mr_san attemptResult) = _normalizeSan (san expectedMove)) as He.
  { rewrite Hs, Hs'. unfold _normalizeSan, jsstring. rewrite !filter_app.
    rewrite (filter_none _ marks), (filter_none _ marks'); [done|..];
      (eapply Forall_impl; [eassumption|]); intros c Hc; cbv beta; rewrite Hc; by intros []. }
  unfold jsstring_eqb. rewrite bool_decide_eq_true_2 by done. by split_and!.
Qed.

End MoreTrainerMoves.

(** ** Examples of the trainer on the rules engine for examples *)

Lemma startPuzzle_player_moves_first_witness :
  let started := toy_start scenario_A in
  playerColor started = str "w" ∧ interactive started = true ∧ timers started = [].
Proof.
  intros started.
  edestruct (startPuzzle_player_moves_first _ toy_engine
               (loadPuzzles [game_of scenario_A] (constructor toy_engine)) 0
               (game_of scenario_A))
    as (Hc & _ & _ & _ & _ & Hi & Ht & _);
    [lia|reflexivity|reflexivity|vm_compute; reflexivity|].
  split_and!; [exact Hc|exact Hi|exact Ht].
Defined.

Lemma empty_puzzle_solved_at_once_witness :
  let started := toy_start "*" in
  sessionAttempts started = [mkAttempt 0 true 0 0] ∧ isActive started = true.
Proof.
  intros started.
  destruct (empty_puzzle_solved_at_once _ toy_engine
              (loadPuzzles [game_of "*"] (constructor toy_engine)) 0 (game_of "*"))
    as (Ha & _ & _ & Hi); [lia|reflexivity|by vm_compute|].
  split; [exact Ha|exact Hi].
Defined.

Lemma ended_session_stops_playback_witness :
  let ended := endSession (str "manual")
                 (step toy_engine (pawn "d2" "d4") (toy_start scenario_bad)) in
  let later := run toy_engine [first_timer; pawn "e2" "e4"; first_timer] ended in
  chess later = chess ended ∧ events later = events ended.
Proof.
  intros ended later.
  destruct (ended_session_stops_playback _ toy_engine ended
              [first_timer; pawn "e2" "e4"; first_timer])
    as (_ & Hc & _ & _ & _ & _ & _ & He & _).
  - by vm_compute.
  - vm_compute. by repeat constructor.
  - repeat (constructor; [by intros ?|]). constructor.
  - split; [exact Hc|exact He].
Defined.

Lemma attempts_of_the_puzzle_witness :
  let t := run toy_engine inputs_A (toy_start scenario_A) in
  currentPuzzleIndex t = 0%Z ∧ puzzleStartTime t = 0%Z.
Proof.
  intros t.
  destruct (attempts_of_the_puzzle _ toy_engine
              (loadPuzzles [game_of scenario_A] (constructor toy_engine)) 0 inputs_A)
    as (Hi & _ & Hs & _); [lia|by eexists|].
  split; [exact Hi|exact Hs].
Defined.

Lemma good_line_of_one_move_returns_witness :
  let t := toy_start scenario_D in
  let back := fire_last toy_engine (fire_last toy_engine (step toy_engine (pawn "d2" "d4") t)) in
  position (chess back) = position (chess t) ∧ moveIndex back = moveIndex t
  ∧ mistakes back = mistakes t.
Proof.
  intros t back.
  pose (expected := mkMoveNode (str "e4") (Finite 1) true [] [] [] []
                      [PGNParser._parseMoves (str "1. d4")]).
  edestruct (good_line_of_one_move_returns _ toy_engine t (str "d2") (str "d4") None expected)
    as (Hp & _ & Hi & _ & Hm & _);
    [reflexivity|reflexivity|reflexivity|by vm_compute|reflexivity|by vm_compute
    |by vm_compute|reflexivity|by vm_compute|].
  split_and!; [exact Hp|exact Hi|exact Hm].
Defined.

Lemma variation_counter_in_range_witness : (1 ≤ 1 ≤ Z.of_nat 1)%Z.
Proof.
  apply (variation_counter_in_range _ toy_engine toy_after_first_move first_timer 1 1).
  - apply toy_after_first_move_reachable.
  - vm_compute. repeat first [apply list_elem_of_here | apply list_elem_of_further].
Defined.

Lemma reset_leaves_callbacks_witness :
  let cleared := session_reset toy_engine (mkSession toy_after_first_move 600 true []) in
  timers (trainer cleared) = [(OPPONENT_DELAY, TkProcessNext (list jsstring))]
  ∧ length (events (fire toy_engine 0 (trainer cleared)))
    = S (length (events toy_after_first_move)).
Proof.
  intros cleared.
  destruct (reset_leaves_callbacks _ toy_engine
              (mkSession toy_after_first_move 600 true []) 0 OPPONENT_DELAY)
    as (_ & Ht & He & _); [reflexivity|].
  split; [exact Ht|]. fold cleared in He. rewrite He, length_app. simpl. lia.
Defined.

Lemma session_times_out_witness :
  let s := mkSession (toy_start scenario_A) 0 false [] in
  let ticked := timer_tick (session_step toy_engine (ClockAdvance 600000) (startTimer s)) in
  isActive (trainer ticked) = false ∧ remainingSeconds ticked = 0%Z.
Proof.
  intros s ticked.
  destruct (session_times_out _ toy_engine s 600000) as [_ H]; [reflexivity|lia|].
  destruct H as (_ & Hr & Ha & _); [by vm_compute|].
  split; [exact Ha|exact Hr].
Defined.

Lemma pause_does_not_stop_the_clock_witness :
  let s := startTimer (mkSession (toy_start scenario_A) 0 false []) in
  let later := session_step toy_engine (ClockAdvance 700000) in
  let paused := session_step toy_engine TogglePause s in
  isActive (trainer (timer_tick (later paused))) = true
  ∧ isActive (trainer (timer_tick (session_step toy_engine TogglePause (later paused))))
    = false.
Proof.
  intros s later paused.
  destruct (pause_does_not_stop_the_clock _ toy_engine s 700000) as [H1 H2];
    [reflexivity|].
  fold later paused in H1, H2. rewrite H1, H2. split; vm_compute; reflexivity.
Defined.

Lemma exact_move_up_to_marks_witness :
  let t := toy_start "1. Qh5+ *" in
  let moved := step toy_engine (pawn "d1" "Qh5") t in
  moveIndex moved = 1%nat ∧ mistakes moved = 0%nat.
Proof.
  intros t moved.
  pose (expected := mkMoveNode (str "Qh5+") (Finite 1) true [] [] [] [] []).
  edestruct (exact_move_up_to_marks _ toy_engine t (str "d1") (str "Qh5") None expected
               (toy_move [] (str "d1") (str "Qh5")) (str "Qh5") [] (str "+"))
    as (_ & Hi & Hm & _);
    [reflexivity|reflexivity|reflexivity|by vm_compute|reflexivity|reflexivity|reflexivity
    |constructor|by repeat constructor|].
  split; [exact Hi|exact Hm].
Defined.
